(** * The software sound mixer of go_demo_game ([sound.go])

    A shallow embedding of the mixer: the registry of playing sounds, the
    chain list ([queue]), the clip cache and the per-frame [update] that
    renders the write-ahead window into the DirectSound ring buffer.

    Conventions of the embedding:
    - Go's [int] is the 64-bit integer of windows/amd64, kept as a [Z] that
      is wrapped by [int] wherever the source does arithmetic on it; [int32]
      and [int16] likewise.
    - Go's [float64] is the kernel's binary64 [float]; every float operation
      of the source is the corresponding primitive, so rounding, infinities
      and NaN behave as they do in the program.
    - A slice that the source updates by index is a [list] read with [!!]
      and written with [<[ i := x ]>].
    - DirectSound is outside the repository: what its calls answer during a
      frame is an input ([dsAnswers]), and the calls made on the ring buffer
      are recorded in the order they happen ([mixBuffer]).
    - A Go panic is the outcome [Panicked]; a loop that the source does not
      bound ([wrapSoundPos]) takes fuel and yields [OutOfFuel] when the fuel
      does not suffice. *)

From Stdlib Require Import ZArith Lia Bool Floats Sorted.
From Stdlib Require Uint63.
From Stdlib.Strings Require Import Byte.
From stdpp Require Import gmap strings list.

Local Open Scope Z_scope.

(** ** Fixed-width integers *)

Module GoInt.

(** Two's complement reading of [z] on [w] bits. *)
Definition wrap (w : Z) (z : Z) : Z :=
  (z + 2 ^ (w - 1)) mod 2 ^ w - 2 ^ (w - 1).

Definition int (z : Z) : Z := wrap 64 z.
Definition int32 (z : Z) : Z := wrap 32 z.
Definition int16 (z : Z) : Z := wrap 16 z.

Definition minInt : Z := - 2 ^ 63.
Definition maxInt : Z := 2 ^ 63 - 1.

Definition inInt (z : Z) : Prop := minInt <= z <= maxInt.

End GoInt.

Import GoInt.

(** ** float64 *)

Module F64.

(** [float64(z)] for an [int] [z]: the nearest binary64, ties to even.
    The primitive conversion reads 63-bit naturals, which leaves out
    [minInt] alone; its magnitude [2^63] is a binary64. *)
Definition of_int (z : Z) : float :=
  if z <? 0 then
    if z =? minInt then (- 9223372036854775808)%float
    else (- of_uint63 (Uint63.of_Z (- z)))%float
  else of_uint63 (Uint63.of_Z z).

(** [int(x)] for a [float64] [x]: the fraction is dropped. A value that no
    [int] holds (NaN and the infinities among them) converts to [minInt],
    the "integer indefinite" of the amd64 conversion instruction. *)
Definition to_int (x : float) : Z :=
  match Prim2SF x with
  | S754_zero _ => 0
  | S754_finite s m e =>
      let mag := Z.shiftl (Zpos m) e in
      let v := if s then - mag else mag in
      if (minInt <=? v) && (v <=? maxInt) then v else minInt
  | S754_infinity _ | S754_nan => minInt
  end.

End F64.

(** ** Outcomes of a call *)

(** A call returns, panics, or is still inside one of its loops when the
    fuel is spent. *)
Inductive outcome (A : Type) : Type :=
| Returned (a : A)
| Panicked (msg : string)
| OutOfFuel.

Arguments Returned {A} a.
Arguments Panicked {A} msg.
Arguments OutOfFuel {A}.

Definition obind {A B : Type} (m : outcome A) (k : A -> outcome B) : outcome B :=
  match m with
  | Returned a => k a
  | Panicked msg => Panicked msg
  | OutOfFuel => OutOfFuel
  end.

Declare Scope outcome_scope.
Delimit Scope outcome_scope with outcome.
Notation "x <- m ;; k" := (obind m (fun x => k))
  (at level 100, m at next level, right associativity) : outcome_scope.

(** [for i := range xs] over [n = len(xs)] indices, starting at [i]: the
    body is run for [i], [i+1], ..., [i+n-1] on the state it threads. *)
Fixpoint forRange {S : Type} (n : nat) (i : nat) (body : nat -> S -> S) (s : S) : S :=
  match n with
  | O => s
  | Datatypes.S n' => forRange n' (Datatypes.S i) body (body i s)
  end.

(** ** Data model *)

(** 4096 samples is about 93 ms at 44100 Hz. *)
Definition soundWriteAheadSamples : Z := 4096.
Definition soundWriteAheadSize : Z := 4 * soundWriteAheadSamples.

Definition soundHandle : Type := Z.
Definition invalidSoundHandle : soundHandle := 0.

(** Go's [error]; [nil] is [None] wherever an [option error] is returned. *)
Definition error : Type := string.

(** The frame sent to the sound card: left and right, an [int16] each. *)
Record soundSample : Type := SoundSample { channels : Z * Z }.

(** The frame of the mixing accumulator: an [int32] per channel. *)
Record mixSample : Type := MixSample { channels32 : Z * Z }.

Record soundState : Type := SoundState {
  handle : soundHandle;
  samples : list soundSample;
  pos : float;
  lastSpeed : float;
  speed : float;
  looping : bool;
  queued : bool
}.

Definition consecutiveSounds : Type := (soundHandle * soundHandle)%type.

(** What DirectSound answers to the three calls [update] makes on the ring
    buffer in one frame: the error of [Lock] if any, the write cursor of
    [GetCurrentPosition] or its error, and the error of [Unlock] if any. *)
Record dsAnswers : Type := DsAnswers {
  lockAnswer : option error;
  positionAnswer : error + Z;
  unlockAnswer : option error
}.

(** A frame in which DirectSound grants every call and reports the write
    cursor [write]. *)
Definition dsGrants (write : Z) : dsAnswers := DsAnswers None (inr write) None.

(** The calls made on the ring buffer, oldest first. *)
Inductive dsCall : Type :=
| CallLock (offset bytes : Z) (granted : bool)
| CallGetCurrentPosition (ok : bool)
| CallWriteRaw (offset : Z) (frames : list soundSample) (bytes : Z)
| CallUnlock (ok : bool).

Record soundSystem : Type := SoundSystem {
  mixBuffer : list dsCall;
  mixBufferSize : Z;
  writeAheadBuffer : list soundSample;
  writeAheadMixBuffer : list mixSample;
  lastWritePos : Z;
  loadedSounds : gmap string (list byte);
  playingSounds : list soundState;
  nextHandle : soundHandle;
  queue : list consecutiveSounds
}.

Definition set_pos (p : float) (x : soundState) : soundState :=
  SoundState (handle x) (samples x) p (lastSpeed x) (speed x) (looping x) (queued x).
Definition set_lastSpeed (v : float) (x : soundState) : soundState :=
  SoundState (handle x) (samples x) (pos x) v (speed x) (looping x) (queued x).
Definition set_speed (v : float) (x : soundState) : soundState :=
  SoundState (handle x) (samples x) (pos x) (lastSpeed x) v (looping x) (queued x).
Definition set_queued (b : bool) (x : soundState) : soundState :=
  SoundState (handle x) (samples x) (pos x) (lastSpeed x) (speed x) (looping x) b.

Definition set_mixBuffer (v : list dsCall) (s : soundSystem) : soundSystem :=
  SoundSystem v (mixBufferSize s) (writeAheadBuffer s) (writeAheadMixBuffer s)
    (lastWritePos s) (loadedSounds s) (playingSounds s) (nextHandle s) (queue s).
Definition set_writeAheadBuffer (v : list soundSample) (s : soundSystem) : soundSystem :=
  SoundSystem (mixBuffer s) (mixBufferSize s) v (writeAheadMixBuffer s)
    (lastWritePos s) (loadedSounds s) (playingSounds s) (nextHandle s) (queue s).
Definition set_writeAheadMixBuffer (v : list mixSample) (s : soundSystem) : soundSystem :=
  SoundSystem (mixBuffer s) (mixBufferSize s) (writeAheadBuffer s) v
    (lastWritePos s) (loadedSounds s) (playingSounds s) (nextHandle s) (queue s).
Definition set_lastWritePos (v : Z) (s : soundSystem) : soundSystem :=
  SoundSystem (mixBuffer s) (mixBufferSize s) (writeAheadBuffer s) (writeAheadMixBuffer s)
    v (loadedSounds s) (playingSounds s) (nextHandle s) (queue s).
Definition set_loadedSounds (v : gmap string (list byte)) (s : soundSystem) : soundSystem :=
  SoundSystem (mixBuffer s) (mixBufferSize s) (writeAheadBuffer s) (writeAheadMixBuffer s)
    (lastWritePos s) v (playingSounds s) (nextHandle s) (queue s).
Definition set_playingSounds (v : list soundState) (s : soundSystem) : soundSystem :=
  SoundSystem (mixBuffer s) (mixBufferSize s) (writeAheadBuffer s) (writeAheadMixBuffer s)
    (lastWritePos s) (loadedSounds s) v (nextHandle s) (queue s).
Definition set_nextHandle (v : soundHandle) (s : soundSystem) : soundSystem :=
  SoundSystem (mixBuffer s) (mixBufferSize s) (writeAheadBuffer s) (writeAheadMixBuffer s)
    (lastWritePos s) (loadedSounds s) (playingSounds s) v (queue s).
Definition set_queue (v : list consecutiveSounds) (s : soundSystem) : soundSystem :=
  SoundSystem (mixBuffer s) (mixBufferSize s) (writeAheadBuffer s) (writeAheadMixBuffer s)
    (lastWritePos s) (loadedSounds s) (playingSounds s) (nextHandle s) v.

(** [len(xs)] as a Go [int]. *)
Definition len {A : Type} (xs : list A) : Z := Z.of_nat (length xs).

(** ** Positions *)

Definition isOver (s : soundState) : bool :=
  negb (looping s) && (F64.of_int (int (len (samples s) - 1)) <=? pos s)%float.

(** The two loops of [wrapSoundPos]: the test comes first, so a position
    that needs no step is returned whatever the fuel. *)
Fixpoint raiseWhileNegative (fuel : nat) (n pos : float) : outcome float :=
  if (pos <? 0)%float then
    match fuel with
    | O => OutOfFuel
    | Datatypes.S fuel' => raiseWhileNegative fuel' n (pos + n)%float
    end
  else Returned pos.

Fixpoint lowerWhileAbove (fuel : nat) (n pos : float) : outcome float :=
  if (n <? pos)%float then
    match fuel with
    | O => OutOfFuel
    | Datatypes.S fuel' => lowerWhileAbove fuel' n (pos - n)%float
    end
  else Returned pos.

Definition wrapSoundPos (fuel : nat) (pos : float) (sampleCount : Z) : outcome float :=
  let n := (F64.of_int sampleCount - 1)%float in
  (pos <- raiseWhileNegative fuel n pos ;;
   lowerWhileAbove fuel n pos)%outcome.

Definition round (x : float) : Z :=
  if (x <? 0)%float then F64.to_int (x - 0.5)%float
  else F64.to_int (x + 0.5)%float.

Definition writeSampleDist (s : soundSystem) (a b : Z) : outcome Z :=
  let d := int (b - a) in
  let d := if d <? 0 then int (int (mixBufferSize s - a) + b) else d in
  if negb (Z.rem d 4 =? 0) then
    Panicked "why does the sound card play partial samples?"
  else Returned (Z.quot d 4).

(** ** Mixing *)

(** [m.channels[c] += int32(f.channels[c])] for both channels. *)
Definition addSample (m : mixSample) (f : soundSample) : mixSample :=
  MixSample (int32 (fst (channels32 m) + int32 (fst (channels f))),
             int32 (snd (channels32 m) + int32 (snd (channels f)))).

(** The position the body of the advance loop leaves in [sound.pos]. *)
Definition advancePos (fuel : nat) (playedSamples : Z) (sound : soundState) : outcome float :=
  let p := (pos sound + F64.of_int playedSamples * lastSpeed sound)%float in
  if looping sound then wrapSoundPos fuel p (len (samples sound)) else Returned p.

(** The source position of output slot [i] of the write-ahead window. *)
Definition slotPos (fuel : nat) (sound : soundState) (i : Z) : outcome float :=
  let p := (pos sound + F64.of_int i * speed sound)%float in
  if looping sound then wrapSoundPos fuel p (len (samples sound)) else Returned p.

(** What one slot of the accumulator becomes once [sound] is mixed in at
    the source position [p]. *)
Definition mixSlot (sound : soundState) (p : float) (m : mixSample) : mixSample :=
  let j := round p in
  if (0 <=? j) && (j <? len (samples sound)) then
    match samples sound !! Z.to_nat j with
    | Some f => addSample m f
    | None => m
    end
  else m.

(** The inner loop over the window, from slot [i] on. *)
Fixpoint renderWindow (fuel : nat) (sound : soundState) (i : Z) (mix : list mixSample)
  : outcome (list mixSample) :=
  match mix with
  | [] => Returned []
  | m :: rest =>
      (p <- slotPos fuel sound i ;;
       rest' <- renderWindow fuel sound (i + 1) rest ;;
       Returned (mixSlot sound p m :: rest'))%outcome
  end.

(** The loop over [playingSounds] that advances and renders every sound
    that is not queued. *)
Fixpoint mixSounds (fuel : nat) (playedSamples : Z) (sounds : list soundState)
    (mix : list mixSample) : outcome (list soundState * list mixSample) :=
  match sounds with
  | [] => Returned ([], mix)
  | sound :: rest =>
      if queued sound then
        (r <- mixSounds fuel playedSamples rest mix ;;
         Returned (sound :: fst r, snd r))%outcome
      else
        (p <- advancePos fuel playedSamples sound ;;
         let sound' := set_pos p sound in
         mix' <- renderWindow fuel sound' 0 mix ;;
         r <- mixSounds fuel playedSamples rest mix' ;;
         Returned (sound' :: fst r, snd r))%outcome
  end.

(** The narrowing of one accumulator channel to [int16]. *)
Definition clipChannel (x : Z) : Z :=
  let x := if 32767 <? x then 32767 else x in
  let x := if x <? -32768 then -32768 else x in
  int16 x.

Definition clipSample (m : mixSample) : soundSample :=
  SoundSample (clipChannel (fst (channels32 m)), clipChannel (snd (channels32 m))).

(** Both window arrays have [soundWriteAheadSamples] entries, so slot [i]
    of the output is the clipped slot [i] of the accumulator. *)
Definition clipWindow (mix : list mixSample) : list soundSample := map clipSample mix.

(** ** Reclamation *)

(** [soundFromHandle] returns a pointer into [playingSounds]: the index of
    the first sound with that handle, if there is one. *)
Fixpoint soundFromHandle (sounds : list soundState) (h : soundHandle) : option nat :=
  match sounds with
  | [] => None
  | x :: rest =>
      if h =? handle x then Some O
      else option_map Datatypes.S (soundFromHandle rest h)
  end.

(** The threaded state of the reclamation loops: the backing array of
    [playingSounds], the backing array of [queue], and the write index. *)
Definition chainState : Type := (list soundState * list consecutiveSounds * nat)%type.

(** Body of [for _, q := range s.queue] for the finished sound at index
    [i]; [k] is the index of [q] and the third component is [queueN]. *)
Definition chainStep (i : nat) (k : nat) (st : chainState) : chainState :=
  let '(sounds, links, queueN) := st in
  match links !! k, sounds !! i with
  | Some q, Some over =>
      if fst q =? handle over then
        match soundFromHandle sounds (snd q) with
        | Some j => (alter (set_queued false) j sounds, links, queueN)
        | None => st
        end
      else (sounds, <[queueN := q]> links, Datatypes.S queueN)
  | _, _ => st
  end.

(** Body of the loop that removes the sounds that are over; the third
    component is [n]. The write index [queueN] of the inner loop is local
    to it: the chain list keeps its length. *)
Definition reclaimStep (i : nat) (st : chainState) : chainState :=
  let '(sounds, links, n) := st in
  match sounds !! i with
  | Some x =>
      if isOver x then
        let '(sounds', links', _) :=
          forRange (length links) 0 (chainStep i) (sounds, links, O) in
        (sounds', links', n)
      else (<[n := x]> sounds, links, Datatypes.S n)
  | None => st
  end.

Definition reclaim (sounds : list soundState) (links : list consecutiveSounds)
  : list soundState * list consecutiveSounds :=
  let '(sounds', links', n) :=
    forRange (length sounds) 0 reclaimStep (sounds, links, O) in
  (take n sounds', links').

Definition snapshotSpeed (x : soundState) : soundState := set_lastSpeed (speed x) x.

(** ** The per-frame update *)

Definition logCall (c : dsCall) (s : soundSystem) : soundSystem :=
  set_mixBuffer (mixBuffer s ++ [c]) s.

Definition zeroMixSample : mixSample := MixSample (0, 0).

(** [update] returns its [error] together with the state it leaves; a state
    left by an early return keeps what was written before it. *)
Definition update (fuel : nat) (ds : dsAnswers) (s : soundSystem)
  : outcome (option error * soundSystem) :=
  let s := set_writeAheadMixBuffer (map (fun _ => zeroMixSample) (writeAheadMixBuffer s)) s in
  match lockAnswer ds with
  | Some err => Returned (Some err, logCall (CallLock 0 soundWriteAheadSize false) s)
  | None =>
      let s := logCall (CallLock 0 soundWriteAheadSize true) s in
      match positionAnswer ds with
      | inl err => Returned (Some err, logCall (CallGetCurrentPosition false) s)
      | inr write =>
          let s := logCall (CallGetCurrentPosition true) s in
          let writePos := int write in
          (playedSamples <- writeSampleDist s (lastWritePos s) writePos ;;
           r <- mixSounds fuel playedSamples (playingSounds s) (writeAheadMixBuffer s) ;;
           let s := set_playingSounds (fst r) s in
           let s := set_writeAheadMixBuffer (snd r) s in
           let s := set_writeAheadBuffer (clipWindow (writeAheadMixBuffer s)) s in
           let s := logCall (CallWriteRaw 0 (writeAheadBuffer s)
                               (int (len (writeAheadBuffer s) * 4))) s in
           match unlockAnswer ds with
           | Some err => Returned (Some err, logCall (CallUnlock false) s)
           | None =>
               let s := logCall (CallUnlock true) s in
               let r := reclaim (playingSounds s) (queue s) in
               let s := set_queue (snd r) (set_playingSounds (fst r) s) in
               let s := set_playingSounds (map snapshotSpeed (playingSounds s)) s in
               let s := set_lastWritePos writePos s in
               Returned (None, s)
           end)%outcome
      end
  end.

(** Whether a granted [Lock] in the call history has no [Unlock] after it. *)
Fixpoint lockHeldFrom (held : bool) (calls : list dsCall) : bool :=
  match calls with
  | [] => held
  | CallLock _ _ granted :: rest => lockHeldFrom (held || granted) rest
  | CallUnlock _ :: rest => lockHeldFrom false rest
  | _ :: rest => lockHeldFrom held rest
  end.

Definition lockHeld (s : soundSystem) : bool := lockHeldFrom false (mixBuffer s).

(** ** Stopping and changing speed *)

(** [stop] and [setSpeed] act on the first sound with the handle. *)
Fixpoint removeFirst (h : soundHandle) (sounds : list soundState) : option (list soundState) :=
  match sounds with
  | [] => None
  | x :: rest =>
      if h =? handle x then Some rest
      else option_map (cons x) (removeFirst h rest)
  end.

Definition stop (s : soundSystem) (h : soundHandle) : option error * soundSystem :=
  match removeFirst h (playingSounds s) with
  | Some sounds => (None, set_playingSounds sounds s)
  | None => (Some "cannot stop unknown sound handle", s)
  end.

Fixpoint setSpeedFirst (h : soundHandle) (v : float) (sounds : list soundState)
  : option (list soundState) :=
  match sounds with
  | [] => None
  | x :: rest =>
      if h =? handle x then Some (set_speed v x :: rest)
      else option_map (cons x) (setSpeedFirst h v rest)
  end.

Definition setSpeed (s : soundSystem) (h : soundHandle) (v : float)
  : option error * soundSystem :=
  match setSpeedFirst h v (playingSounds s) with
  | Some sounds => (None, set_playingSounds sounds s)
  | None => (Some "cannot set speed on unknown sound handle", s)
  end.

(** ** Clip loading and the playback calls *)

(** [float32], for the samples the ogg decoder hands out. *)
Module F32.
Definition t : Type := spec_float.
Definition mul (x y : t) : t := SFmul 24 128 x y.
Definition of_Z (z : Z) : t := binary_normalize 24 128 z 0 false.

(** [int16(x)]: the amd64 conversion goes through [int32] (integer
    indefinite [-2^31] when out of range) and keeps the low 16 bits. *)
Definition to_int16 (x : t) : Z :=
  match x with
  | S754_zero _ => 0
  | S754_finite s m e =>
      let mag := Z.shiftl (Zpos m) e in
      let v := if s then - mag else mag in
      int16 (if (- 2 ^ 31 <=? v) && (v <? 2 ^ 31) then v else - 2 ^ 31)
  | S754_infinity _ | S754_nan => int16 (- 2 ^ 31)
  end.
End F32.

Definition byte_of_Z (z : Z) : byte :=
  match Byte.of_N (Z.to_N (z mod 256)) with
  | Some b => b
  | None => x00
  end.

Definition Z_of_byte (b : byte) : Z := Z.of_N (Byte.to_N b).

(** The two bytes of an [int16] in memory (little endian). *)
Definition bytesOfInt16 (z : Z) : list byte :=
  [byte_of_Z z; byte_of_Z (Z.shiftr (z mod 65536) 8)].

Definition int16OfBytes (lo hi : byte) : Z := int16 (Z_of_byte lo + 256 * Z_of_byte hi).

(** The raw bytes seen as frames of four bytes; [len(raw)/4] of them. *)
Fixpoint samplesOfBytes (raw : list byte) : list soundSample :=
  match raw with
  | l0 :: l1 :: r0 :: r1 :: rest =>
      SoundSample (int16OfBytes l0 l1, int16OfBytes r0 r1) :: samplesOfBytes rest
  | _ => []
  end.

Definition HasSuffix (s suffix : string) : bool :=
  let n := String.length s in
  let k := String.length suffix in
  (k <=? n)%nat && String.eqb (String.substring (n - k) k s) suffix.

Definition quoted (s : string) : string :=
  String (Ascii.ascii_of_nat 34) (s +:+ String (Ascii.ascii_of_nat 34) EmptyString).

Record oggFormat : Type := OggFormat { SampleRate : Z; Channels : Z }.

(** The mp3 decoder as [loadRawSamples] uses it: its sample rate and what
    [io.ReadAll] gets out of it. *)
Record mp3Decoder : Type := Mp3Decoder { mp3SampleRate : Z; mp3ReadAll : error + list byte }.

(** The calls a client can make on the mixer. *)
Inductive apiCall : Type :=
| DoPlay (path : string)
| DoLoop (path : string)
| DoQueueLoopAfter (atEndOf : soundHandle) (path : string)
| DoStop (h : soundHandle)
| DoSetSpeed (h : soundHandle) (v : float)
| DoPreload (path : string)
| DoUpdate (fuel : nat) (ds : dsAnswers).

Section Mixer.

(** The embedded asset files and the two decoders. *)
Variable assetFiles_ReadFile : string -> error + list byte.
Variable oggvorbis_ReadAll : list byte -> error + (list F32.t * oggFormat).
Variable mp3_NewDecoder : list byte -> error + mp3Decoder.

(** The part of [loadRawSamples] between the cache lookup and the cache
    store: the bytes of the file turned into raw sound data. *)
Definition decodeSoundFile (path : string) (soundFile : list byte) : error + list byte :=
  if HasSuffix path ".raw" then inr soundFile
  else if HasSuffix path ".ogg" then
    match oggvorbis_ReadAll soundFile with
    | inl err => inl err
    | inr (data, format) =>
        if negb (SampleRate format =? 44100) then
          inl "we expect ogg files to be 44100 Hz"
        else if negb (Channels format =? 2) then
          inl "we expect ogg files to have 2 channels"
        else
          inr (flat_map
                 (fun x => bytesOfInt16 (F32.to_int16 (F32.mul x (F32.of_Z 32767))))
                 data)
    end
  else if HasSuffix path ".mp3" then
    match mp3_NewDecoder soundFile with
    | inl err => inl err
    | inr decoder =>
        if negb (mp3SampleRate decoder =? 44100) then
          inl "we expect mp3 files to be 44100 Hz"
        else mp3ReadAll decoder
    end
  else inl ("unknown file extension for " +:+ quoted path).

Definition loadRawSamples (s : soundSystem) (path : string)
  : (error + list byte) * soundSystem :=
  match loadedSounds s !! path with
  | Some samples => (inr samples, s)
  | None =>
      match assetFiles_ReadFile path with
      | inl err => (inl err, s)
      | inr soundFile =>
          match decodeSoundFile path soundFile with
          | inl err => (inl err, s)
          | inr rawSoundData =>
              (inr rawSoundData,
               set_loadedSounds (<[path := rawSoundData]> (loadedSounds s)) s)
          end
      end
  end.

Definition preload (s : soundSystem) (path : string) : option error * soundSystem :=
  match loadRawSamples s path with
  | (inl err, s') => (Some err, s')
  | (inr _, s') => (None, s')
  end.

(** [&raw[0]] panics on an empty slice. *)
Definition playLoopingAndQueued (s : soundSystem) (path : string) (looping queued : bool)
  : outcome ((soundHandle * option error) * soundSystem) :=
  match loadRawSamples s path with
  | (inl err, s) => Returned ((invalidSoundHandle, Some err), s)
  | (inr raw, s) =>
      match raw with
      | [] => Panicked "index out of range [0] with length 0"
      | _ :: _ =>
          let samples := samplesOfBytes raw in
          let handle := nextHandle s in
          let s := set_nextHandle (int (nextHandle s + 1)) s in
          let s := set_playingSounds
                     (playingSounds s ++
                        [SoundState handle samples 0%float 0%float 1%float looping queued]) s in
          Returned ((handle, None), s)
      end
  end.

Definition play (s : soundSystem) (path : string) :=
  playLoopingAndQueued s path false false.

Definition loop (s : soundSystem) (path : string) :=
  playLoopingAndQueued s path true false.

Definition queueLoopAfter (s : soundSystem) (atEndOf : soundHandle) (path : string)
  : outcome ((soundHandle * option error) * soundSystem) :=
  (r <- playLoopingAndQueued s path true true ;;
   let '((handle, err), s) := r in
   match err with
   | Some _ => Returned ((invalidSoundHandle, None), s)
   | None => Returned ((handle, None), set_queue (queue s ++ [(atEndOf, handle)]) s)
   end)%outcome.

(** *** Runs of calls *)

Definition clipLoads (s : soundSystem) (path : string) : bool :=
  match fst (loadRawSamples s path) with
  | inr _ => true
  | inl _ => false
  end.

(** One call of the mixer's interface: the state it leaves and, for
    [play], [loop] and [queueLoopAfter] on a clip that loads, the handle
    it returns. *)
Definition apiStep (s : soundSystem) (c : apiCall)
  : outcome (list soundHandle * soundSystem) :=
  match c with
  | DoPlay path =>
      (r <- play s path ;;
       Returned (if clipLoads s path then [fst (fst r)] else [], snd r))%outcome
  | DoLoop path =>
      (r <- loop s path ;;
       Returned (if clipLoads s path then [fst (fst r)] else [], snd r))%outcome
  | DoQueueLoopAfter atEndOf path =>
      (r <- queueLoopAfter s atEndOf path ;;
       Returned (if clipLoads s path then [fst (fst r)] else [], snd r))%outcome
  | DoStop h => Returned ([], snd (stop s h))
  | DoSetSpeed h v => Returned ([], snd (setSpeed s h v))
  | DoPreload path => Returned ([], snd (preload s path))
  | DoUpdate fuel ds => (r <- update fuel ds s ;; Returned ([], snd r))%outcome
  end.

(** The handles returned along a run, oldest first; the run ends early
    when a call does not return. *)
Fixpoint issuedHandles (s : soundSystem) (calls : list apiCall) : list soundHandle :=
  match calls with
  | [] => []
  | c :: rest =>
      match apiStep s c with
      | Returned (hs, s') => hs ++ issuedHandles s' rest
      | _ => []
      end
  end.

End Mixer.

(** ** Initialisation *)

(** What DirectSound answers to the calls of [initSoundSystem], in the
    order they are made; [None] is success. *)
Record dsInitAnswers : Type := DsInitAnswers {
  createAnswer : option error;
  cooperativeLevelAnswer : option error;
  createSoundBufferAnswer : option error;
  initLockAnswer : option error;
  initUnlockAnswer : option error;
  playAnswer : option error
}.

(** [for bufferSize%4 != 0 { bufferSize++ }]: at most three steps. *)
Definition alignBufferSize (bufferSize : Z) : Z :=
  Nat.iter 3 (fun b => if negb (b mod 4 =? 0) then (b + 1) mod 2 ^ 32 else b) bufferSize.

(** The [soundSystem] that [initSoundSystem] builds once the ring buffer
    of [bufferSize] bytes is silenced and playing. *)
Definition newSoundSystem (bufferSize : Z) : soundSystem :=
  {| mixBuffer := [CallLock 0 bufferSize true; CallUnlock true];
     mixBufferSize := int bufferSize;
     writeAheadBuffer := replicate (Z.to_nat soundWriteAheadSamples) (SoundSample (0, 0));
     writeAheadMixBuffer := replicate (Z.to_nat soundWriteAheadSamples) zeroMixSample;
     lastWritePos := 0;
     loadedSounds := ∅;
     playingSounds := [];
     nextHandle := 1;
     queue := [] |}.

Definition initSoundSystem (a : dsInitAnswers) : error + soundSystem :=
  match createAnswer a with
  | Some err => inl err
  | None =>
  match cooperativeLevelAnswer a with
  | Some err => inl err
  | None =>
      let channelCount := 2 in
      let samplesPerSec := 44100 in
      let bitsPerSample := 16 in
      let blockAlign := Z.quot (channelCount * bitsPerSample) 8 in
      let avgBytesPerSec := samplesPerSec * blockAlign in
      (* Reserve 2 seconds worth of audio buffer. *)
      let bufferSize := alignBufferSize (2 * avgBytesPerSec) in
      match createSoundBufferAnswer a with
      | Some err => inl err
      | None =>
      match initLockAnswer a with
      | Some err => inl err
      | None =>
      match initUnlockAnswer a with
      | Some err => inl err
      | None =>
      match playAnswer a with
      | Some err => inl err
      | None =>
          inr (newSoundSystem bufferSize)
      end end end end
  end end.

Definition dsInitOk : dsInitAnswers := DsInitAnswers None None None None None None.


(** ** Vocabulary of the statements *)

(** The only field the reclamation pass changes in a sound is [queued],
    and only from whatever it was to [false]. *)
Definition unqueued (x y : soundState) : Prop := y = x \/ y = set_queued false x.

Definition notOver (x : soundState) : bool := negb (isOver x).

(** The invariant of the removal loop before index [i]: the first [n]
    entries are the sounds of the first [i] that are not over, and the
    entries from [i] on are still in place. *)
Definition reclaimInv (sounds0 : list soundState) (i : nat) (st : chainState) : Prop :=
  (st.2 <= i)%nat /\
  Forall2 unqueued (List.filter notOver (take i sounds0)) (take st.2 st.1.1) /\
  Forall2 unqueued (drop i sounds0) (drop i st.1.1).

(** What the advance step of one frame makes of a sound: a queued sound
    is left alone; any other has moved by [playedSamples] times its
    [lastSpeed], and is wrapped when it loops. *)
Definition advancedBy (fuel : nat) (playedSamples : Z) (x y : soundState) : Prop :=
  if queued x then y = x
  else
    let p := (pos x + F64.of_int playedSamples * lastSpeed x)%float in
    exists p',
      (if looping x then wrapSoundPos fuel p (len (samples x)) else Returned p)
        = Returned p' /\
      y = set_pos p' x.

(** The accumulator of output slot [i], starting from [m], once every
    sound of [sounds] that is not queued is mixed in at the source position
    [pos + i * speed], wrapped when the sound loops. *)
Fixpoint mixedSlot (fuel : nat) (sounds : list soundState) (i : Z) (m : mixSample)
  : outcome mixSample :=
  match sounds with
  | [] => Returned m
  | x :: rest =>
      if queued x then mixedSlot fuel rest i m
      else
        let p := (pos x + F64.of_int i * speed x)%float in
        (p' <- (if looping x then wrapSoundPos fuel p (len (samples x)) else Returned p) ;;
         mixedSlot fuel rest i (mixSlot x p' m))%outcome
  end.

(** The sign of a number that is not a NaN. *)
Definition hasSign (s : bool) (v : spec_float) : Prop :=
  match v with
  | S754_zero s' | S754_infinity s' | S754_finite s' _ _ => s' = s
  | S754_nan => False
  end.

(** Zero, or a number of the given sign: with [false], "not below zero". *)
Definition zeroOrSign (s : bool) (v : spec_float) : Prop :=
  match v with
  | S754_zero _ => True
  | S754_infinity s' | S754_finite s' _ _ => s' = s
  | S754_nan => False
  end.

Definition isFinite (v : spec_float) : Prop :=
  match v with
  | S754_zero _ | S754_finite _ _ _ => True
  | S754_infinity _ | S754_nan => False
  end.

Definition notNaN (v : spec_float) : Prop := v <> S754_nan.

(** Positive zero. *)
Definition SFzero : spec_float := S754_zero false.

(** A call that, whatever the fuel, is still running when it is spent. *)
Definition neverReturns {A : Type} (call : nat -> outcome A) : Prop :=
  forall fuel : nat, call fuel = OutOfFuel.

(** Successive frames of the game loop: one [update] per reading of the
    write cursor, DirectSound granting every call. The loop checks the
    error of [update] and panics on one, so a run goes on only through
    frames that return nil. *)
Fixpoint frames (fuel : nat) (writes : list Z) (s : soundSystem) : outcome soundSystem :=
  match writes with
  | [] => Returned s
  | write :: rest =>
      (r <- update fuel (dsGrants write) s ;;
       match fst r with
       | None => frames fuel rest (snd r)
       | Some err => Panicked err
       end)%outcome
  end.

(** The positions a sound that does not loop goes through, frame after
    frame, from position [p]: it moves by the played samples times the
    speed of the frame before, which is [lastSpeed] on the first frame and
    the constant speed [v] from then on. *)
Fixpoint steadyPositions (size lastWrite : Z) (lastSpeed v p : float) (writes : list Z)
  : list float :=
  match writes with
  | [] => []
  | write :: rest =>
      let p' := (p + F64.of_int ((write - lastWrite) mod size / 4) * lastSpeed)%float in
      p' :: steadyPositions size write v v p' rest
  end.




(** A run of calls, as far as every call returns, and the state it
    leaves. *)
Fixpoint runCalls (files : string -> error + list byte)
    (ogg : list byte -> error + (list F32.t * oggFormat))
    (mp3 : list byte -> error + mp3Decoder)
    (s : soundSystem) (calls : list apiCall) : outcome soundSystem :=
  match calls with
  | [] => Returned s
  | c :: rest =>
      (r <- apiStep files ogg mp3 s c ;; runCalls files ogg mp3 (snd r) rest)%outcome
  end.

(** What a [WriteRaw] call of the history has to look like to stay inside
    the region that [update] locks. *)
Definition writesWholeWindow (c : dsCall) : Prop :=
  match c with
  | CallWriteRaw offset frames bytes =>
      offset = 0 /\ len frames = soundWriteAheadSamples /\ bytes = soundWriteAheadSize
  | _ => True
  end.

(** What every state of a run satisfies. *)
Definition mixerInv (s : soundSystem) : Prop :=
  1 <= nextHandle s /\
  List.NoDup (map handle (playingSounds s)) /\
  Forall (fun h => 1 <= h < nextHandle s) (map handle (playingSounds s)) /\
  len (writeAheadBuffer s) = soundWriteAheadSamples /\
  len (writeAheadMixBuffer s) = soundWriteAheadSamples /\
  Forall writesWholeWindow (mixBuffer s).

(** The frames that a sequence of channel values makes up: left and right
    alternate; a last value without a partner is dropped. *)
Fixpoint framesOf (zs : list Z) : list soundSample :=
  match zs with
  | l :: r :: rest => SoundSample (l, r) :: framesOf rest
  | _ => []
  end.

(** [dpadTo100Degrees]: the four direction bits select an entry of the
    table; [0xFFFF] is the idle state. *)
Definition dpadTo100Degrees (up right down left : bool) : Z :=
  let x := 0 in
  let x := if up then x + 1 else x in
  let x := if right then x + 2 else x in
  let x := if down then x + 4 else x in
  let x := if left then x + 8 else x in
  nth (Z.to_nat x)
    [0xFFFF; 0; 9000; 4500; 18000; 0xFFFF; 13500; 0xFFFF;
     27000; 31500; 0xFFFF; 0xFFFF; 22500; 0xFFFF; 0xFFFF; 0xFFFF]
    0.

(** The constants [axisMin = 0.35] and [axisMax = 0.95] as the [float32]
    they are compared in: the nearest one to the decimal fraction. *)
Definition axisMin : F32.t := SFdiv 24 128 (F32.of_Z 35) (F32.of_Z 100).
Definition axisMax : F32.t := SFdiv 24 128 (F32.of_Z 95) (F32.of_Z 100).

Definition clampAxis (rel : F32.t) : F32.t :=
  if SFleb (SFopp axisMin) rel && SFleb rel axisMin then S754_zero false
  else if SFltb axisMax rel then F32.of_Z 1
  else if SFltb rel (SFopp axisMax) then SFopp (F32.of_Z 1)
  else rel.

(** [makeSoundSpeed] of the game loop, which feeds [setSpeed]. *)
Definition makeSoundSpeed (x : float) : float :=
  let x := (x * 0x1.ccccccccccccdp-1)%float in
  let y := (9 * x * x * x)%float in
  y.

(** Whether some link chains the handle [h] to a sound of [sounds] that
    is over. *)
Definition startedBy (sounds : list soundState) (links : list consecutiveSounds)
    (h : soundHandle) : bool :=
  existsb (fun q => (snd q =? h) && existsb (fun o => isOver o && (fst q =? handle o)) sounds)
    links.

(** A sound with [queued] cleared if a link chains it to a sound of
    [sounds] that is over. *)
Definition startIfChained (sounds : list soundState) (links : list consecutiveSounds)
    (x : soundState) : soundState :=
  if startedBy sounds links (handle x) then set_queued false x else x.

(** The sounds that are left when the finished ones are removed and the
    ones chained to them are started. *)
Definition reclaimed (sounds : list soundState) (links : list consecutiveSounds)
  : list soundState :=
  map (startIfChained sounds links) (List.filter notOver sounds).

(** A link that is not chained to the handle [a]. *)
Definition unchained (a : soundHandle) (q : consecutiveSounds) : bool := negb (fst q =? a).

(** Whether a link of [links] chained to [a] points, by its handle, at
    index [j] of [sounds]. *)
Definition scanFlag (sounds : list soundState) (links : list consecutiveSounds)
    (a : soundHandle) (j : nat) : bool :=
  existsb (fun q => (fst q =? a) && bool_decide (soundFromHandle sounds (snd q) = Some j))
    links.

(** The state of the scan of the chain list for the finished sound with
    handle [a], before the link at index [k]. *)
Definition scanInv (sounds : list soundState) (links : list consecutiveSounds)
    (a : soundHandle) (k : nat) (st : chainState) : Prop :=
  map handle st.1.1 = map handle sounds /\
  st.2 = length (List.filter (unchained a) (take k links)) /\
  st.1.2 = List.filter (unchained a) (take k links) ++ drop st.2 links /\
  forall j,
    st.1.1 !! j =
      (fun y => if scanFlag sounds (take k links) a j then set_queued false y else y)
        <$> sounds !! j.

(** The state of the removal loop before index [i], for sounds with
    distinct handles. *)
Definition reclaimSpecInv (sounds0 : list soundState) (links0 : list consecutiveSounds)
    (i : nat) (st : chainState) : Prop :=
  (st.2 <= i)%nat /\
  length st.1.1 = length sounds0 /\
  take st.2 st.1.1 = reclaimed (take i sounds0) links0 /\
  drop i st.1.1 = map (startIfChained (take i sounds0) links0) (drop i sounds0) /\
  map handle (drop st.2 st.1.1) = map handle (drop st.2 sounds0) /\
  length st.1.2 = length links0 /\
  (forall q, In q st.1.2 -> In q links0) /\
  (forall q, In q links0 ->
     (forall o, In o (take i sounds0) -> isOver o = true -> fst q <> handle o) ->
     In q st.1.2).

(** The value of a finite number in units of [2^-1074], the least
    positive binary64: an integer. *)
Definition scaled (x : spec_float) : Z :=
  match x with
  | S754_finite s m e => (if s then - Zpos m else Zpos m) * 2 ^ (e + 1074)
  | _ => 0
  end.

(** Zero, or a positive number with an exponent of at most 0 (so below
    [2^53]). *)
Definition smallNonneg (x : spec_float) : Prop :=
  match x with
  | S754_zero _ => True
  | S754_finite false _ e => e <= 0
  | _ => False
  end.

(** A number that is not negative, or a negative number with an exponent
    of at most 0 (so above [-2^53]); not a NaN and not infinite. *)
Definition smallFinite (x : spec_float) : Prop :=
  match x with
  | S754_zero _ => True
  | S754_finite _ _ e => e <= 0
  | _ => False
  end.

(** A positive whole number below [2^52]. *)
Definition wholePeriod (n : spec_float) : Prop :=
  match n with
  | S754_finite false m e =>
      exists k, 0 < k < 2 ^ 52 /\ Zpos m * 2 ^ (e + 1074) = k * 2 ^ 1074
  | _ => False
  end.

(** ** Example inputs *)

(** The system right after a successful [initSoundSystem]. *)
Definition startedSystem : soundSystem := newSoundSystem 352800.

(** A frame in which the region is locked but the cursor cannot be read. *)
Definition dsCursorFails : dsAnswers :=
  DsAnswers None (inl "GetCurrentPosition failed") None.

(** A ten-frame clip. *)
Definition clip10 : list soundSample :=
  map (fun i => SoundSample (100 * Z.of_nat i, - Z.of_nat i)) (seq 1 10).

(** An asset store with no file in it, and decoders that reject everything. *)
Definition noAssets : string -> error + list byte :=
  fun _ => inl "open: file does not exist".
Definition noOgg : list byte -> error + (list F32.t * oggFormat) :=
  fun _ => inl "vorbis: invalid header".
Definition noMp3 : list byte -> error + mp3Decoder :=
  fun _ => inl "mp3: invalid stream".

(** An asset store with one file per kind, and decoders that report a
    48000 Hz stream. *)
Definition someAssets : string -> error + list byte :=
  fun path =>
    if String.eqb path "assets/blip.raw" then inr [x01; x00; x02; x00; x03; x00; x04; x00]
    else if String.eqb path "assets/music.ogg" then inr [x4f; x67; x67; x53]
    else if String.eqb path "assets/music.mp3" then inr [x49; x44; x33]
    else inl "open: file does not exist".
Definition ogg48000 : list byte -> error + (list F32.t * oggFormat) :=
  fun _ => inr ([], OggFormat 48000 2).
Definition mp348000 : list byte -> error + mp3Decoder :=
  fun _ => inr (Mp3Decoder 48000 (inr [])).

(** A short session: [play] a two-frame clip, queue a loop after it, and
    run two frames of [update]; the write cursor moves by one frame (four
    bytes) between them, which takes the first sound to its end. *)
Definition chainScenario : outcome soundSystem :=
  (r1 <- play someAssets noOgg noMp3 startedSystem "assets/blip.raw" ;;
   r2 <- queueLoopAfter someAssets noOgg noMp3 (snd r1) (fst (fst r1)) "assets/blip.raw" ;;
   r3 <- update 0 (dsGrants 0) (snd r2) ;;
   r4 <- update 0 (dsGrants 4) (snd r3) ;;
   Returned (snd r4))%outcome.

(** A run of calls on the example assets. *)
Definition exampleCalls : list apiCall :=
  [DoPlay "assets/blip.raw"; DoLoop "assets/missing.raw";
   DoQueueLoopAfter 1 "assets/blip.raw"; DoUpdate 0 (dsGrants 0);
   DoStop 1; DoLoop "assets/blip.raw"].

(** The state a returning [update] leaves. *)
Definition stateAfter (o : outcome (option error * soundSystem)) (otherwise : soundSystem)
  : soundSystem :=
  match o with
  | Returned (_, s) => s
  | _ => otherwise
  end.

(** A mixer with one sound that played at speed 1 during the last frame
    and is now set to speed 2, and one queued loop. *)
Definition speedySystem : soundSystem :=
  set_playingSounds
    [SoundState 1 clip10 0 1 2 false false; SoundState 2 clip10 0 0 1 true true]
    startedSystem.

(** The frame after the sound card played three samples (twelve bytes). *)
Definition afterSpeedyFrame : soundSystem :=
  stateAfter (update 0 (dsGrants 12) speedySystem) speedySystem.

(** A sound that plays steadily at speed 2. *)
Definition steadySound : soundState := SoundState 1 clip10 0 2 2 false false.

(** A mixer with that sound and one queued loop. *)
Definition steadySystem : soundSystem :=
  set_playingSounds [steadySound; SoundState 2 clip10 0 0 1 true true] startedSystem.

(** Two frames; the sound card played three samples (twelve bytes) before
    each. *)
Definition afterSteadyFrames : soundSystem :=
  match frames 0 [12; 24] steadySystem with
  | Returned s => s
  | _ => steadySystem
  end.

(** What a returning call returned. *)
Definition returned {A : Type} (o : outcome A) (otherwise : A) : A :=
  match o with
  | Returned a => a
  | _ => otherwise
  end.

(** The started system once [assets/blip.raw] is in the cache. *)
Definition loadedSystem : soundSystem :=
  snd (preload someAssets noOgg noMp3 startedSystem "assets/blip.raw").

(** An asset store whose only file is empty. *)
Definition emptyAssets : string -> error + list byte :=
  fun path =>
    if String.eqb path "assets/empty.raw" then inr []
    else inl "open: file does not exist".

(** The started system after one [play], and after one [queueLoopAfter]. *)
Definition afterPlay : soundSystem :=
  snd (returned (play someAssets noOgg noMp3 startedSystem "assets/blip.raw")
         ((0, None), startedSystem)).

Definition afterQueue : soundSystem :=
  snd (returned (queueLoopAfter someAssets noOgg noMp3 startedSystem 77 "assets/blip.raw")
         ((0, None), startedSystem)).

(** The frame in which the cursor cannot be read. *)
Definition afterFailedFrame : soundSystem :=
  stateAfter (update 0 dsCursorFails speedySystem) speedySystem.



(** The speedy mixer once its first sound was stopped: the loop that was
    queued after it is all that is left. *)
Definition orphanSystem : soundSystem :=
  set_queue [(1, 2)] (snd (stop speedySystem 1)).

Definition afterOrphanFrames : soundSystem :=
  returned (frames 0 [12; 24] orphanSystem) orphanSystem.

(** The state the example run leaves. *)
Definition afterExampleCalls : soundSystem :=
  returned (runCalls someAssets noOgg noMp3 startedSystem exampleCalls) startedSystem.

(** The two sounds of the speedy mixer, advanced by three frames and mixed
    into a window of two slots. *)
Definition mixedSpeedy : list soundState * list mixSample :=
  returned (mixSounds 0 3 (playingSounds speedySystem) [zeroMixSample; zeroMixSample])
    ([], []).

(** The chain scenario before its last frame: the first sound is about to
    end, the loop queued after it waits. *)
Definition chainReady : soundSystem :=
  returned
    (r1 <- play someAssets noOgg noMp3 startedSystem "assets/blip.raw" ;;
     r2 <- queueLoopAfter someAssets noOgg noMp3 (snd r1) (fst (fst r1)) "assets/blip.raw" ;;
     r3 <- update 0 (dsGrants 0) (snd r2) ;;
     Returned (snd r3))%outcome
    startedSystem.

(** The frame on which the first sound ends, and the sound it leaves. *)
Definition chainFired : soundSystem :=
  stateAfter (update 0 (dsGrants 4) chainReady) chainReady.

Definition startedFollower : soundState :=
  nth 0 (playingSounds chainFired) (SoundState 0 [] 0 0 0 false false).

(** * Properties *)

(** ** Fixed-width integers *)

Lemma wrap_id w z : 0 < w -> - 2 ^ (w - 1) <= z < 2 ^ (w - 1) -> wrap w z = z.
Proof.
  intros Hw Hz. unfold wrap.
  assert (E : 2 ^ w = 2 * 2 ^ (w - 1)).
  { replace w with (Z.succ (w - 1)) at 1 by lia. rewrite Z.pow_succ_r; lia. }
  rewrite Z.mod_small; lia.
Qed.

Lemma wrap_range w z : 0 < w -> - 2 ^ (w - 1) <= wrap w z < 2 ^ (w - 1).
Proof.
  intros Hw. unfold wrap.
  assert (E : 2 ^ w = 2 * 2 ^ (w - 1)).
  { replace w with (Z.succ (w - 1)) at 1 by lia. rewrite Z.pow_succ_r; lia. }
  assert (0 < 2 ^ (w - 1)) by (apply Z.pow_pos_nonneg; lia).
  pose proof (Z.mod_pos_bound (z + 2 ^ (w - 1)) (2 ^ w)). lia.
Qed.

Lemma int_id z : inInt z -> int z = z.
Proof. unfold inInt, minInt, maxInt, int. intros H. apply wrap_id; lia. Qed.

Lemma int32_id z : - 2147483648 <= z <= 2147483647 -> int32 z = z.
Proof. intros H. apply wrap_id; lia. Qed.

Lemma int16_id z : - 32768 <= z <= 32767 -> int16 z = z.
Proof. intros H. apply wrap_id; lia. Qed.

Lemma int16_range z : - 32768 <= int16 z <= 32767.
Proof. pose proof (wrap_range 16 z). unfold int16. lia. Qed.

(** ** Outcomes *)

Lemma obind_Returned {A B : Type} (m : outcome A) (k : A -> outcome B) (b : B) :
  obind m k = Returned b -> exists a, m = Returned a /\ k a = Returned b.
Proof. destruct m as [a| |]; simpl; intros H; try discriminate. eauto. Qed.


(** ** Hard clipping of the accumulator *)

Lemma clipChannel_clamp (x : Z) : clipChannel x = Z.max (-32768) (Z.min 32767 x).
Proof.
  unfold clipChannel.
  destruct (Z.ltb_spec 32767 x) as [Hhi|Hhi].
  - destruct (Z.ltb_spec 32767 (-32768)); [lia|].
    rewrite int16_id; lia.
  - destruct (Z.ltb_spec x (-32768)) as [Hlo|Hlo]; rewrite int16_id; lia.
Qed.

Lemma clipWindow_lookup (mix : list mixSample) (i : nat) :
  clipWindow mix !! i = clipSample <$> mix !! i.
Proof. unfold clipWindow. apply list_lookup_fmap. Qed.

(** C9. The narrowing of the accumulator to the output window is hard
    clipping into [-32768, 32767]: every channel of every output slot is the
    accumulator's value clamped to that range, so 40000 gives 32767, -40000
    gives -32768, the two bounds stay as they are and so does every value
    between them. *)
Theorem clip_to_output_range :
  (forall (mix : list mixSample) (i : nat) (m : mixSample),
      mix !! i = Some m ->
      clipWindow mix !! i =
        Some (SoundSample (Z.max (-32768) (Z.min 32767 (fst (channels32 m))),
                           Z.max (-32768) (Z.min 32767 (snd (channels32 m)))))) /\
  clipChannel 40000 = 32767 /\
  clipChannel (-40000) = -32768 /\
  clipChannel 32767 = 32767 /\
  clipChannel (-32768) = -32768 /\
  (forall x : Z, -32768 <= x <= 32767 -> clipChannel x = x) /\
  (forall (fuel : nat) (ds : dsAnswers) (s s' : soundSystem) (e : option error),
      update fuel ds s = Returned (e, s') ->
      lockAnswer ds = None ->
      (exists w, positionAnswer ds = inr w) ->
      writeAheadBuffer s' = clipWindow (writeAheadMixBuffer s')).
Proof.
  split; [|repeat split; try reflexivity].
  - intros mix i m Hm. rewrite clipWindow_lookup, Hm. simpl.
    unfold clipSample. now rewrite !clipChannel_clamp.
  - intros x Hx. rewrite clipChannel_clamp. lia.
  - intros fuel ds s s' e Hup Hlock [w Hw]. unfold update in Hup.
    rewrite Hlock, Hw in Hup.
    apply obind_Returned in Hup as (played & _ & Hup).
    apply obind_Returned in Hup as (r & _ & Hup).
    destruct (unlockAnswer ds); inversion Hup; subst; reflexivity.
Qed.

(** ** The cursor distance *)

Lemma raiseWhileNegative_no_panic fuel n p msg : raiseWhileNegative fuel n p <> Panicked msg.
Proof.
  revert p. induction fuel as [|fuel IH]; intros p; simpl;
    destruct (p <? 0)%float; try discriminate. apply IH.
Qed.

Lemma lowerWhileAbove_no_panic fuel n p msg : lowerWhileAbove fuel n p <> Panicked msg.
Proof.
  revert p. induction fuel as [|fuel IH]; intros p; simpl;
    destruct (n <? p)%float; try discriminate. apply IH.
Qed.

Lemma wrapSoundPos_no_panic fuel p count msg : wrapSoundPos fuel p count <> Panicked msg.
Proof.
  unfold wrapSoundPos.
  destruct (raiseWhileNegative fuel _ p) as [q| |] eqn:E; simpl; try discriminate.
  - apply lowerWhileAbove_no_panic.
  - intros H. inversion H; subst. now apply raiseWhileNegative_no_panic in E.
Qed.

Lemma obind_Panicked {A B : Type} (m : outcome A) (k : A -> outcome B) msg :
  obind m k = Panicked msg ->
  m = Panicked msg \/ exists a, m = Returned a /\ k a = Panicked msg.
Proof.
  destruct m as [a|msg'|]; simpl; intros H; [eauto | left; congruence | discriminate].
Qed.

Lemma slotPos_no_panic fuel x i msg : slotPos fuel x i <> Panicked msg.
Proof.
  unfold slotPos. destruct (looping x); [apply wrapSoundPos_no_panic | discriminate].
Qed.

Lemma advancePos_no_panic fuel played x msg : advancePos fuel played x <> Panicked msg.
Proof.
  unfold advancePos. destruct (looping x); [apply wrapSoundPos_no_panic | discriminate].
Qed.

Lemma renderWindow_no_panic fuel x mix : forall i msg, renderWindow fuel x i mix <> Panicked msg.
Proof.
  induction mix as [|m rest IH]; intros i msg; simpl; [discriminate|].
  intros H. apply obind_Panicked in H as [H|(p & _ & H)].
  - now apply slotPos_no_panic in H.
  - apply obind_Panicked in H as [H|(r & _ & H)]; [now apply IH in H | discriminate].
Qed.

Lemma mixSounds_no_panic fuel played sounds :
  forall mix msg, mixSounds fuel played sounds mix <> Panicked msg.
Proof.
  induction sounds as [|x rest IH]; intros mix msg; simpl; [discriminate|].
  destruct (queued x); intros H.
  - apply obind_Panicked in H as [H|(r & _ & H)]; [now apply IH in H | discriminate].
  - apply obind_Panicked in H as [H|(p & _ & H)]; [now apply advancePos_no_panic in H|].
    apply obind_Panicked in H as [H|(mix' & _ & H)]; [now apply renderWindow_no_panic in H|].
    apply obind_Panicked in H as [H|(r & _ & H)]; [now apply IH in H | discriminate].
Qed.

(** Inside the ring buffer the distance [writeSampleDist] computes is the
    distance from [a] forward to [b], modulo the buffer size. *)
Lemma writeSampleDist_circular (s : soundSystem) (a b : Z) :
  mixBufferSize s <= maxInt ->
  0 <= a < mixBufferSize s -> 0 <= b < mixBufferSize s ->
  writeSampleDist s a b =
    if negb ((b - a) mod mixBufferSize s mod 4 =? 0) then
      Panicked "why does the sound card play partial samples?"
    else Returned ((b - a) mod mixBufferSize s / 4).
Proof.
  unfold maxInt. intros Hsize Ha Hb. unfold writeSampleDist.
  rewrite (int_id (b - a)) by (unfold inInt, minInt, maxInt; lia).
  pose proof (Z.mod_pos_bound (b - a) (mixBufferSize s) ltac:(lia)) as Hd.
  destruct (Z.ltb_spec (b - a) 0) as [Hneg|Hpos].
  - rewrite (int_id (mixBufferSize s - a)) by (unfold inInt, minInt, maxInt; lia).
    rewrite int_id by (unfold inInt, minInt, maxInt; lia).
    replace ((b - a) mod mixBufferSize s) with (mixBufferSize s - a + b).
    2:{ apply Z.mod_unique with (q := -1); lia. }
    rewrite Z.rem_mod_nonneg, Z.quot_div_nonneg by lia. reflexivity.
  - rewrite (Z.mod_small (b - a)) by lia.
    rewrite Z.rem_mod_nonneg, Z.quot_div_nonneg by lia. reflexivity.
Qed.

(** C8. With the ring buffer locked and the cursor read, a circular byte
    distance from [lastWritePos] to the cursor that is not a multiple of the
    4-byte frame makes [update] panic (nothing is mixed, nothing returned);
    when it is a multiple of 4, [update] does not panic and the number of
    played samples is the distance divided by 4. *)
Theorem partial_frame_distance_aborts
    (fuel : nat) (ds : dsAnswers) (s : soundSystem) (write : Z) :
  lockAnswer ds = None ->
  positionAnswer ds = inr write ->
  mixBufferSize s <= maxInt ->
  0 <= lastWritePos s < mixBufferSize s ->
  0 <= write < mixBufferSize s ->
  let distance := (write - lastWritePos s) mod mixBufferSize s in
  (distance mod 4 <> 0 ->
   update fuel ds s = Panicked "why does the sound card play partial samples?") /\
  (distance mod 4 = 0 ->
   writeSampleDist s (lastWritePos s) (int write) = Returned (distance / 4) /\
   forall msg, update fuel ds s <> Panicked msg).
Proof.
  intros Hlock Hpos Hsize Ha Hb distance.
  assert (Hw : int write = write)
    by (apply int_id; unfold inInt, minInt, maxInt in *; lia).
  pose proof (writeSampleDist_circular s (lastWritePos s) write Hsize Ha Hb) as Hd.
  fold distance in Hd.
  split; intros Hrem.
  - unfold update. rewrite Hlock, Hpos, Hw.
    change (writeSampleDist _ (lastWritePos _) write)
      with (writeSampleDist s (lastWritePos s) write).
    rewrite Hd. destruct (Z.eqb_spec (distance mod 4) 0); [contradiction|]. reflexivity.
  - rewrite Hrem in Hd. simpl in Hd. rewrite Hw. split; [exact Hd|].
    intros msg Hup. unfold update in Hup. rewrite Hlock, Hpos, Hw in Hup.
    change (writeSampleDist _ (lastWritePos _) write)
      with (writeSampleDist s (lastWritePos s) write) in Hup.
    rewrite Hd in Hup. simpl in Hup.
    apply obind_Panicked in Hup as [Hup|(r & _ & Hup)].
    + now apply mixSounds_no_panic in Hup.
    + destruct (unlockAnswer ds); discriminate.
Qed.

(** ** Clip loading *)

Lemma HasSuffix_length4 (path a b : string) :
  String.length a = 4%nat -> String.length b = 4%nat -> a <> b ->
  HasSuffix path a = true -> HasSuffix path b = false.
Proof.
  unfold HasSuffix. intros Ha Hb Hne. rewrite Ha, Hb.
  intros H. apply andb_true_iff in H as [Hlen H]. rewrite Hlen. simpl.
  apply String.eqb_eq in H. rewrite H. now apply String.eqb_neq.
Qed.

Section MixerFacts.

Variable assetFiles_ReadFile : string -> error + list byte.
Variable oggvorbis_ReadAll : list byte -> error + (list F32.t * oggFormat).
Variable mp3_NewDecoder : list byte -> error + mp3Decoder.

Abbreviation LoadRawSamples :=
  (loadRawSamples assetFiles_ReadFile oggvorbis_ReadAll mp3_NewDecoder).
Abbreviation DecodeSoundFile := (decodeSoundFile oggvorbis_ReadAll mp3_NewDecoder).
Abbreviation PlayLoopingAndQueued :=
  (playLoopingAndQueued assetFiles_ReadFile oggvorbis_ReadAll mp3_NewDecoder).
Abbreviation QueueLoopAfter :=
  (queueLoopAfter assetFiles_ReadFile oggvorbis_ReadAll mp3_NewDecoder).

Lemma loadRawSamples_failure (s : soundSystem) (path : string) (err : error) :
  fst (LoadRawSamples s path) = inl err -> LoadRawSamples s path = (inl err, s).
Proof.
  unfold loadRawSamples.
  destruct (loadedSounds s !! path); [discriminate|].
  destruct (assetFiles_ReadFile path); [simpl; congruence|].
  destruct (DecodeSoundFile path l); simpl; congruence.
Qed.

Lemma decode_ogg_mismatch (path : string) (soundFile : list byte)
    (data : list F32.t) (format : oggFormat) :
  HasSuffix path ".ogg" = true ->
  oggvorbis_ReadAll soundFile = inr (data, format) ->
  SampleRate format <> 44100 \/ Channels format <> 2 ->
  exists err, DecodeSoundFile path soundFile = inl err.
Proof.
  intros Hogg Hread Hbad. unfold decodeSoundFile.
  rewrite (HasSuffix_length4 path ".ogg" ".raw") by (done || discriminate).
  rewrite Hogg, Hread.
  destruct (Z.eqb_spec (SampleRate format) 44100) as [Hr|Hr]; simpl; [|eauto].
  destruct (Z.eqb_spec (Channels format) 2) as [Hc|Hc]; simpl; [|eauto].
  destruct Hbad; contradiction.
Qed.

Lemma decode_mp3_mismatch (path : string) (soundFile : list byte) (decoder : mp3Decoder) :
  HasSuffix path ".mp3" = true ->
  mp3_NewDecoder soundFile = inr decoder ->
  mp3SampleRate decoder <> 44100 ->
  exists err, DecodeSoundFile path soundFile = inl err.
Proof.
  intros Hmp3 Hdec Hbad. unfold decodeSoundFile.
  rewrite (HasSuffix_length4 path ".mp3" ".raw") by (done || discriminate).
  rewrite (HasSuffix_length4 path ".mp3" ".ogg") by (done || discriminate).
  rewrite Hmp3, Hdec.
  destruct (Z.eqb_spec (mp3SampleRate decoder) 44100); simpl; [contradiction | eauto].
Qed.

(** C10. A clip whose decoded format is not the mixer's is not loaded and
    not cached: an ogg stream that is not 44100 Hz or not 2 channels, and
    an mp3 stream that is not 44100 Hz (the mp3 decoder has no other
    format to report: it always delivers 2 channels of 16 bits), make
    [LoadRawSamples] return an error, and every load that returns an error
    leaves the system, the clip cache with it, as it was. *)
Theorem format_mismatch_is_not_cached :
  (forall (s : soundSystem) (path : string) (soundFile : list byte)
          (data : list F32.t) (format : oggFormat),
      loadedSounds s !! path = None ->
      assetFiles_ReadFile path = inr soundFile ->
      HasSuffix path ".ogg" = true ->
      oggvorbis_ReadAll soundFile = inr (data, format) ->
      SampleRate format <> 44100 \/ Channels format <> 2 ->
      exists err, LoadRawSamples s path = (inl err, s)) /\
  (forall (s : soundSystem) (path : string) (soundFile : list byte)
          (decoder : mp3Decoder),
      loadedSounds s !! path = None ->
      assetFiles_ReadFile path = inr soundFile ->
      HasSuffix path ".mp3" = true ->
      mp3_NewDecoder soundFile = inr decoder ->
      mp3SampleRate decoder <> 44100 ->
      exists err, LoadRawSamples s path = (inl err, s)) /\
  (forall (s : soundSystem) (path : string) (err : error),
      fst (LoadRawSamples s path) = inl err ->
      loadedSounds (snd (LoadRawSamples s path)) = loadedSounds s).
Proof.
  split; [|split].
  - intros s path soundFile data format Hcache Hfile Hogg Hread Hbad.
    destruct (decode_ogg_mismatch path soundFile data format Hogg Hread Hbad) as [err Herr].
    exists err. unfold loadRawSamples. now rewrite Hcache, Hfile, Herr.
  - intros s path soundFile decoder Hcache Hfile Hmp3 Hdec Hbad.
    destruct (decode_mp3_mismatch path soundFile decoder Hmp3 Hdec Hbad) as [err Herr].
    exists err. unfold loadRawSamples. now rewrite Hcache, Hfile, Herr.
  - intros s path err H. now rewrite (loadRawSamples_failure s path err H).
Qed.

(** C4. When the clip cannot be loaded, [QueueLoopAfter] returns the
    invalid handle 0 with a nil error and leaves the system as it was (no
    sound is added to [playingSounds], no link to [queue]); and it never
    returns a non-nil error. *)
Theorem queueLoopAfter_hides_load_error
    (s : soundSystem) (atEndOf : soundHandle) (path : string) :
  (forall err : error,
      fst (LoadRawSamples s path) = inl err ->
      QueueLoopAfter s atEndOf path = Returned ((invalidSoundHandle, None), s)) /\
  (forall (h : soundHandle) (err : error) (s' : soundSystem),
      QueueLoopAfter s atEndOf path <> Returned ((h, Some err), s')).
Proof.
  split.
  - intros err H. apply loadRawSamples_failure in H.
    unfold queueLoopAfter, playLoopingAndQueued.
    now rewrite H.
  - intros h err s' H. unfold queueLoopAfter in H.
    apply obind_Returned in H as ([[h0 e0] s0] & _ & H).
    destruct e0; discriminate.
Qed.

(** *** Handles *)

Abbreviation ApiStep := (apiStep assetFiles_ReadFile oggvorbis_ReadAll mp3_NewDecoder).
Abbreviation IssuedHandles :=
  (issuedHandles assetFiles_ReadFile oggvorbis_ReadAll mp3_NewDecoder).
Abbreviation ClipLoads := (clipLoads assetFiles_ReadFile oggvorbis_ReadAll mp3_NewDecoder).

Lemma loadRawSamples_nextHandle (s : soundSystem) (path : string) :
  nextHandle (snd (LoadRawSamples s path)) = nextHandle s.
Proof.
  unfold loadRawSamples.
  destruct (loadedSounds s !! path); [reflexivity|].
  destruct (assetFiles_ReadFile path); [reflexivity|].
  destruct (DecodeSoundFile path l); reflexivity.
Qed.

(** A call of [playLoopingAndQueued] that returns either reports the load
    error and leaves the system alone, or hands out [nextHandle] and
    increments it. *)
Lemma playLoopingAndQueued_returns (s s' : soundSystem) (path : string)
    (looping queued : bool) (h : soundHandle) (e : option error) :
  PlayLoopingAndQueued s path looping queued = Returned ((h, e), s') ->
  (ClipLoads s path = false /\ h = invalidSoundHandle /\ is_Some e /\ s' = s) \/
  (ClipLoads s path = true /\ h = nextHandle s /\ e = None /\
   nextHandle s' = int (nextHandle s + 1)).
Proof.
  unfold playLoopingAndQueued, clipLoads.
  pose proof (loadRawSamples_nextHandle s path) as Hnext.
  destruct (LoadRawSamples s path) as [[err|raw] s1] eqn:Hload; simpl in *.
  - intros H. inversion H; subst. left.
    apply (f_equal fst) in Hload as Hfst. simpl in Hfst.
    apply loadRawSamples_failure in Hfst. rewrite Hload in Hfst.
    inversion Hfst; subst. eauto.
  - destruct raw as [|b raw]; [discriminate|].
    intros H. inversion H; subst. right. simpl. rewrite Hnext. auto.
Qed.

Lemma update_nextHandle (fuel : nat) (ds : dsAnswers) (s s' : soundSystem)
    (e : option error) :
  update fuel ds s = Returned (e, s') -> nextHandle s' = nextHandle s.
Proof.
  unfold update. destruct (lockAnswer ds).
  { intros H. inversion H; subst. reflexivity. }
  destruct (positionAnswer ds).
  { intros H. inversion H; subst. reflexivity. }
  intros H. apply obind_Returned in H as (played & _ & H).
  apply obind_Returned in H as (r & _ & H).
  destruct (unlockAnswer ds); inversion H; subst; reflexivity.
Qed.

Lemma apiStep_handles (s s' : soundSystem) (c : apiCall) (hs : list soundHandle) :
  ApiStep s c = Returned (hs, s') ->
  (hs = [] /\ nextHandle s' = nextHandle s) \/
  (hs = [nextHandle s] /\ nextHandle s' = int (nextHandle s + 1)).
Proof.
  destruct c as [path|path|atEndOf path|h|h v|path|fuel ds]; simpl; intros H.
  - apply obind_Returned in H as ([[h e] s1] & Hplay & H).
    apply playLoopingAndQueued_returns in Hplay as [(Hl & -> & _ & ->)|(Hl & -> & _ & Hn)];
      rewrite Hl in H; inversion H; subst; auto.
  - apply obind_Returned in H as ([[h e] s1] & Hplay & H).
    apply playLoopingAndQueued_returns in Hplay as [(Hl & -> & _ & ->)|(Hl & -> & _ & Hn)];
      rewrite Hl in H; inversion H; subst; auto.
  - apply obind_Returned in H as ([[h e] s1] & Hq & H).
    unfold queueLoopAfter in Hq.
    apply obind_Returned in Hq as ([[h0 e0] s0] & Hplay & Hq).
    apply playLoopingAndQueued_returns in Hplay as [(Hl & -> & [err ->] & ->)|(Hl & -> & -> & Hn)];
      rewrite Hl in H; inversion Hq; subst; inversion H; subst; auto.
  - inversion H; subst. left. split; [reflexivity|].
    unfold stop. destruct (removeFirst h (playingSounds s)); reflexivity.
  - inversion H; subst. left. split; [reflexivity|].
    unfold setSpeed. destruct (setSpeedFirst h v (playingSounds s)); reflexivity.
  - inversion H; subst. left. split; [reflexivity|].
    unfold preload. pose proof (loadRawSamples_nextHandle s path) as Hn.
    destruct (LoadRawSamples s path) as [[err|raw] s1]; exact Hn.
  - apply obind_Returned in H as ([e s1] & Hup & H). inversion H; subst.
    left. split; [reflexivity|]. simpl. eapply update_nextHandle; eauto.
Qed.

Lemma issuedHandles_increase (calls : list apiCall) :
  forall s : soundSystem,
    1 <= nextHandle s ->
    nextHandle s + len calls <= maxInt ->
    Forall (fun h => nextHandle s <= h) (IssuedHandles s calls) /\
    StronglySorted Z.lt (IssuedHandles s calls).
Proof.
  unfold len, maxInt.
  induction calls as [|c rest IH]; intros s Hpos Hroom; simpl.
  { split; constructor. }
  destruct (ApiStep s c) as [[hs s']| |] eqn:Hstep; try (split; constructor).
  simpl length in Hroom.
  apply apiStep_handles in Hstep as [[-> Hn]|[-> Hn]]; simpl.
  - rewrite <- Hn. apply IH; lia.
  - rewrite int_id in Hn by (unfold inInt, minInt, maxInt; lia).
    destruct (IH s') as [Hge Hsorted]; [lia..|].
    rewrite Hn in Hge. split.
    + constructor; [lia|]. eapply Forall_impl; [exact Hge|]. simpl; intros; lia.
    + constructor; [exact Hsorted|].
      eapply Forall_impl; [exact Hge|]. simpl; intros; lia.
Qed.

(** X30. From a started mixer on, along any run of fewer than [maxInt] calls,
    the handle that [play], [loop] or [queueLoopAfter] returns for a clip
    that loads is strictly greater than every handle returned before it
    for such a clip, and is not the invalid handle 0. *)
Theorem handles_strictly_increase
    (a : dsInitAnswers) (s0 : soundSystem) (calls : list apiCall) :
  initSoundSystem a = inr s0 ->
  len calls < maxInt ->
  StronglySorted Z.lt (IssuedHandles s0 calls) /\
  Forall (fun h => h <> invalidSoundHandle) (IssuedHandles s0 calls).
Proof.
  intros Hinit Hlen.
  assert (Hnext : nextHandle s0 = 1).
  { unfold initSoundSystem in Hinit.
    repeat match type of Hinit with
           | match ?x with _ => _ end = _ => destruct x; try discriminate
           end.
    inversion Hinit; subst. reflexivity. }
  destruct (issuedHandles_increase calls s0) as [Hge Hsorted]; [lia..|].
  split; [exact Hsorted|].
  eapply Forall_impl; [exact Hge|]. unfold invalidSoundHandle. simpl. intros h Hh. lia.
Qed.

End MixerFacts.

(** C3 (the code departs from it). With no clip to load,
    [queueLoopAfter] returns the reserved handle 0, and returns it with a
    nil error: it drops the error that [playLoopingAndQueued] handed it,
    the error that [play] returns for the same clip. *)
Theorem queueLoopAfter_returns_invalid_handle :
  queueLoopAfter noAssets noOgg noMp3 startedSystem 1 "assets/music_loop.ogg"
    = Returned ((0, None), startedSystem) /\
  play noAssets noOgg noMp3 startedSystem "assets/music_loop.ogg"
    = Returned ((0, Some "open: file does not exist"), startedSystem).
Proof. split; vm_compute; reflexivity. Qed.

Lemma handles_strictly_increase_witness :
  StronglySorted Z.lt (issuedHandles someAssets noOgg noMp3 startedSystem exampleCalls) /\
  Forall (fun h => h <> invalidSoundHandle)
    (issuedHandles someAssets noOgg noMp3 startedSystem exampleCalls).
Proof.
  apply (handles_strictly_increase someAssets noOgg noMp3 dsInitOk startedSystem exampleCalls);
    [reflexivity | vm_compute; reflexivity].
Defined.

Lemma exampleCalls_handles :
  issuedHandles someAssets noOgg noMp3 startedSystem exampleCalls = [1; 2; 3].
Proof. vm_compute. reflexivity. Qed.

Lemma queueLoopAfter_hides_load_error_witness :
  queueLoopAfter noAssets noOgg noMp3 startedSystem 7 "assets/step.ogg"
    = Returned ((invalidSoundHandle, None), startedSystem).
Proof.
  apply (proj1 (queueLoopAfter_hides_load_error noAssets noOgg noMp3
                  startedSystem 7 "assets/step.ogg") "open: file does not exist").
  reflexivity.
Defined.

Lemma format_mismatch_is_not_cached_witness :
  exists err,
    loadRawSamples someAssets ogg48000 mp348000 startedSystem "assets/music.ogg"
      = (inl err, startedSystem).
Proof.
  apply (proj1 (format_mismatch_is_not_cached someAssets ogg48000 mp348000)
           startedSystem "assets/music.ogg" [x4f; x67; x67; x53] [] (OggFormat 48000 2));
    [reflexivity | reflexivity | reflexivity | reflexivity | left; discriminate].
Defined.

Lemma partial_frame_distance_aborts_witness :
  update 0 (dsGrants 6) startedSystem
    = Panicked "why does the sound card play partial samples?".
Proof.
  apply (proj1 (partial_frame_distance_aborts 0 (dsGrants 6) startedSystem 6
                  eq_refl eq_refl ltac:(vm_compute; discriminate)
                  ltac:(vm_compute; split; [discriminate | reflexivity])
                  ltac:(vm_compute; split; [discriminate | reflexivity]))).
  vm_compute. discriminate.
Defined.

Lemma clip_to_output_range_witness : clipChannel 1234 = 1234.
Proof. apply (proj1 (proj2 (proj2 (proj2 (proj2 (proj2 clip_to_output_range)))))). lia. Defined.

(** ** The region lock *)

Lemma lockHeldFrom_app (calls calls' : list dsCall) :
  forall held, lockHeldFrom held (calls ++ calls') = lockHeldFrom (lockHeldFrom held calls) calls'.
Proof.
  induction calls as [|c calls IH]; intros held; simpl; [reflexivity|].
  destruct c; apply IH.
Qed.

(** C2 (the code departs from it). When [Lock] is granted and
    [GetCurrentPosition] then fails, [update] returns that error and has
    made no [Unlock] call: the region is still locked. *)
Theorem cursor_error_leaves_region_locked
    (fuel : nat) (s : soundSystem) (err : error) (unlock : option error) :
  exists s',
    update fuel (DsAnswers None (inl err) unlock) s = Returned (Some err, s') /\
    lockHeld s' = true.
Proof.
  eexists. split; [reflexivity|].
  unfold lockHeld, logCall. simpl. rewrite !lockHeldFrom_app. simpl.
  apply orb_true_r.
Qed.

(** On the other paths on which [update] returns after a granted [Lock],
    [Unlock] has been called. *)
Lemma update_unlocks_after_cursor_read
    (fuel : nat) (ds : dsAnswers) (s s' : soundSystem) (write : Z) (e : option error) :
  lockAnswer ds = None ->
  positionAnswer ds = inr write ->
  update fuel ds s = Returned (e, s') ->
  lockHeld s' = false.
Proof.
  intros Hlock Hpos Hup. unfold update in Hup. rewrite Hlock, Hpos in Hup.
  apply obind_Returned in Hup as (played & _ & Hup).
  apply obind_Returned in Hup as (r & _ & Hup).
  destruct (unlockAnswer ds); inversion Hup; subst;
    unfold lockHeld, logCall; simpl; rewrite !lockHeldFrom_app; reflexivity.
Qed.

(** ** The chain list *)

Lemma forRange_invariant {S : Type} (P : S -> Prop) (body : nat -> S -> S) :
  (forall i s, P s -> P (body i s)) ->
  forall n i s, P s -> P (forRange n i body s).
Proof.
  intros Hbody. induction n as [|n IH]; intros i s Hs; simpl; auto.
Qed.

Lemma chainStep_lengths (i k : nat) (st : chainState) :
  length (st.1.1) = length ((chainStep i k st).1.1) /\
  length (st.1.2) = length ((chainStep i k st).1.2).
Proof.
  destruct st as [[sounds links] queueN]. unfold chainStep.
  destruct (links !! k) as [q|]; [|auto].
  destruct (sounds !! i) as [over|]; [|auto].
  destruct (q.1 =? handle over).
  - destruct (soundFromHandle sounds q.2); simpl; [|auto].
    now rewrite length_alter.
  - simpl. now rewrite length_insert.
Qed.

Lemma reclaimStep_lengths (i : nat) (st : chainState) :
  length (st.1.1) = length ((reclaimStep i st).1.1) /\
  length (st.1.2) = length ((reclaimStep i st).1.2).
Proof.
  destruct st as [[sounds links] n]. unfold reclaimStep.
  destruct (sounds !! i) as [x|]; [|auto].
  destruct (isOver x); simpl; [|now rewrite length_insert].
  pose proof (forRange_invariant
    (fun st' : chainState =>
       length sounds = length st'.1.1 /\ length links = length st'.1.2)
    (chainStep i)) as Hinv.
  specialize (Hinv ltac:(intros k st' [H1 H2];
                          destruct (chainStep_lengths i k st'); split; congruence)).
  specialize (Hinv (length links) O (sounds, links, O) (conj eq_refl eq_refl)).
  destruct (forRange (length links) 0 (chainStep i) (sounds, links, O)) as [[sounds' links'] m].
  exact Hinv.
Qed.

(** The reclamation pass never shortens the chain list: the inner loop
    compacts the links it keeps to the front and leaves the length alone. *)
Lemma reclaim_keeps_queue_length (sounds : list soundState) (links : list consecutiveSounds) :
  length (reclaim sounds links).2 = length links.
Proof.
  unfold reclaim.
  pose proof (forRange_invariant
    (fun st' : chainState => length links = length st'.1.2) reclaimStep) as Hinv.
  specialize (Hinv ltac:(intros k st' H; destruct (reclaimStep_lengths k st'); congruence)).
  specialize (Hinv (length sounds) O (sounds, links, O) eq_refl).
  destruct (forRange (length sounds) 0 reclaimStep (sounds, links, O)) as [[sounds' links'] m].
  simpl in *. congruence.
Qed.

(** C1 (the code departs from it). After [play], [queueLoopAfter] on the
    handle it returned and the frame on which the first sound is over, the
    first sound is gone and the queued one has [queued = false], but the
    link that fired is still in the chain list. *)
Theorem consumed_link_stays_in_queue :
  exists s : soundSystem,
    chainScenario = Returned s /\
    map handle (playingSounds s) = [2] /\
    map queued (playingSounds s) = [false] /\
    queue s = [(1, 2)].
Proof. eexists. split; [vm_compute; reflexivity|]. repeat split. Qed.

(** Links behind a consumed one are copied forward and stay where they
    were as well. *)
Lemma reclaim_duplicates_links :
  let over := SoundState 1 clip10 9 1 1 false false in
  let follower := SoundState 2 clip10 0 0 1 true true in
  reclaim [over; follower] [(1, 2); (3, 4)]
    = ([set_queued false follower], [(3, 4); (3, 4)]).
Proof. vm_compute. reflexivity. Qed.


(** ** Reclamation keeps exactly the sounds that are not over *)

Lemma forRange_ind {S : Type} (P : nat -> S -> Prop) (body : nat -> S -> S) :
  forall n i s,
    (forall j t, (i <= j < i + n)%nat -> P j t -> P (Datatypes.S j) (body j t)) ->
    P i s -> P (i + n)%nat (forRange n i body s).
Proof.
  induction n as [|n IH]; intros i s Hstep Hs; simpl.
  - now rewrite Nat.add_0_r.
  - replace (i + Datatypes.S n)%nat with (Datatypes.S i + n)%nat by lia.
    apply IH.
    + intros j t Hj. apply Hstep. lia.
    + apply Hstep; [lia | exact Hs].
Qed.

Lemma unqueued_refl (x : soundState) : unqueued x x.
Proof. now left. Qed.

Lemma unqueued_trans (x y z : soundState) : unqueued x y -> unqueued y z -> unqueued x z.
Proof. intros [->| ->] [->| ->]; unfold unqueued; auto. Qed.

Lemma unqueued_isOver (x y : soundState) : unqueued x y -> isOver y = isOver x.
Proof. intros [->| ->]; reflexivity. Qed.

Lemma unqueued_handle (x y : soundState) : unqueued x y -> handle y = handle x.
Proof. intros [->| ->]; reflexivity. Qed.

Lemma Forall2_unqueued_alter (j : nat) (xs ys : list soundState) :
  Forall2 unqueued xs ys -> Forall2 unqueued xs (alter (set_queued false) j ys).
Proof.
  intros H. revert j. induction H as [|x y xs ys Hxy H IH]; intros j; [constructor|].
  destruct j as [|j]; simpl; constructor; auto.
  - eapply unqueued_trans; [exact Hxy | now right].
  - apply IH.
Qed.

Lemma Forall2_unqueued_refl (xs : list soundState) : Forall2 unqueued xs xs.
Proof. induction xs; constructor; auto using unqueued_refl. Qed.

Lemma Forall2_unqueued_trans (xs ys zs : list soundState) :
  Forall2 unqueued xs ys -> Forall2 unqueued ys zs -> Forall2 unqueued xs zs.
Proof. apply Forall2_trans. apply unqueued_trans. Qed.

Lemma chainStep_unqueued (i k : nat) (xs : list soundState) (st : chainState) :
  Forall2 unqueued xs st.1.1 -> Forall2 unqueued xs (chainStep i k st).1.1.
Proof.
  destruct st as [[sounds links] queueN]. unfold chainStep. simpl. intros H.
  destruct (links !! k) as [q|]; [|exact H].
  destruct (sounds !! i) as [over|]; [|exact H].
  destruct (q.1 =? handle over); [|exact H].
  destruct (soundFromHandle sounds q.2); simpl; [|exact H].
  now apply Forall2_unqueued_alter.
Qed.

Lemma chainScan_unqueued (i : nat) (xs sounds : list soundState)
    (links : list consecutiveSounds) :
  Forall2 unqueued xs sounds ->
  Forall2 unqueued xs (forRange (length links) 0 (chainStep i) (sounds, links, O)).1.1.
Proof.
  intros H.
  apply (forRange_invariant (fun st : chainState => Forall2 unqueued xs st.1.1)); [|exact H].
  intros k st. apply chainStep_unqueued.
Qed.

Lemma reclaimStep_inv (sounds0 : list soundState) (i : nat) (st : chainState) :
  (i < length sounds0)%nat ->
  reclaimInv sounds0 i st -> reclaimInv sounds0 (Datatypes.S i) (reclaimStep i st).
Proof.
  destruct st as [[sounds links] n]. unfold reclaimInv. simpl.
  intros Hi (Hn & Hkept & Hrest).
  destruct (lookup_lt_is_Some_2 sounds0 i Hi) as [x0 Hx0].
  assert (Hdrop0 : drop i sounds0 = x0 :: drop (Datatypes.S i) sounds0)
    by now apply drop_S.
  rewrite Hdrop0 in Hrest.
  apply Forall2_cons_inv_l in Hrest as (x & rest & Hx & Hrest & Hdrop).
  assert (Hxi : sounds !! i = Some x).
  { rewrite <- (Nat.add_0_r i), <- lookup_drop, Hdrop. reflexivity. }
  assert (Hdrop' : drop (Datatypes.S i) sounds = rest).
  { rewrite (drop_S _ _ _ Hxi) in Hdrop. congruence. }
  rewrite (take_S_r _ _ _ Hx0), List.filter_app. simpl.
  unfold reclaimStep. rewrite Hxi.
  unfold notOver at 2. rewrite <- (unqueued_isOver x0 x Hx).
  destruct (isOver x); simpl.
  - rewrite app_nil_r.
    pose proof (chainScan_unqueued i sounds sounds links
                  (Forall2_unqueued_refl sounds)) as Hscan.
    destruct (forRange (length links) 0 (chainStep i) (sounds, links, O))
      as [[sounds' links'] m]. simpl in *.
    split; [lia|]. split.
    + eapply Forall2_unqueued_trans; [exact Hkept|apply Forall2_take; exact Hscan].
    + subst rest. eapply Forall2_unqueued_trans; [exact Hrest|apply Forall2_drop; exact Hscan].
  - assert (Hlen : (n < length sounds)%nat).
    { apply lookup_lt_Some in Hxi. lia. }
    split; [lia|]. split.
    + rewrite (take_S_r (<[n:=x]> sounds) n x)
        by (apply list_lookup_insert_eq; exact Hlen).
      rewrite take_insert_ge by lia.
      apply Forall2_app; [exact Hkept|]. constructor; [exact Hx|constructor].
    + rewrite drop_insert_lt by lia. now rewrite Hdrop'.
Qed.

(** After the pass, [playingSounds] holds the sounds that were not over,
    in their order, each as it was or with [queued] cleared. *)
Lemma reclaim_keeps_notOver (sounds : list soundState) (links : list consecutiveSounds) :
  Forall2 unqueued (List.filter notOver sounds) (reclaim sounds links).1.
Proof.
  unfold reclaim.
  pose proof (forRange_ind (reclaimInv sounds) reclaimStep (length sounds) O
                (sounds, links, O)) as Hloop.
  simpl in Hloop.
  destruct (forRange (length sounds) 0 reclaimStep (sounds, links, O))
    as [[sounds' links'] n].
  destruct Hloop as (_ & Hkept & _).
  - intros j t Hj. apply reclaimStep_inv. lia.
  - unfold reclaimInv. simpl. split; [lia|]. split; [constructor|].
    rewrite !drop_0. apply Forall2_unqueued_refl.
  - simpl in *. now rewrite firstn_all in Hkept.
Qed.


(** ** Advance and render *)

Lemma renderWindow_slots (fuel : nat) (x : soundState) (mix : list mixSample) :
  forall (i : Z) (mix' : list mixSample),
    renderWindow fuel x i mix = Returned mix' ->
    length mix' = length mix /\
    forall (k : nat) (m : mixSample),
      mix !! k = Some m ->
      exists p, slotPos fuel x (i + Z.of_nat k) = Returned p /\
                mix' !! k = Some (mixSlot x p m).
Proof.
  induction mix as [|m0 rest IH]; intros i mix' H; simpl in H.
  - inversion H; subst. split; [reflexivity|]. intros k m Hk. discriminate.
  - apply obind_Returned in H as (p & Hp & H).
    apply obind_Returned in H as (rest' & Hrest & H). inversion H; subst.
    destruct (IH _ _ Hrest) as [Hlen Hslots]. split; [simpl; congruence|].
    intros [|k] m Hk; simpl in Hk.
    + inversion Hk; subst. exists p. rewrite Z.add_0_r. auto.
    + destruct (Hslots k m Hk) as (p' & Hp' & Hm). exists p'.
      replace (i + Z.of_nat (Datatypes.S k)) with (i + 1 + Z.of_nat k) by lia. auto.
Qed.

Lemma mixSounds_advance_render (fuel : nat) (playedSamples : Z) (sounds : list soundState) :
  forall (mix : list mixSample) (sounds' : list soundState) (mix' : list mixSample),
    mixSounds fuel playedSamples sounds mix = Returned (sounds', mix') ->
    Forall2 (advancedBy fuel playedSamples) sounds sounds' /\
    length mix' = length mix /\
    forall (k : nat) (m : mixSample),
      mix !! k = Some m ->
      exists m', mix' !! k = Some m' /\ mixedSlot fuel sounds' (Z.of_nat k) m = Returned m'.
Proof.
  induction sounds as [|x rest IH]; intros mix sounds' mix' H; simpl in H.
  - inversion H; subst. repeat split; [constructor|]. eauto.
  - destruct (queued x) eqn:Hq.
    + apply obind_Returned in H as ([rest' mix1] & Hrest & H). inversion H; subst.
      destruct (IH _ _ _ Hrest) as (Hadv & Hlen & Hslots). simpl.
      repeat split; [|exact Hlen|].
      * constructor; [|exact Hadv]. unfold advancedBy. now rewrite Hq.
      * intros k m Hk. rewrite Hq. auto.
    + apply obind_Returned in H as (p & Hp & H).
      apply obind_Returned in H as (mix1 & Hrender & H).
      apply obind_Returned in H as ([rest' mix2] & Hrest & H). inversion H; subst.
      destruct (renderWindow_slots _ _ _ _ _ Hrender) as [Hlen1 Hslots1].
      destruct (IH _ _ _ Hrest) as (Hadv & Hlen & Hslots). simpl.
      repeat split; [|congruence|].
      * constructor; [|exact Hadv]. unfold advancedBy. rewrite Hq. exists p. split; [|reflexivity].
        exact Hp.
      * intros k m Hk. destruct (Hslots1 k m Hk) as (p' & Hp' & Hm1).
        destruct (Hslots k _ Hm1) as (m' & Hm' & Hmixed). exists m'. split; [exact Hm'|].
        rewrite Hq. rewrite Z.add_0_l in Hp'. unfold slotPos in Hp'. simpl in Hp'.
        rewrite Hp'. exact Hmixed.
Qed.




(** The same frame in numbers: the position moved by 3 x 1, the window
    reads the clip at 3, 5, 7 and 9 (3 + 2 i) and is silent after that, and
    the speed in use is remembered. *)
Lemma speedy_frame_in_numbers :
  playingSounds afterSpeedyFrame =
    [SoundState 1 clip10 3 2 2 false false; SoundState 2 clip10 0 1 1 true true] /\
  take 5 (writeAheadBuffer afterSpeedyFrame) =
    [SoundSample (400, -4); SoundSample (600, -6); SoundSample (800, -8);
     SoundSample (1000, -10); SoundSample (0, 0)].
Proof. split; vm_compute; reflexivity. Qed.


(** ** Binary64 arithmetic

    The facts about [float] that the properties of the mixer rest on,
    proved from the specification of the primitives in [SpecFloat]. *)

(** *** Classes of numbers *)

Lemma prec_value : prec = 53.
Proof. reflexivity. Qed.

Lemma emax_value : emax = 1024.
Proof. reflexivity. Qed.

Lemma fexp_value (e : Z) : fexp prec emax e = Z.max (e - 53) (-1074).
Proof. reflexivity. Qed.

Lemma fexp_mono (e e' : Z) : e <= e' -> fexp prec emax e <= fexp prec emax e'.
Proof. rewrite !fexp_value. lia. Qed.

(** *** Number of digits *)

Lemma digits2_pos_size (p : positive) : digits2_pos p = Pos.size p.
Proof. induction p; simpl; congruence. Qed.

Lemma digits_bounds (p : positive) :
  2 ^ (Zpos (digits2_pos p) - 1) <= Zpos p < 2 ^ Zpos (digits2_pos p).
Proof.
  rewrite digits2_pos_size. split.
  - pose proof (Pos.size_le p) as H.
    apply Pos2Z.pos_le_pos in H. rewrite Pos2Z.inj_pow in H.
    replace (Zpos (Pos.size p)) with (Z.succ (Zpos (Pos.size p) - 1)) in H by lia.
    rewrite Z.pow_succ_r in H by lia. lia.
  - pose proof (Pos.size_gt p) as H.
    apply Pos2Z.pos_lt_pos in H. now rewrite Pos2Z.inj_pow in H.
Qed.

Lemma Zdigits2_nonneg (m : Z) : 0 <= Zdigits2 m.
Proof. destruct m; simpl; lia. Qed.

Lemma Zdigits2_bounds (m : Z) : 0 < m -> 2 ^ (Zdigits2 m - 1) <= m < 2 ^ Zdigits2 m.
Proof. destruct m as [|p|p]; try lia. intros _. apply digits_bounds. Qed.

Lemma Zdigits2_le_pow (m d : Z) : 0 <= d -> 0 <= m < 2 ^ d -> Zdigits2 m <= d.
Proof.
  intros Hd [Hm Hlt]. destruct (Z.eq_dec m 0) as [->|Hne]; [simpl; lia|].
  destruct (Zdigits2_bounds m ltac:(lia)) as [Hlo _].
  destruct (Z.le_gt_cases (Zdigits2 m) d) as [|Hgt]; [assumption|].
  assert (2 ^ d <= 2 ^ (Zdigits2 m - 1)) by (apply Z.pow_le_mono_r; lia). lia.
Qed.

Lemma Zdigits2_ge_pow (m d : Z) : 0 <= d -> 2 ^ d <= m -> d < Zdigits2 m.
Proof.
  intros Hd Hle. assert (0 < m) by (pose proof (Z.pow_pos_nonneg 2 d); lia).
  destruct (Zdigits2_bounds m ltac:(lia)) as [_ Hhi].
  destruct (Z.lt_ge_cases d (Zdigits2 m)) as [|Hge]; [assumption|].
  assert (2 ^ Zdigits2 m <= 2 ^ d)
    by (apply Z.pow_le_mono_r; [lia | exact Hge]). lia.
Qed.

Lemma Zdigits2_mono (m m' : Z) : 0 <= m <= m' -> Zdigits2 m <= Zdigits2 m'.
Proof.
  intros [Hm Hle]. destruct (Z.eq_dec m' 0) as [->|Hne].
  { replace m with 0 by lia. lia. }
  apply Zdigits2_le_pow; [apply Zdigits2_nonneg|].
  destruct (Zdigits2_bounds m' ltac:(lia)). lia.
Qed.

(** *** Shifting right *)

Lemma pow2_xI (k : positive) : 2 ^ Zpos k~1 = 2 * 2 ^ Zpos k * 2 ^ Zpos k.
Proof.
  replace (Zpos k~1) with (1 + Zpos k + Zpos k) by lia.
  rewrite !Z.pow_add_r by lia. reflexivity.
Qed.

Lemma pow2_xO (k : positive) : 2 ^ Zpos k~0 = 2 ^ Zpos k * 2 ^ Zpos k.
Proof.
  replace (Zpos k~0) with (Zpos k + Zpos k) by lia.
  rewrite !Z.pow_add_r by lia. reflexivity.
Qed.

Lemma shr_1_m (mrs : shr_record) : 0 <= shr_m mrs -> shr_m (shr_1 mrs) = shr_m mrs / 2.
Proof.
  destruct mrs as [m r s]. simpl. intros Hm.
  destruct m as [|[p|p|]|p]; try lia; simpl.
  - reflexivity.
  - apply Z.div_unique with (r := 1); lia.
  - apply Z.div_unique with (r := 0); lia.
  - reflexivity.
Qed.

Lemma iter_shr_1_m (k : positive) :
  forall mrs : shr_record,
    0 <= shr_m mrs ->
    0 <= shr_m (SpecFloat.iter_pos shr_1 k mrs) /\
    shr_m (SpecFloat.iter_pos shr_1 k mrs) = shr_m mrs / 2 ^ Zpos k.
Proof.
  assert (Hpow : forall j : positive, 0 < 2 ^ Zpos j)
    by (intros; apply Z.pow_pos_nonneg; lia).
  induction k as [k IH|k IH|]; intros mrs Hm; cbn [SpecFloat.iter_pos].
  - assert (H1 : 0 <= shr_m (shr_1 mrs))
      by (rewrite shr_1_m by exact Hm; apply Z.div_pos; lia).
    destruct (IH _ H1) as [H2 E2]. destruct (IH _ H2) as [H3 E3].
    split; [exact H3|]. rewrite E3, E2, shr_1_m by exact Hm.
    rewrite !Z.div_div by (pose proof (Hpow k); lia).
    rewrite pow2_xI. f_equal. ring.
  - destruct (IH _ Hm) as [H2 E2]. destruct (IH _ H2) as [H3 E3].
    split; [exact H3|]. rewrite E3, E2.
    rewrite !Z.div_div by (pose proof (Hpow k); lia).
    rewrite pow2_xO. f_equal.
  - rewrite shr_1_m by exact Hm. split; [apply Z.div_pos; lia | reflexivity].
Qed.

Lemma shr_m_of_loc (m : Z) (l : location) : shr_m (shr_record_of_loc m l) = m.
Proof. destruct l as [|[]]; reflexivity. Qed.

(** [shr_fexp] moves to the exponent [fexp] asks for when that is larger,
    and divides the mantissa accordingly. *)
Lemma shr_fexp_spec (m e : Z) (l : location) :
  0 <= m ->
  snd (shr_fexp prec emax m e l) = Z.max e (fexp prec emax (Zdigits2 m + e)) /\
  shr_m (fst (shr_fexp prec emax m e l))
    = m / 2 ^ (Z.max e (fexp prec emax (Zdigits2 m + e)) - e).
Proof.
  intros Hm. unfold shr_fexp, shr.
  destruct (fexp prec emax (Zdigits2 m + e) - e) as [|k|k] eqn:Hk; cbn [fst snd].
  - rewrite Z.max_l by lia. rewrite Z.sub_diag, shr_m_of_loc.
    now rewrite Z.pow_0_r, Z.div_1_r.
  - rewrite Z.max_r by lia. split; [lia|].
    destruct (iter_shr_1_m k (shr_record_of_loc m l)) as [_ E];
      [rewrite shr_m_of_loc; exact Hm|].
    rewrite E, shr_m_of_loc. f_equal. f_equal. lia.
  - rewrite Z.max_l by lia. rewrite Z.sub_diag, shr_m_of_loc.
    now rewrite Z.pow_0_r, Z.div_1_r.
Qed.

Lemma round_nearest_even_bounds (m : Z) (l : location) :
  m <= round_nearest_even m l <= m + 1.
Proof.
  destruct l as [|[]]; simpl; try lia. destruct (Z.even m); lia.
Qed.

(** *** Rounding *)

(** What [binary_round_aux] computes from a mantissa that is not
    negative: a first shift to the canonical exponent, a step up by at most
    one, and a second shift in case that step added a digit. *)
Lemma binary_round_aux_cases (sx : bool) (m e : Z) (l : location) :
  0 <= m ->
  exists m2 : Z,
    let e1 := Z.max e (fexp prec emax (Zdigits2 m + e)) in
    let e3 := Z.max e1 (fexp prec emax (Zdigits2 m2 + e1)) in
    m / 2 ^ (e1 - e) <= m2 <= m / 2 ^ (e1 - e) + 1 /\
    binary_round_aux prec emax sx m e l =
      match m2 / 2 ^ (e3 - e1) with
      | Z0 => S754_zero sx
      | Zpos p => if e3 <=? emax - prec then S754_finite sx p e3 else S754_infinity sx
      | Zneg _ => S754_nan
      end.
Proof.
  intros Hm. unfold binary_round_aux.
  destruct (shr_fexp_spec m e l Hm) as [He1 Hm1].
  destruct (shr_fexp prec emax m e l) as [mrs' e'] eqn:E1. cbn [fst snd] in He1, Hm1.
  set (m2 := round_nearest_even (shr_m mrs') (loc_of_shr_record mrs')).
  exists m2.
  pose proof (round_nearest_even_bounds (shr_m mrs') (loc_of_shr_record mrs')) as Hm2.
  fold m2 in Hm2. rewrite Hm1 in Hm2.
  assert (Hm1nn : 0 <= m / 2 ^ (Z.max e (fexp prec emax (Zdigits2 m + e)) - e)).
  { apply Z.div_pos; [exact Hm|]. apply Z.pow_pos_nonneg; lia. }
  destruct (shr_fexp_spec m2 e' loc_Exact ltac:(lia)) as [He3 Hm3].
  destruct (shr_fexp prec emax m2 e' loc_Exact) as [mrs'' e''] eqn:E2.
  cbn [fst snd] in He3, Hm3. subst e'. cbv zeta. split; [exact Hm2|].
  rewrite Hm3, He3. reflexivity.
Qed.

Lemma binary_round_aux_sign (sx : bool) (m e : Z) (l : location) :
  0 <= m -> hasSign sx (binary_round_aux prec emax sx m e l).
Proof.
  intros Hm. destruct (binary_round_aux_cases sx m e l Hm) as (m2 & Hm2 & ->).
  assert (0 <= m / 2 ^ (Z.max e (fexp prec emax (Zdigits2 m + e)) - e)).
  { apply Z.div_pos; [exact Hm|]. apply Z.pow_pos_nonneg; lia. }
  match goal with |- hasSign _ (match ?q with _ => _ end) =>
    assert (Hq : 0 <= q) by (apply Z.div_pos; [lia | apply Z.pow_pos_nonneg; lia]);
    destruct q as [|p|p]
  end; simpl; try lia; auto.
  destruct (_ <=? _); reflexivity.
Qed.

Lemma binary_round_sign (sx : bool) (mx : positive) (ex : Z) :
  hasSign sx (binary_round prec emax sx mx ex).
Proof.
  unfold binary_round. destruct (shl_align mx ex _) as [mz ez].
  apply binary_round_aux_sign. lia.
Qed.

Lemma binary_normalize_notNaN (m e : Z) (szero : bool) :
  notNaN (binary_normalize prec emax m e szero).
Proof.
  unfold notNaN. destruct m as [|p|p]; simpl; [discriminate| |].
  - pose proof (binary_round_sign false p e) as H.
    destruct (binary_round prec emax false p e); simpl in H; congruence.
  - pose proof (binary_round_sign true p e) as H.
    destruct (binary_round prec emax true p e); simpl in H; congruence.
Qed.

Lemma binary_normalize_nonneg (m e : Z) :
  0 <= m -> hasSign false (binary_normalize prec emax m e false).
Proof.
  destruct m as [|p|p]; intros Hm; try lia; simpl; [reflexivity|].
  apply binary_round_sign.
Qed.

(** *** Aligning and canonical numbers *)

Lemma iter_xO_value (m d : positive) : Zpos (Pos.iter xO m d) = Zpos m * 2 ^ Zpos d.
Proof.
  revert m. induction d as [|d IH] using Pos.peano_ind; intros m.
  - simpl. lia.
  - rewrite Pos.iter_succ, Pos2Z.inj_xO, IH, Pos2Z.inj_succ, Z.pow_succ_r by lia. ring.
Qed.

Lemma shl_align_value (m : positive) (e e' : Z) :
  e' <= e -> Zpos (fst (shl_align m e e')) = Zpos m * 2 ^ (e - e').
Proof.
  intros He. unfold shl_align.
  destruct (e' - e) as [|d|d] eqn:Hd; try lia; cbn [fst].
  - replace (e - e') with 0 by lia. lia.
  - rewrite iter_xO_value. f_equal. f_equal. lia.
Qed.

Lemma shl_align_exponent (m : positive) (e e' : Z) :
  snd (shl_align m e e') = Z.min e e'.
Proof.
  unfold shl_align. destruct (e' - e) as [|d|d] eqn:Hd; cbn [snd]; lia.
Qed.

Lemma shl_align_ge (m : positive) (e e' : Z) : e <= e' -> shl_align m e e' = (m, e).
Proof.
  intros He. unfold shl_align. destruct (e' - e) as [|d|d] eqn:Hd; try lia; reflexivity.
Qed.

(** A finite number in canonical form has at most 53 digits, exactly 53
    unless its exponent is the least one. *)
Lemma bounded_canonical (m : positive) (e : Z) :
  bounded prec emax m e = true ->
  -1074 <= e <= 971 /\
  Zpos (digits2_pos m) <= 53 /\
  (-1074 < e -> Zpos (digits2_pos m) = 53).
Proof.
  unfold bounded, canonical_mantissa. intros H.
  apply andb_true_iff in H as [Hc He].
  apply Z.eqb_eq in Hc. apply Z.leb_le in He.
  rewrite fexp_value in Hc. rewrite prec_value, emax_value in He. lia.
Qed.


(** Canonical positive numbers compare as their exponents, then their
    mantissas; aligned to the smaller exponent, as their mantissas. *)
Lemma aligned_lt (m1 m2 : positive) (e1 e2 : Z) :
  bounded prec emax m1 e1 = true ->
  bounded prec emax m2 e2 = true ->
  e1 < e2 \/ (e1 = e2 /\ (m1 < m2)%positive) ->
  Zpos m1 * 2 ^ (e1 - Z.min e1 e2) < Zpos m2 * 2 ^ (e2 - Z.min e1 e2).
Proof.
  intros H1 H2 Hlt.
  destruct (bounded_canonical _ _ H1) as (He1 & Hd1 & _).
  destruct (bounded_canonical _ _ H2) as (He2 & _ & Hn2).
  destruct Hlt as [Hlt|[-> Hlt]].
  - rewrite Z.min_l by lia. rewrite Z.sub_diag, Z.pow_0_r, Z.mul_1_r.
    pose proof (digits_bounds m1) as [_ Hhi1].
    pose proof (digits_bounds m2) as [Hlo2 _].
    rewrite (Hn2 ltac:(lia)) in Hlo2.
    assert (Zpos m1 < 2 ^ 53).
    { eapply Z.lt_le_trans; [exact Hhi1|]. apply Z.pow_le_mono_r; lia. }
    assert (2 ^ 1 <= 2 ^ (e2 - e1)) by (apply Z.pow_le_mono_r; lia).
    change (2 ^ 53) with (2 ^ 52 * 2 ^ 1) in *. change (53 - 1) with 52 in *. nia.
  - rewrite Z.min_id, Z.sub_diag, Z.pow_0_r. lia.
Qed.

(** *** Order *)

Lemma SFcompare_antisym (a b : spec_float) :
  SFcompare b a = option_map CompOpp (SFcompare a b).
Proof.
  destruct a as [sa|sa| |sa ma ea], b as [sb|sb| |sb mb eb]; simpl;
    try reflexivity;
    try (destruct sa; reflexivity); try (destruct sb; reflexivity);
    try (destruct sa, sb; reflexivity).
  destruct sa, sb; simpl; try reflexivity;
    rewrite (Z.compare_antisym ea eb); destruct (ea ?= eb); simpl; try reflexivity;
    rewrite (Pos.compare_cont_antisym ma mb Eq); simpl;
    try rewrite CompOpp_involutive; reflexivity.
Qed.

Lemma SFltb_not_leb (a b : spec_float) : SFltb a b = true -> SFleb b a = false.
Proof.
  unfold SFltb, SFleb. rewrite (SFcompare_antisym a b).
  destruct (SFcompare a b) as [[]|]; simpl; congruence.
Qed.

Lemma SFleb_or_ltb (a b : spec_float) :
  notNaN a -> notNaN b -> SFleb a b = true \/ SFltb b a = true.
Proof.
  unfold SFltb, SFleb, notNaN. intros Ha Hb. rewrite (SFcompare_antisym a b).
  destruct (SFcompare a b) as [[]|] eqn:E; simpl; auto.
  destruct a, b; simpl in E; try discriminate; congruence.
Qed.

Lemma zeroOrSign_leb (v : spec_float) : zeroOrSign false v <-> SFleb SFzero v = true.
Proof.
  unfold SFleb, SFzero. destruct v as [s|s| |s m e]; simpl; try tauto.
  - destruct s; simpl; split; congruence.
  - split; [intros []|discriminate].
  - destruct s; simpl; split; congruence.
Qed.

Lemma not_ltb_zero (v : spec_float) : SFltb v SFzero = false <-> v = S754_nan \/ zeroOrSign false v.
Proof.
  unfold SFltb, SFzero. destruct v as [s|s| |s m e]; simpl.
  - tauto.
  - destruct s; simpl; split; try tauto; try congruence.
    intros [H|H]; congruence.
  - tauto.
  - destruct s; simpl; split; try tauto; try congruence.
    intros [H|H]; congruence.
Qed.

Lemma hasSign_zeroOrSign (s : bool) (v : spec_float) : hasSign s v -> zeroOrSign s v.
Proof. destruct v; simpl; auto. Qed.

(** *** Subtraction of a smaller number *)

Lemma binary_normalize_pos (m e : Z) :
  0 < m -> zeroOrSign false (binary_normalize prec emax m e false).
Proof.
  intros Hm. apply hasSign_zeroOrSign. apply binary_normalize_nonneg. lia.
Qed.

Lemma lex_lt_false (m1 m2 : positive) (e1 e2 : Z) :
  match e1 ?= e2 with
  | Eq => Pos.compare_cont Eq m1 m2
  | Lt => Lt
  | Gt => Gt
  end = Lt ->
  e1 < e2 \/ (e1 = e2 /\ (m1 < m2)%positive).
Proof.
  destruct (Z.compare_spec e1 e2) as [->|H|H]; intros E.
  - right. split; [reflexivity|]. exact E.
  - now left.
  - discriminate.
Qed.

Lemma lex_lt_true (m1 m2 : positive) (e1 e2 : Z) :
  match e1 ?= e2 with
  | Eq => CompOpp (Pos.compare_cont Eq m1 m2)
  | Lt => Gt
  | Gt => Lt
  end = Lt ->
  e2 < e1 \/ (e2 = e1 /\ (m2 < m1)%positive).
Proof.
  destruct (Z.compare_spec e1 e2) as [->|H|H]; intros E.
  - right. split; [reflexivity|].
    change (Pos.compare_cont Eq m1 m2) with (m1 ?= m2)%positive in E.
    rewrite <- Pos.compare_antisym in E. exact E.
  - discriminate.
  - now left.
Qed.

(** The difference of a number and a smaller one is a number, and is not
    below zero. *)
Lemma SFsub_of_smaller (x n : spec_float) :
  valid_binary x = true -> valid_binary n = true ->
  SFltb n x = true -> zeroOrSign false (SF64sub x n).
Proof.
  unfold SFltb, SF64sub. intros Vx Vn Hlt.
  destruct x as [sx|sx| |sx mx ex], n as [sn|sn| |sn mn en];
    try destruct sx; try destruct sn; simpl in Hlt; try discriminate Hlt;
    try (simpl; first [exact I | reflexivity]);
    simpl in Vx, Vn; cbn [SFsub]; apply binary_normalize_pos;
    rewrite !shl_align_value by lia;
    assert (Hx : 0 < Zpos mx * 2 ^ (ex - Z.min ex en))
      by (apply Z.mul_pos_pos; [lia | apply Z.pow_pos_nonneg; lia]);
    assert (Hn : 0 < Zpos mn * 2 ^ (en - Z.min ex en))
      by (apply Z.mul_pos_pos; [lia | apply Z.pow_pos_nonneg; lia]);
    cbn [cond_Zopp].
  - assert (Hlex : match en ?= ex with
                   | Eq => CompOpp (Pos.compare_cont Eq mn mx)
                   | Lt => Gt
                   | Gt => Lt
                   end = Lt)
      by (destruct (en ?= ex), (Pos.compare_cont Eq mn mx); simpl in *; congruence).
    apply lex_lt_true in Hlex.
    pose proof (aligned_lt mx mn ex en Vx Vn Hlex). lia.
  - lia.
  - assert (Hlex : match en ?= ex with
                   | Eq => Pos.compare_cont Eq mn mx
                   | Lt => Lt
                   | Gt => Gt
                   end = Lt)
      by (destruct (en ?= ex), (Pos.compare_cont Eq mn mx); simpl in *; congruence).
    apply lex_lt_false in Hlex.
    pose proof (aligned_lt mn mx en ex Vn Vx Hlex) as H.
    rewrite (Z.min_comm en ex) in H. lia.
Qed.

(** *** Adding a number that is not negative *)





(** *** Sums and products that are numbers *)

Lemma SFadd_notNaN (x n : spec_float) :
  notNaN x -> notNaN n ->
  (x = S754_infinity true -> n <> S754_infinity false) ->
  (x = S754_infinity false -> n <> S754_infinity true) ->
  notNaN (SF64add x n).
Proof.
  unfold notNaN, SF64add. intros Hx Hn H1 H2.
  destruct x as [sx|sx| |sx mx ex], n as [sn|sn| |sn mn en]; try congruence;
    cbn [SFadd]; try discriminate.
  - destruct sx, sn; discriminate.
  - destruct sx, sn; try discriminate.
    + now specialize (H1 eq_refl).
    + now specialize (H2 eq_refl).
  - apply binary_normalize_notNaN.
Qed.

Lemma SFsub_finite_notNaN (x y : spec_float) :
  notNaN x -> isFinite y -> notNaN (SF64sub x y).
Proof.
  unfold notNaN, SF64sub. intros Hx Hy.
  destruct x as [sx|sx| |sx mx ex], y as [sy|sy| |sy my ey]; try congruence;
    simpl in Hy; try contradiction; cbn [SFsub]; try discriminate.
  - destruct sx, sy; discriminate.
  - apply binary_normalize_notNaN.
Qed.


(** *** Conversion from integers *)


(** *** The primitive operations *)

Lemma Prim2SF_zero : Prim2SF 0 = SFzero.
Proof. reflexivity. Qed.

Lemma Prim2SF_one : isFinite (Prim2SF 1).
Proof. vm_compute. exact I. Qed.

Lemma Prim2SF_infinity : Prim2SF infinity = S754_infinity false.
Proof. reflexivity. Qed.

Lemma is_nan_notNaN (x : float) : is_nan x = false <-> notNaN (Prim2SF x).
Proof.
  unfold is_nan, notNaN. rewrite FloatAxioms.eqb_spec. unfold SFeqb.
  destruct (Prim2SF x) as [s|s| |s m e]; simpl.
  - split; [discriminate | reflexivity].
  - destruct s; split; try discriminate; reflexivity.
  - split; [discriminate | congruence].
  - destruct s; rewrite Z.compare_refl, Pcompare_refl; simpl;
      split; try discriminate; reflexivity.
Qed.

Lemma leb_zero_iff (x : float) : (0 <=? x)%float = true <-> zeroOrSign false (Prim2SF x).
Proof. rewrite FloatAxioms.leb_spec, Prim2SF_zero. symmetry. apply zeroOrSign_leb. Qed.

Lemma leb_zero_notNaN (x : float) : (0 <=? x)%float = true -> is_nan x = false.
Proof.
  rewrite leb_zero_iff, is_nan_notNaN. unfold notNaN.
  destruct (Prim2SF x); simpl; congruence.
Qed.


Lemma leb_or_ltb (a b : float) :
  is_nan a = false -> is_nan b = false ->
  (a <=? b)%float = true \/ (b <? a)%float = true.
Proof. rewrite !is_nan_notNaN, FloatAxioms.leb_spec, FloatAxioms.ltb_spec. apply SFleb_or_ltb. Qed.

Lemma ltb_not_leb (a b : float) : (a <? b)%float = true -> (b <=? a)%float = false.
Proof. rewrite FloatAxioms.leb_spec, FloatAxioms.ltb_spec. apply SFltb_not_leb. Qed.

Lemma not_ltb_zero_leb (x : float) :
  is_nan x = false -> (x <? 0)%float = false -> (0 <=? x)%float = true.
Proof.
  intros Hx Hlt. destruct (leb_or_ltb 0 x eq_refl Hx) as [H|H]; [exact H|congruence].
Qed.


(** [0 <= x - n] when [n < x]. *)
Lemma sub_smaller_nonneg (x n : float) :
  (n <? x)%float = true -> (0 <=? x - n)%float = true.
Proof.
  rewrite leb_zero_iff, FloatAxioms.ltb_spec, FloatAxioms.sub_spec.
  apply SFsub_of_smaller; apply FloatAxioms.Prim2SF_valid.
Qed.


Lemma of_uint63_of_Z (k : Z) :
  0 <= k < 2 ^ 63 ->
  Prim2SF (of_uint63 (Uint63.of_Z k)) = binary_normalize prec emax k 0 false.
Proof.
  intros Hk. rewrite FloatAxioms.of_uint63_spec, Uint63.of_Z_spec.
  rewrite Z.mod_small; [reflexivity|]. exact Hk.
Qed.


(** The conversion of any [int] is a number. *)
Lemma of_int_notNaN (k : Z) : minInt <= k <= maxInt -> is_nan (F64.of_int k) = false.
Proof.
  unfold minInt, maxInt. intros Hk. unfold F64.of_int.
  destruct (Z.ltb_spec k 0).
  - destruct (Z.eqb_spec k minInt); [reflexivity|].
    apply is_nan_notNaN. rewrite FloatAxioms.opp_spec, of_uint63_of_Z by (unfold minInt in *; lia).
    pose proof (binary_normalize_notNaN (- k) 0 false) as H'.
    unfold notNaN in *. destruct (binary_normalize prec emax (- k) 0 false);
      simpl; congruence.
  - apply is_nan_notNaN. rewrite of_uint63_of_Z by lia. apply binary_normalize_notNaN.
Qed.

Lemma sub_one_notNaN (x : float) : is_nan x = false -> is_nan (x - 1) = false.
Proof.
  rewrite !is_nan_notNaN, FloatAxioms.sub_spec. intros Hx.
  apply SFsub_finite_notNaN; [exact Hx | apply Prim2SF_one].
Qed.

(** A sum is a number unless it is of the two infinities. *)
Lemma add_notNaN (x n : float) :
  is_nan x = false -> is_nan n = false ->
  (x = neg_infinity -> n <> infinity) ->
  (x = infinity -> n <> neg_infinity) ->
  is_nan (x + n) = false.
Proof.
  rewrite !is_nan_notNaN, FloatAxioms.add_spec. intros Hx Hn H1 H2.
  apply SFadd_notNaN; auto.
  - intros E E'. apply (H1 (FloatAxioms.Prim2SF_inj x neg_infinity E)).
    now apply FloatAxioms.Prim2SF_inj.
  - intros E E'. apply (H2 (FloatAxioms.Prim2SF_inj x infinity E)).
    now apply FloatAxioms.Prim2SF_inj.
Qed.


(** ** Wrapping a position *)


Lemma leb_not_ltb (a b : float) : (a <=? b)%float = true -> (b <? a)%float = false.
Proof.
  intros H. destruct (b <? a)%float eqn:E; [|reflexivity].
  apply ltb_not_leb in E. congruence.
Qed.

Lemma add_infinity_not_neg_infinity (x : float) : (x + infinity)%float <> neg_infinity.
Proof.
  intros E. apply (f_equal Prim2SF) in E.
  rewrite FloatAxioms.add_spec, Prim2SF_infinity in E.
  change (Prim2SF neg_infinity) with (S754_infinity true) in E.
  unfold SF64add in E. destruct (Prim2SF x) as [s|s| |s m e]; simpl in E;
    try discriminate. destruct s; discriminate.
Qed.

(** The first loop adds the period some number of times and leaves a
    position that is not below zero. *)
Lemma raiseWhileNegative_returns (fuel : nat) (n : float) :
  forall p q : float,
    raiseWhileNegative fuel n p = Returned q ->
    (q <? 0)%float = false /\
    exists up : nat, q = Nat.iter up (fun v => (v + n)%float) p.
Proof.
  induction fuel as [|fuel IH]; intros p q; simpl;
    destruct (p <? 0)%float eqn:Hneg; intros H; try discriminate.
  - inversion H; subst. split; [exact Hneg|]. now exists O.
  - destruct (IH _ _ H) as (Hq & up & ->). split; [exact Hq|].
    exists (Datatypes.S up). now rewrite Nat.iter_succ_r.
  - inversion H; subst. split; [exact Hneg|]. now exists O.
Qed.

Lemma raiseWhileNegative_notNaN (fuel : nat) (n : float) :
  is_nan n = false ->
  forall p q : float,
    raiseWhileNegative fuel n p = Returned q ->
    is_nan p = false /\ (n = infinity -> p <> neg_infinity) ->
    is_nan q = false.
Proof.
  intros Hn. induction fuel as [|fuel IH]; intros p q; simpl;
    destruct (p <? 0)%float eqn:Hneg; intros H [Hp Hinf]; try discriminate.
  - inversion H; subst. exact Hp.
  - apply (IH _ _ H). split.
    + apply add_notNaN; auto.
      * intros Hx Hi. now apply Hinf.
      * intros ->. discriminate Hneg.
    + intros ->. apply add_infinity_not_neg_infinity.
  - inversion H; subst. exact Hp.
Qed.

(** The second loop subtracts the period some number of times; what it
    returns is not above the period, and not below zero if it started so. *)
Lemma lowerWhileAbove_returns (fuel : nat) (n : float) :
  forall p r : float,
    lowerWhileAbove fuel n p = Returned r ->
    (n <? r)%float = false /\
    ((0 <=? p)%float = true -> (0 <=? r)%float = true) /\
    exists down : nat, r = Nat.iter down (fun v => (v - n)%float) p.
Proof.
  induction fuel as [|fuel IH]; intros p r; simpl;
    destruct (n <? p)%float eqn:Habove; intros H; try discriminate.
  - inversion H; subst. repeat split; auto. now exists O.
  - destruct (IH _ _ H) as (Hr & Hnn & down & ->). split; [exact Hr|]. split.
    + intros _. apply Hnn. now apply sub_smaller_nonneg.
    + exists (Datatypes.S down). now rewrite Nat.iter_succ_r.
  - inversion H; subst. repeat split; auto. now exists O.
Qed.

Lemma is_finite_inv (x : float) :
  is_finite x = true -> is_nan x = false /\ x <> neg_infinity.
Proof.
  unfold is_finite. intros H. apply negb_true_iff, orb_false_iff in H as [Hn Hi].
  split; [exact Hn|]. intros ->. discriminate Hi.
Qed.

(** What [wrapSoundPos] returns is the position after some additions and
    then some subtractions of [float64(len) - 1]. A position already in
    [0, len - 1] is returned as it is, and whenever the call returns for a
    finite position the result lies in [0, len - 1]. *)
Lemma wrapSoundPos_when_it_returns (pos : float) (sampleCount : Z) :
  0 <= sampleCount <= maxInt ->
  let n := (F64.of_int sampleCount - 1)%float in
  (forall fuel : nat,
      (0 <=? pos)%float = true -> (pos <=? n)%float = true ->
      wrapSoundPos fuel pos sampleCount = Returned pos) /\
  (forall (fuel : nat) (r : float),
      is_finite pos = true ->
      wrapSoundPos fuel pos sampleCount = Returned r ->
      (0 <=? r)%float = true /\ (r <=? n)%float = true /\
      exists up down : nat,
        r = Nat.iter down (fun v => (v - n)%float)
              (Nat.iter up (fun v => (v + n)%float) pos)).
Proof.
  intros Hcount n. split.
  - intros fuel Hlo Hhi. unfold wrapSoundPos. fold n.
    apply leb_not_ltb in Hlo, Hhi.
    destruct fuel; simpl; rewrite Hlo; simpl; rewrite Hhi; reflexivity.
  - intros fuel r Hfin H. unfold wrapSoundPos in H. fold n in H.
    apply obind_Returned in H as (q & Hq & Hr).
    destruct (is_finite_inv pos Hfin) as [Hnan Hninf].
    assert (Hn : is_nan n = false).
    { apply sub_one_notNaN, of_int_notNaN. unfold minInt, maxInt in *. lia. }
    pose proof (raiseWhileNegative_notNaN fuel n Hn pos q Hq (conj Hnan (fun _ => Hninf)))
      as Hqnan.
    destruct (raiseWhileNegative_returns fuel n pos q Hq) as (Hq0 & up & Eq).
    destruct (lowerWhileAbove_returns fuel n q r Hr) as (Hrn & Hr0 & down & Er).
    pose proof (Hr0 (not_ltb_zero_leb q Hqnan Hq0)) as Hr0'.
    split; [exact Hr0'|]. split.
    + destruct (leb_or_ltb r n (leb_zero_notNaN r Hr0') Hn) as [Hle|Hlt];
        [exact Hle | congruence].
    + exists up, down. now rewrite Er, Eq.
Qed.

(** C6 (as stated) fails: for a clip of one frame the period is 0, and the
    position 1 (what slot 1 of the window reads at speed 1) is never
    wrapped: the second loop subtracts 0 for ever. *)
Lemma wrapSoundPos_period_zero : neverReturns (fun fuel => wrapSoundPos fuel 1 1).
Proof.
  intros fuel. unfold wrapSoundPos.
  change (F64.of_int 1 - 1)%float with 0%float.
  assert (H1 : raiseWhileNegative fuel 0 1 = Returned 1%float) by (destruct fuel; reflexivity).
  rewrite H1. simpl. clear H1.
  induction fuel as [|fuel IH]; [reflexivity|]. exact IH.
Qed.

(** Beyond [2^53] times the period, adding or subtracting the period
    changes nothing either: a clip of ten frames, position [2^1000]. *)
Lemma wrapSoundPos_huge_position :
  neverReturns (fun fuel => wrapSoundPos fuel 0x1p+1000 10).
Proof.
  intros fuel. unfold wrapSoundPos.
  change (F64.of_int 10 - 1)%float with 9%float.
  assert (H1 : raiseWhileNegative fuel 9 0x1p+1000 = Returned 0x1p+1000%float)
    by (destruct fuel; reflexivity).
  rewrite H1. simpl. clear H1.
  induction fuel as [|fuel IH]; [reflexivity|]. exact IH.
Qed.

Lemma wrapSoundPos_examples :
  wrapSoundPos 5 (-3.5) 10 = Returned 5.5%float /\
  wrapSoundPos 5 10 10 = Returned 1%float /\
  wrapSoundPos 0 9 10 = Returned 9%float /\
  wrapSoundPos 1 40 10 = OutOfFuel /\
  wrapSoundPos 4 40 10 = Returned 4%float.
Proof. repeat split; reflexivity. Qed.

(** ** A sound that does not loop *)

Lemma advancedBy_handle (fuel : nat) (played : Z) (x y : soundState) :
  advancedBy fuel played x y -> handle y = handle x.
Proof.
  unfold advancedBy. destruct (queued x); [now intros ->|].
  intros (p & _ & ->). reflexivity.
Qed.

Lemma advancedBy_handles (fuel : nat) (played : Z) (xs ys : list soundState) :
  Forall2 (advancedBy fuel played) xs ys -> map handle ys = map handle xs.
Proof.
  induction 1 as [|x y xs ys Hxy _ IH]; simpl; [reflexivity|].
  f_equal; [eapply advancedBy_handle; eauto | exact IH].
Qed.



Lemma Forall2_In_r {A B : Type} (R : A -> B -> Prop) (xs : list A) (ys : list B) (y : B) :
  Forall2 R xs ys -> In y ys -> exists x, In x xs /\ R x y.
Proof.
  induction 1 as [|x0 y0 xs ys H0 _ IH]; simpl; [tauto|].
  intros [->|Hin]; [eauto|]. destruct (IH Hin) as (x & Hx & Hr). eauto.
Qed.

Lemma Forall2_In_l {A B : Type} (R : A -> B -> Prop) (xs : list A) (ys : list B) (x : A) :
  Forall2 R xs ys -> In x xs -> exists y, In y ys /\ R x y.
Proof.
  induction 1 as [|x0 y0 xs ys H0 _ IH]; simpl; [tauto|].
  intros [->|Hin]; [eauto|]. destruct (IH Hin) as (y & Hy & Hr). eauto.
Qed.

(** In a registry without repeated handles, two entries with the same
    handle are the same entry. *)
Lemma NoDup_handle_lookup (xs : list soundState) (i : nat) (x y : soundState) :
  List.NoDup (map handle xs) -> xs !! i = Some x -> In y xs -> handle y = handle x -> y = x.
Proof.
  revert i. induction xs as [|a xs IH]; intros i Hnd Hi Hin Hh; [contradiction|].
  simpl in Hnd. apply List.NoDup_cons_iff in Hnd as [Hna Hnd].
  destruct i as [|i]; simpl in Hi.
  - inversion Hi; subst a. destruct Hin as [->|Hin]; [reflexivity|].
    exfalso. apply Hna. rewrite <- Hh. now apply in_map.
  - destruct Hin as [->|Hin].
    + exfalso. apply Hna. rewrite Hh. apply in_map.
      apply list_elem_of_In, list_elem_of_lookup. eauto.
    + eapply IH; eauto.
Qed.



(** ** Frame after frame *)

Lemma unqueued_handles (xs ys : list soundState) :
  Forall2 unqueued xs ys -> map handle ys = map handle xs.
Proof.
  induction 1 as [|x y xs ys Hxy _ IH]; simpl; [reflexivity|].
  f_equal; [now apply unqueued_handle | exact IH].
Qed.

Lemma NoDup_map_filter {A B : Type} (f : A -> B) (keep : A -> bool) (xs : list A) :
  List.NoDup (map f xs) -> List.NoDup (map f (List.filter keep xs)).
Proof.
  induction xs as [|a xs IH]; simpl; intros H; [constructor|].
  apply List.NoDup_cons_iff in H as [Hna Hnd].
  destruct (keep a); simpl; [|auto].
  constructor; [|auto]. intros Hin. apply Hna.
  apply in_map_iff in Hin as (b & Hb & Hin). apply filter_In in Hin as [Hin _].
  rewrite <- Hb. now apply in_map.
Qed.

Lemma In_map_filter {A B : Type} (f : A -> B) (keep : A -> bool) (xs : list A) (b : B) :
  In b (map f (List.filter keep xs)) -> In b (map f xs).
Proof.
  intros Hin. apply in_map_iff in Hin as (a & Ha & Hin).
  apply filter_In in Hin as [Hin _]. rewrite <- Ha. now apply in_map.
Qed.







(** The same frames in numbers: the sound is at 6 after the first frame,
    below the last frame 9, and at 12 after the second, which removes it. *)
Lemma steady_frames_in_numbers :
  steadyPositions (mixBufferSize steadySystem) (lastWritePos steadySystem)
    (lastSpeed steadySound) 2 (pos steadySound) [12; 24] = [6%float; 12%float] /\
  frames 0 [12] steadySystem = Returned (stateAfter (update 0 (dsGrants 12) steadySystem)
                                            steadySystem) /\
  map pos (playingSounds (stateAfter (update 0 (dsGrants 12) steadySystem) steadySystem))
    = [6%float; 0%float] /\
  map handle (playingSounds afterSteadyFrames) = [2].
Proof. split; [|split; [|split]]; vm_compute; reflexivity. Qed.


(** ** Stopping a sound and changing its speed *)

Lemma removeFirst_None (h : soundHandle) (sounds : list soundState) :
  removeFirst h sounds = None <-> ~ In h (map handle sounds).
Proof.
  induction sounds as [|x rest IH]; simpl; [tauto|].
  destruct (Z.eqb_spec h (handle x)) as [->|Hne].
  - split; [discriminate | intros H; exfalso; apply H; now left].
  - destruct (removeFirst h rest); simpl.
    + split; [discriminate|]. intros H. exfalso.
      assert (Hn : ~ In h (map handle rest)) by (intros Hin; apply H; now right).
      apply IH in Hn. discriminate.
    + split; [|reflexivity]. intros _ [E|Hin]; [congruence|]. now apply (proj1 IH).
Qed.

Lemma removeFirst_Some (h : soundHandle) (sounds sounds' : list soundState) :
  removeFirst h sounds = Some sounds' ->
  exists before x after,
    sounds = before ++ x :: after /\ handle x = h /\
    ~ In h (map handle before) /\ sounds' = before ++ after.
Proof.
  revert sounds'. induction sounds as [|y rest IH]; simpl; intros sounds' H; [discriminate|].
  destruct (Z.eqb_spec h (handle y)) as [->|Hne].
  - inversion H; subst. exists [], y, sounds'. simpl. tauto.
  - destruct (removeFirst h rest) as [rest'|]; [|discriminate].
    inversion H; subst.
    destruct (IH rest' eq_refl) as (before & x & after & -> & Hx & Hnot & ->).
    exists (y :: before), x, after. simpl. repeat split; auto.
    intros [E|Hin]; [congruence | contradiction].
Qed.

(** X1. [stop] with a handle that no playing sound has returns its error and
    leaves the mixer as it was; with a handle that is playing it removes the
    first sound with that handle and nothing else: the sounds before and
    after it keep their order, and the chain list, the clip cache and the
    handle counter are untouched. *)
Theorem stop_removes_first_match (s : soundSystem) (h : soundHandle) :
  (~ In h (map handle (playingSounds s)) ->
   stop s h = (Some "cannot stop unknown sound handle", s)) /\
  (In h (map handle (playingSounds s)) ->
   exists before x after,
     playingSounds s = before ++ x :: after /\
     handle x = h /\
     ~ In h (map handle before) /\
     stop s h = (None, set_playingSounds (before ++ after) s)).
Proof.
  unfold stop. split; intros H.
  - apply removeFirst_None in H. now rewrite H.
  - destruct (removeFirst h (playingSounds s)) as [sounds'|] eqn:E.
    + destruct (removeFirst_Some _ _ _ E) as (before & x & after & E1 & Hx & Hnot & ->).
      exists before, x, after. auto.
    + apply removeFirst_None in E. contradiction.
Qed.

(** X2. With distinct handles, a stopped sound is gone. *)
Theorem stop_forgets_handle (s s' : soundSystem) (h : soundHandle) :
  List.NoDup (map handle (playingSounds s)) ->
  stop s h = (None, s') ->
  ~ In h (map handle (playingSounds s')) /\
  (forall h', h' <> h ->
     (In h' (map handle (playingSounds s')) <-> In h' (map handle (playingSounds s)))) /\
  queue s' = queue s.
Proof.
  intros Hnd Hstop.
  destruct (stop_removes_first_match s h) as [Hunknown Hknown].
  destruct (in_dec Z.eq_dec h (map handle (playingSounds s))) as [Hin|Hnin].
  - destruct (Hknown Hin) as (before & x & after & E & Hx & Hnot & Hstop').
    rewrite Hstop in Hstop'. inversion Hstop'; subst s'. simpl.
    rewrite E in Hnd |- *. rewrite !map_app in *. simpl in *.
    apply List.NoDup_remove in Hnd as [Hnd Hfresh]. rewrite Hx in Hfresh.
    split; [exact Hfresh|]. split; [|reflexivity].
    intros h' Hne. rewrite !in_app_iff. simpl. intuition congruence.
  - rewrite (Hunknown Hnin) in Hstop. discriminate.
Qed.

Lemma setSpeedFirst_None (h : soundHandle) (v : float) (sounds : list soundState) :
  setSpeedFirst h v sounds = None <-> ~ In h (map handle sounds).
Proof.
  induction sounds as [|x rest IH]; simpl; [tauto|].
  destruct (Z.eqb_spec h (handle x)) as [->|Hne].
  - split; [discriminate | intros H; exfalso; apply H; now left].
  - destruct (setSpeedFirst h v rest); simpl.
    + split; [discriminate|]. intros H. exfalso.
      assert (Hn : ~ In h (map handle rest)) by (intros Hin; apply H; now right).
      apply IH in Hn. discriminate.
    + split; [|reflexivity]. intros _ [E|Hin]; [congruence|]. now apply (proj1 IH).
Qed.

Lemma setSpeedFirst_Some (h : soundHandle) (v : float) (sounds sounds' : list soundState) :
  setSpeedFirst h v sounds = Some sounds' ->
  exists before x after,
    sounds = before ++ x :: after /\ handle x = h /\
    ~ In h (map handle before) /\ sounds' = before ++ set_speed v x :: after.
Proof.
  revert sounds'. induction sounds as [|y rest IH]; simpl; intros sounds' H; [discriminate|].
  destruct (Z.eqb_spec h (handle y)) as [->|Hne].
  - inversion H; subst. exists [], y, rest. simpl. tauto.
  - destruct (setSpeedFirst h v rest) as [rest'|]; [|discriminate].
    inversion H; subst.
    destruct (IH rest' eq_refl) as (before & x & after & -> & Hx & Hnot & ->).
    exists (y :: before), x, after. simpl. repeat split; auto.
    intros [E|Hin]; [congruence | contradiction].
Qed.

(** X3. [setSpeed] with a handle that no playing sound has returns its error
    and leaves the mixer as it was; otherwise it sets [speed] of the first
    sound with that handle, whatever the value (zero, negative, infinite or
    NaN), and changes nothing else: not the position, not [lastSpeed], no
    other sound. *)
Theorem setSpeed_sets_first_match (s : soundSystem) (h : soundHandle) (v : float) :
  (~ In h (map handle (playingSounds s)) ->
   setSpeed s h v = (Some "cannot set speed on unknown sound handle", s)) /\
  (In h (map handle (playingSounds s)) ->
   exists before x after,
     playingSounds s = before ++ x :: after /\
     handle x = h /\
     ~ In h (map handle before) /\
     setSpeed s h v =
       (None,
        set_playingSounds
          (before ++ SoundState (handle x) (samples x) (pos x) (lastSpeed x) v
                       (looping x) (queued x) :: after) s)).
Proof.
  unfold setSpeed. split; intros H.
  - apply (setSpeedFirst_None h v) in H. now rewrite H.
  - destruct (setSpeedFirst h v (playingSounds s)) as [sounds'|] eqn:E.
    + destruct (setSpeedFirst_Some _ _ _ _ E) as (before & x & after & E1 & Hx & Hnot & ->).
      exists before, x, after. auto.
    + apply (setSpeedFirst_None h v) in E. contradiction.
Qed.

(** X4. [soundFromHandle] points at the first sound with the handle, and is
    nil exactly when no sound has it. *)
Theorem soundFromHandle_first_match (sounds : list soundState) (h : soundHandle) :
  match soundFromHandle sounds h with
  | Some j =>
      (exists x, sounds !! j = Some x /\ handle x = h) /\
      (forall k y, (k < j)%nat -> sounds !! k = Some y -> handle y <> h)
  | None => ~ In h (map handle sounds)
  end.
Proof.
  induction sounds as [|x rest IH]; simpl; [tauto|].
  destruct (Z.eqb_spec h (handle x)) as [->|Hne].
  - split; [eauto|]. intros k y Hk. lia.
  - destruct (soundFromHandle rest h) as [j|]; simpl.
    + destruct IH as [Hfound Hfirst]. split; [exact Hfound|].
      intros [|k] y Hk Hy; simpl in Hy.
      * inversion Hy; subst. congruence.
      * apply (Hfirst k y); [lia | exact Hy].
    + intros [E|Hin]; [congruence | contradiction].
Qed.

Lemma stop_forgets_handle_witness :
  ~ In 1 (map handle (playingSounds (snd (stop speedySystem 1)))) /\
  (forall h', h' <> 1 ->
     (In h' (map handle (playingSounds (snd (stop speedySystem 1)))) <->
      In h' (map handle (playingSounds speedySystem)))) /\
  queue (snd (stop speedySystem 1)) = queue speedySystem.
Proof.
  exact (stop_forgets_handle speedySystem (snd (stop speedySystem 1)) 1
           ltac:(vm_compute; repeat constructor; simpl; intuition discriminate)
           ltac:(vm_compute; reflexivity)).
Defined.

(** ** The clip cache and the playback calls *)

Section PlaybackFacts.

Variable assetFiles_ReadFile : string -> error + list byte.
Variable oggvorbis_ReadAll : list byte -> error + (list F32.t * oggFormat).
Variable mp3_NewDecoder : list byte -> error + mp3Decoder.

Lemma loadRawSamples_success (s s' : soundSystem) (path : string) (raw : list byte) :
  loadRawSamples assetFiles_ReadFile oggvorbis_ReadAll mp3_NewDecoder s path = (inr raw, s') ->
  loadedSounds s' !! path = Some raw /\
  (forall other, other <> path -> loadedSounds s' !! other = loadedSounds s !! other) /\
  s' = set_loadedSounds (loadedSounds s') s.
Proof.
  unfold loadRawSamples.
  destruct (loadedSounds s !! path) as [cached|] eqn:Hc.
  { intros H. inversion H; subst. destruct s'; auto. }
  destruct (assetFiles_ReadFile path) as [err|soundFile]; [discriminate|].
  destruct (decodeSoundFile _ _ path soundFile) as [err|data]; [discriminate|].
  intros H. inversion H; subst. simpl. split; [apply lookup_insert_eq|].
  split; [|reflexivity]. intros other Hne. now apply lookup_insert_ne.
Qed.

Lemma loadRawSamples_cached (s : soundSystem) (path : string) (raw : list byte) :
  loadedSounds s !! path = Some raw ->
  loadRawSamples assetFiles_ReadFile oggvorbis_ReadAll mp3_NewDecoder s path = (inr raw, s).
Proof. unfold loadRawSamples. now intros ->. Qed.

(** X5. A call of [play], [loop] or [queueLoopAfter] whose clip does not load
    ([play] and [loop] go through [playLoopingAndQueued]) returns the
    invalid handle 0 together with the load error and changes nothing:
    no sound is added, no handle is used up, nothing is cached. *)
Theorem play_reports_load_error (s : soundSystem) (path : string) (err : error)
    (looping queued : bool) :
  fst (loadRawSamples assetFiles_ReadFile oggvorbis_ReadAll mp3_NewDecoder s path) = inl err ->
  playLoopingAndQueued assetFiles_ReadFile oggvorbis_ReadAll mp3_NewDecoder
    s path looping queued = Returned ((invalidSoundHandle, Some err), s) /\
  play assetFiles_ReadFile oggvorbis_ReadAll mp3_NewDecoder s path
    = Returned ((0, Some err), s) /\
  loop assetFiles_ReadFile oggvorbis_ReadAll mp3_NewDecoder s path
    = Returned ((0, Some err), s).
Proof.
  intros H. apply loadRawSamples_failure in H.
  unfold play, loop, playLoopingAndQueued. rewrite H. auto.
Qed.

(** X6. A clip that loads to no bytes at all (an empty [.raw] file, an ogg
    stream without samples) makes [play], [loop] and [queueLoopAfter]
    panic on [&raw[0]] instead of returning an error. *)
Theorem empty_clip_panics (s : soundSystem) (path : string) (atEndOf : soundHandle)
    (looping queued : bool) :
  fst (loadRawSamples assetFiles_ReadFile oggvorbis_ReadAll mp3_NewDecoder s path) = inr [] ->
  playLoopingAndQueued assetFiles_ReadFile oggvorbis_ReadAll mp3_NewDecoder
    s path looping queued = Panicked "index out of range [0] with length 0" /\
  queueLoopAfter assetFiles_ReadFile oggvorbis_ReadAll mp3_NewDecoder s atEndOf path
    = Panicked "index out of range [0] with length 0".
Proof.
  intros H. unfold queueLoopAfter, playLoopingAndQueued.
  destruct (loadRawSamples _ _ _ s path) as [[e|raw] s1]; simpl in H; [discriminate|].
  inversion H; subst. auto.
Qed.

Lemma samplesOfBytes_length (raw : list byte) :
  len (samplesOfBytes raw) = len raw / 4.
Proof.
  unfold len.
  assert (H : forall n (raw : list byte), (length raw < n)%nat ->
              Z.of_nat (length (samplesOfBytes raw)) = Z.of_nat (length raw) / 4).
  { induction n as [|n IH]; intros l Hl; [lia|].
    destruct l as [|a [|b [|c [|d rest]]]]; try reflexivity.
    cbn [samplesOfBytes length]. simpl in Hl.
    rewrite Nat2Z.inj_succ, (IH rest) by lia.
    replace (Z.of_nat (Datatypes.S (Datatypes.S (Datatypes.S (Datatypes.S (length rest))))))
      with (Z.of_nat (length rest) + 1 * 4) by lia.
    rewrite Z.div_add by lia. lia. }
  apply (H (Datatypes.S (length raw))). lia.
Qed.

Lemma playLoopingAndQueued_success (s s' : soundSystem) (path : string)
    (looping queued : bool) (h : soundHandle) :
  playLoopingAndQueued assetFiles_ReadFile oggvorbis_ReadAll mp3_NewDecoder
    s path looping queued = Returned ((h, None), s') ->
  exists raw,
    loadedSounds s' !! path = Some raw /\
    h = nextHandle s /\
    nextHandle s' = int (nextHandle s + 1) /\
    playingSounds s' =
      playingSounds s ++ [SoundState h (samplesOfBytes raw) 0 0 1 looping queued] /\
    queue s' = queue s.
Proof.
  unfold playLoopingAndQueued.
  destruct (loadRawSamples _ _ _ s path) as [[e|raw] s1] eqn:Hload; [discriminate|].
  destruct raw as [|b raw]; [discriminate|].
  intros H. inversion H; subst. simpl.
  apply loadRawSamples_success in Hload as (Hc & _ & Hs1).
  exists (b :: raw). rewrite Hs1. simpl. repeat split; auto.
Qed.

(** X7. A clip that loads (to at least one byte) is started as one new sound
    at the end of [playingSounds]: it has the handle [nextHandle], one
    frame per four bytes of the clip (up to three trailing bytes are
    dropped), position 0, speed 1, and has not played yet ([lastSpeed] 0).
    The sounds that were playing stay as they were, in their order, and
    the chain list is untouched. *)
Theorem play_appends_one_sound (s s' : soundSystem) (path : string)
    (looping queued : bool) (h : soundHandle) :
  playLoopingAndQueued assetFiles_ReadFile oggvorbis_ReadAll mp3_NewDecoder
    s path looping queued = Returned ((h, None), s') ->
  exists raw,
    loadedSounds s' !! path = Some raw /\
    h = nextHandle s /\
    nextHandle s' = int (nextHandle s + 1) /\
    playingSounds s' =
      playingSounds s ++ [SoundState h (samplesOfBytes raw) 0 0 1 looping queued] /\
    len (samplesOfBytes raw) = len raw / 4 /\
    queue s' = queue s.
Proof.
  intros H.
  apply playLoopingAndQueued_success in H as (raw & Hc & Hh & Hn & Hp & Hq).
  exists raw. repeat split; auto. apply samplesOfBytes_length.
Qed.

(** X8. [queueLoopAfter] with a clip that loads appends one looping, queued
    sound and one link [(atEndOf, handle)] at the end of the chain list.
    [atEndOf] is not checked: any number is accepted, also one that no
    sound has or will ever have. *)
Theorem queueLoopAfter_appends_link (s s' : soundSystem) (atEndOf : soundHandle)
    (path : string) (h : soundHandle) :
  queueLoopAfter assetFiles_ReadFile oggvorbis_ReadAll mp3_NewDecoder s atEndOf path
    = Returned ((h, None), s') ->
  h <> invalidSoundHandle ->
  exists raw,
    loadedSounds s' !! path = Some raw /\
    h = nextHandle s /\
    playingSounds s' =
      playingSounds s ++ [SoundState h (samplesOfBytes raw) 0 0 1 true true] /\
    queue s' = queue s ++ [(atEndOf, h)].
Proof.
  unfold queueLoopAfter. intros H Hh.
  apply obind_Returned in H as ([[h0 e0] s0] & Hplay & H).
  destruct e0 as [err|].
  { inversion H; subst. contradiction. }
  inversion H; subst.
  apply playLoopingAndQueued_success in Hplay as (raw & Hc & -> & _ & Hp & Hq).
  exists raw. simpl. rewrite Hq. auto.
Qed.

End PlaybackFacts.

(** X9. A clip that was loaded once is in the cache under its path, the other
    cache entries are as before, and every later load of the same path
    returns the same bytes and changes nothing, whatever has become of
    the asset files and the decoders in between: they are not consulted
    again. *)
Theorem loaded_clip_is_served_from_cache
    (files : string -> error + list byte)
    (ogg : list byte -> error + (list F32.t * oggFormat))
    (mp3 : list byte -> error + mp3Decoder)
    (s s' : soundSystem) (path : string) (raw : list byte) :
  loadRawSamples files ogg mp3 s path = (inr raw, s') ->
  loadedSounds s' !! path = Some raw /\
  (forall other, other <> path -> loadedSounds s' !! other = loadedSounds s !! other) /\
  (forall files' ogg' mp3', loadRawSamples files' ogg' mp3' s' path = (inr raw, s')).
Proof.
  intros H. apply loadRawSamples_success in H as (Hc & Hother & _).
  split; [exact Hc|]. split; [exact Hother|].
  intros files' ogg' mp3'. now apply loadRawSamples_cached.
Qed.

Lemma loaded_clip_is_served_from_cache_witness :
  loadedSounds loadedSystem !! "assets/blip.raw"
    = Some [x01; x00; x02; x00; x03; x00; x04; x00] /\
  (forall other, other <> "assets/blip.raw" ->
     loadedSounds loadedSystem !! other = loadedSounds startedSystem !! other) /\
  (forall files' ogg' mp3',
     loadRawSamples files' ogg' mp3' loadedSystem "assets/blip.raw"
       = (inr [x01; x00; x02; x00; x03; x00; x04; x00], loadedSystem)).
Proof.
  exact (loaded_clip_is_served_from_cache someAssets noOgg noMp3 startedSystem loadedSystem
           "assets/blip.raw" [x01; x00; x02; x00; x03; x00; x04; x00]
           ltac:(vm_compute; reflexivity)).
Defined.

(** X10. After a [preload] that returned nil, [play], [loop] and
    [queueLoopAfter] of the same path do not touch the asset files or the
    decoders: unless the cached clip is empty (then they panic) they
    start the sound with the handle [nextHandle]. *)
Theorem play_after_preload
    (files : string -> error + list byte)
    (ogg : list byte -> error + (list F32.t * oggFormat))
    (mp3 : list byte -> error + mp3Decoder)
    (s s1 : soundSystem) (path : string) :
  preload files ogg mp3 s path = (None, s1) ->
  exists raw,
    loadedSounds s1 !! path = Some raw /\
    forall files' ogg' mp3' looping queued,
      playLoopingAndQueued files' ogg' mp3' s1 path looping queued =
        match raw with
        | [] => Panicked "index out of range [0] with length 0"
        | _ :: _ =>
            Returned
              ((nextHandle s, None),
               set_playingSounds
                 (playingSounds s ++
                    [SoundState (nextHandle s) (samplesOfBytes raw) 0 0 1 looping queued])
                 (set_nextHandle (int (nextHandle s + 1)) s1))
        end.
Proof.
  unfold preload.
  destruct (loadRawSamples files ogg mp3 s path) as [[e|raw] s0] eqn:Hload; [discriminate|].
  intros H. inversion H; subst s0.
  apply loadRawSamples_success in Hload as (Hc & _ & Hs1).
  exists raw. split; [exact Hc|].
  intros files' ogg' mp3' looping queued. unfold playLoopingAndQueued.
  rewrite (loadRawSamples_cached files' ogg' mp3' s1 path raw Hc).
  destruct raw; [reflexivity|]. rewrite Hs1. reflexivity.
Qed.

Lemma play_after_preload_witness :
  exists raw,
    loadedSounds loadedSystem !! "assets/blip.raw" = Some raw /\
    forall files' ogg' mp3' looping queued,
      playLoopingAndQueued files' ogg' mp3' loadedSystem "assets/blip.raw" looping queued =
        match raw with
        | [] => Panicked "index out of range [0] with length 0"
        | _ :: _ =>
            Returned
              ((nextHandle startedSystem, None),
               set_playingSounds
                 (playingSounds startedSystem ++
                    [SoundState (nextHandle startedSystem) (samplesOfBytes raw) 0 0 1
                       looping queued])
                 (set_nextHandle (int (nextHandle startedSystem + 1)) loadedSystem))
        end.
Proof.
  exact (play_after_preload someAssets noOgg noMp3 startedSystem loadedSystem
           "assets/blip.raw" ltac:(vm_compute; reflexivity)).
Defined.

Lemma play_reports_load_error_witness :
  playLoopingAndQueued noAssets noOgg noMp3 startedSystem "assets/blip.raw" true false
    = Returned ((invalidSoundHandle, Some "open: file does not exist"), startedSystem) /\
  play noAssets noOgg noMp3 startedSystem "assets/blip.raw"
    = Returned ((0, Some "open: file does not exist"), startedSystem) /\
  loop noAssets noOgg noMp3 startedSystem "assets/blip.raw"
    = Returned ((0, Some "open: file does not exist"), startedSystem).
Proof.
  exact (play_reports_load_error noAssets noOgg noMp3 startedSystem "assets/blip.raw"
           "open: file does not exist" true false ltac:(vm_compute; reflexivity)).
Defined.

Lemma empty_clip_panics_witness :
  playLoopingAndQueued emptyAssets noOgg noMp3 startedSystem "assets/empty.raw" false false
    = Panicked "index out of range [0] with length 0" /\
  queueLoopAfter emptyAssets noOgg noMp3 startedSystem 1 "assets/empty.raw"
    = Panicked "index out of range [0] with length 0".
Proof.
  exact (empty_clip_panics emptyAssets noOgg noMp3 startedSystem "assets/empty.raw" 1
           false false ltac:(vm_compute; reflexivity)).
Defined.

Lemma play_appends_one_sound_witness :
  exists raw,
    loadedSounds afterPlay !! "assets/blip.raw" = Some raw /\
    1 = nextHandle startedSystem /\
    nextHandle afterPlay = int (nextHandle startedSystem + 1) /\
    playingSounds afterPlay =
      playingSounds startedSystem ++ [SoundState 1 (samplesOfBytes raw) 0 0 1 false false] /\
    len (samplesOfBytes raw) = len raw / 4 /\
    queue afterPlay = queue startedSystem.
Proof.
  exact (play_appends_one_sound someAssets noOgg noMp3 startedSystem afterPlay
           "assets/blip.raw" false false 1 ltac:(vm_compute; reflexivity)).
Defined.

Lemma queueLoopAfter_appends_link_witness :
  exists raw,
    loadedSounds afterQueue !! "assets/blip.raw" = Some raw /\
    1 = nextHandle startedSystem /\
    playingSounds afterQueue =
      playingSounds startedSystem ++ [SoundState 1 (samplesOfBytes raw) 0 0 1 true true] /\
    queue afterQueue = queue startedSystem ++ [(77, 1)].
Proof.
  exact (queueLoopAfter_appends_link someAssets noOgg noMp3 startedSystem afterQueue 77
           "assets/blip.raw" 1 ltac:(vm_compute; reflexivity) ltac:(discriminate)).
Defined.

(** ** Frames that fail, and what a frame keeps *)




Lemma update_after_cursor
    (fuel : nat) (ds : dsAnswers) (s s' : soundSystem) (write : Z) (e : option error) :
  lockAnswer ds = None ->
  positionAnswer ds = inr write ->
  update fuel ds s = Returned (e, s') ->
  exists played advanced mix',
    writeSampleDist s (lastWritePos s) (int write) = Returned played /\
    mixSounds fuel played (playingSounds s)
      (map (fun _ => zeroMixSample) (writeAheadMixBuffer s)) = Returned (advanced, mix') /\
    writeAheadBuffer s' = clipWindow mix' /\
    e = unlockAnswer ds /\
    match unlockAnswer ds with
    | Some _ =>
        playingSounds s' = advanced /\ queue s' = queue s /\
        lastWritePos s' = lastWritePos s
    | None =>
        playingSounds s' = map snapshotSpeed (reclaim advanced (queue s)).1 /\
        queue s' = (reclaim advanced (queue s)).2 /\
        lastWritePos s' = int write
    end.
Proof.
  intros Hlock Hpos Hup. unfold update in Hup. rewrite Hlock, Hpos in Hup.
  apply obind_Returned in Hup as (played & Hplayed & Hup).
  apply obind_Returned in Hup as ([advanced mix'] & Hmix & Hup).
  exists played, advanced, mix'.
  split; [exact Hplayed|]. split; [exact Hmix|].
  destruct (unlockAnswer ds); inversion Hup; subst; simpl; auto 10.
Qed.


(** X13. The sounds a completed frame leaves are the advanced sounds that are
    not over, in their order; each with [lastSpeed] renewed from [speed],
    and [queued] either as it was or cleared. *)
Theorem completed_frame_keeps_unfinished_sounds
    (fuel : nat) (ds : dsAnswers) (s s' : soundSystem) (write : Z) :
  lockAnswer ds = None ->
  positionAnswer ds = inr write ->
  update fuel ds s = Returned (None, s') ->
  exists played advanced,
    writeSampleDist s (lastWritePos s) (int write) = Returned played /\
    Forall2 (advancedBy fuel played) (playingSounds s) advanced /\
    Forall2 (fun x y => y = snapshotSpeed x \/ y = snapshotSpeed (set_queued false x))
      (List.filter notOver advanced) (playingSounds s') /\
    lastWritePos s' = int write.
Proof.
  intros Hlock Hpos Hup.
  destruct (update_after_cursor _ _ _ _ _ _ Hlock Hpos Hup)
    as (played & advanced & mix' & Hplayed & Hmix & _ & He & Hrest).
  destruct (unlockAnswer ds); [discriminate|]. destruct Hrest as (Hp & Hq & Hlw).
  exists played, advanced. split; [exact Hplayed|].
  split; [now apply (mixSounds_advance_render _ _ _ _ _ _ Hmix)|].
  split; [|exact Hlw]. rewrite Hp.
  pose proof (reclaim_keeps_notOver advanced (queue s)) as Hkept.
  apply Forall2_fmap_r. eapply Forall2_impl; [exact Hkept|].
  intros x y [->| ->]; auto.
Qed.

Lemma advancedBy_looping (fuel : nat) (played : Z) (x y : soundState) :
  advancedBy fuel played x y ->
  handle y = handle x /\ looping y = looping x /\ samples y = samples x.
Proof.
  unfold advancedBy. destruct (queued x); [now intros ->|].
  intros (p' & _ & ->). auto.
Qed.

(** X14. A looping sound is never removed by [update]: whichever way a frame
    returns, the sound is still playing afterwards, looping, with the same
    clip. Only [stop] ends it. *)
Theorem looping_sound_outlives_update
    (fuel : nat) (ds : dsAnswers) (s s' : soundSystem) (e : option error)
    (x : soundState) :
  update fuel ds s = Returned (e, s') ->
  In x (playingSounds s) ->
  looping x = true ->
  exists y, In y (playingSounds s') /\
            handle y = handle x /\ looping y = true /\ samples y = samples x.
Proof.
  intros Hup Hin Hloop.
  destruct (lockAnswer ds) as [err|] eqn:Hlock.
  { unfold update in Hup. rewrite Hlock in Hup. inversion Hup; subst. eauto. }
  destruct (positionAnswer ds) as [err|write] eqn:Hpos.
  { unfold update in Hup. rewrite Hlock, Hpos in Hup. inversion Hup; subst. eauto. }
  destruct (update_after_cursor _ _ _ _ _ _ Hlock Hpos Hup)
    as (played & advanced & mix' & _ & Hmix & _ & _ & Hrest).
  apply mixSounds_advance_render in Hmix as (Hadv & _).
  destruct (Forall2_In_l _ _ _ _ Hadv Hin) as (x1 & Hin1 & Hx1).
  apply advancedBy_looping in Hx1 as (Hh & Hl & Hs). rewrite Hloop in Hl.
  destruct (unlockAnswer ds).
  { destruct Hrest as (-> & _). exists x1. auto. }
  destruct Hrest as (-> & _).
  assert (Hkeep : In x1 (List.filter notOver advanced)).
  { apply filter_In. split; [exact Hin1|]. unfold notOver, isOver. now rewrite Hl. }
  destruct (Forall2_In_l _ _ _ _ (reclaim_keeps_notOver advanced (queue s)) Hkeep)
    as (x2 & Hin2 & Hx2).
  exists (snapshotSpeed x2). split; [now apply in_map|].
  destruct Hx2 as [->| ->]; simpl; rewrite ?Hh, ?Hl, ?Hs; auto.
Qed.

(** X15. [update] leaves the region locked in exactly one case: [Lock] was
    granted and [GetCurrentPosition] failed. A refused [Lock] changes
    nothing about the lock, and every return after the cursor was read
    comes after [Unlock]. *)
Theorem update_lock_balance
    (fuel : nat) (ds : dsAnswers) (s s' : soundSystem) (e : option error) :
  update fuel ds s = Returned (e, s') ->
  lockHeld s' =
    match lockAnswer ds, positionAnswer ds with
    | Some _, _ => lockHeld s
    | None, inl _ => true
    | None, inr _ => false
    end.
Proof.
  intros Hup. unfold update in Hup.
  destruct (lockAnswer ds).
  { inversion Hup; subst. unfold lockHeld, logCall. simpl.
    rewrite lockHeldFrom_app. simpl. now rewrite orb_false_r. }
  destruct (positionAnswer ds).
  { inversion Hup; subst. unfold lockHeld, logCall. simpl.
    rewrite !lockHeldFrom_app. simpl. apply orb_true_r. }
  apply obind_Returned in Hup as (played & _ & Hup).
  apply obind_Returned in Hup as (r & _ & Hup).
  destruct (unlockAnswer ds); inversion Hup; subst;
    unfold lockHeld, logCall; simpl; rewrite !lockHeldFrom_app; reflexivity.
Qed.



Lemma completed_frame_keeps_unfinished_sounds_witness :
  exists played advanced,
    writeSampleDist speedySystem (lastWritePos speedySystem) (int 12) = Returned played /\
    Forall2 (advancedBy 0 played) (playingSounds speedySystem) advanced /\
    Forall2 (fun x y => y = snapshotSpeed x \/ y = snapshotSpeed (set_queued false x))
      (List.filter notOver advanced) (playingSounds afterSpeedyFrame) /\
    lastWritePos afterSpeedyFrame = int 12.
Proof.
  exact (completed_frame_keeps_unfinished_sounds 0 (dsGrants 12) speedySystem
           afterSpeedyFrame 12 eq_refl eq_refl ltac:(vm_compute; reflexivity)).
Defined.

Lemma looping_sound_outlives_update_witness :
  exists y, In y (playingSounds afterSpeedyFrame) /\
            handle y = handle (SoundState 2 clip10 0 0 1 true true) /\
            looping y = true /\
            samples y = samples (SoundState 2 clip10 0 0 1 true true).
Proof.
  exact (looping_sound_outlives_update 0 (dsGrants 12) speedySystem afterSpeedyFrame None
           (SoundState 2 clip10 0 0 1 true true)
           ltac:(vm_compute; reflexivity)
           ltac:(right; left; reflexivity)
           eq_refl).
Defined.

Lemma update_lock_balance_witness :
  lockHeld afterFailedFrame =
    match lockAnswer dsCursorFails, positionAnswer dsCursorFails with
    | Some _, _ => lockHeld speedySystem
    | None, inl _ => true
    | None, inr _ => false
    end.
Proof.
  exact (update_lock_balance 0 dsCursorFails speedySystem afterFailedFrame
           (Some "GetCurrentPosition failed") ltac:(vm_compute; reflexivity)).
Defined.

(** ** Frames without looping sounds, and frames without audible sounds *)

Lemma renderWindow_without_loop (x : soundState) (mix : list mixSample) :
  looping x = false ->
  forall i, exists mix', forall fuel, renderWindow fuel x i mix = Returned mix'.
Proof.
  intros Hloop. induction mix as [|m rest IH]; intros i; simpl.
  - exists []. reflexivity.
  - destruct (IH (i + 1)) as [rest' Hrest].
    exists (mixSlot x (pos x + F64.of_int i * speed x)%float m :: rest').
    intros fuel. unfold slotPos. rewrite Hloop. simpl. now rewrite Hrest.
Qed.

Lemma mixSounds_without_loop (played : Z) (sounds : list soundState) :
  Forall (fun x => looping x = false \/ queued x = true) sounds ->
  forall mix, exists r, forall fuel, mixSounds fuel played sounds mix = Returned r.
Proof.
  induction 1 as [|x rest Hx _ IH]; intros mix; simpl.
  - eexists. reflexivity.
  - destruct (queued x) eqn:Hq.
    + destruct (IH mix) as [r Hr]. eexists. intros fuel. rewrite Hr. reflexivity.
    + destruct Hx as [Hloop|]; [|discriminate].
      unfold advancePos. rewrite Hloop. simpl.
      destruct (renderWindow_without_loop
                  (set_pos (pos x + F64.of_int played * lastSpeed x)%float x) mix Hloop 0)
        as [mix' Hmix'].
      destruct (IH mix') as [r Hr]. eexists. intros fuel.
      rewrite Hmix'. simpl. rewrite Hr. reflexivity.
Qed.

(** X16. When no sound that is mixed loops (every sound is either queued or
    not looping), [update] never enters a loop of [wrapSoundPos]: it
    ends, by returning or by the panic on a partial-frame distance, and
    does so without a single wrap step. *)
Theorem update_ends_when_nothing_loops (ds : dsAnswers) (s : soundSystem) :
  Forall (fun x => looping x = false \/ queued x = true) (playingSounds s) ->
  update 0 ds s <> OutOfFuel /\
  forall fuel, update fuel ds s = update 0 ds s.
Proof.
  intros Hsounds. unfold update.
  destruct (lockAnswer ds); [split; [discriminate | reflexivity]|].
  destruct (positionAnswer ds); [split; [discriminate | reflexivity]|].
  destruct (writeSampleDist _ _ _) as [played| |] eqn:Hd; simpl.
  - destruct (mixSounds_without_loop played _ Hsounds
                (map (fun _ => zeroMixSample) (writeAheadMixBuffer s))) as [r Hr].
    simpl. rewrite !Hr. simpl.
    split; [destruct (unlockAnswer ds); discriminate|].
    intros fuel. rewrite Hr. reflexivity.
  - split; [discriminate | reflexivity].
  - unfold writeSampleDist in Hd. destruct (negb _); discriminate.
Qed.

Lemma update_ends_when_nothing_loops_witness :
  update 0 (dsGrants 12) (snd (stop speedySystem 2)) <> OutOfFuel /\
  forall fuel,
    update fuel (dsGrants 12) (snd (stop speedySystem 2))
      = update 0 (dsGrants 12) (snd (stop speedySystem 2)).
Proof.
  exact (update_ends_when_nothing_loops (dsGrants 12) (snd (stop speedySystem 2))
           ltac:(vm_compute; repeat constructor)).
Defined.

Lemma reclaim_nothing_over (sounds : list soundState) (links : list consecutiveSounds) :
  Forall (fun x => isOver x = false) sounds -> reclaim sounds links = (sounds, links).
Proof.
  intros Hall. unfold reclaim.
  pose proof (forRange_ind (fun j (st : chainState) => st = (sounds, links, j)) reclaimStep
                (length sounds) O (sounds, links, O)) as H.
  simpl in H.
  destruct (forRange (length sounds) 0 reclaimStep (sounds, links, O))
    as [[sounds' links'] n].
  assert (E : (sounds', links', n) = (sounds, links, length sounds)).
  { apply H; [|reflexivity]. intros j t Hj ->. unfold reclaimStep.
    destruct (lookup_lt_is_Some_2 sounds j ltac:(lia)) as [x Hx]. rewrite Hx.
    rewrite Forall_forall in Hall.
    rewrite (Hall x) by (eapply list_elem_of_lookup_2; eauto).
    now rewrite list_insert_id. }
  inversion E; subst. now rewrite firstn_all.
Qed.

Lemma mixSounds_all_queued (fuel : nat) (played : Z) (sounds : list soundState)
    (mix : list mixSample) :
  Forall (fun x => queued x = true /\ looping x = true) sounds ->
  mixSounds fuel played sounds mix = Returned (sounds, mix).
Proof.
  induction 1 as [|x rest [Hq _] _ IH]; simpl; [reflexivity|].
  now rewrite Hq, IH.
Qed.

Lemma silent_frame (fuel : nat) (write : Z) (s s' : soundSystem) (e : option error) :
  Forall (fun x => queued x = true /\ looping x = true) (playingSounds s) ->
  update fuel (dsGrants write) s = Returned (e, s') ->
  e = None /\
  playingSounds s' = map snapshotSpeed (playingSounds s) /\
  queue s' = queue s /\
  Forall (fun f => f = SoundSample (0, 0)) (writeAheadBuffer s').
Proof.
  intros Hall Hup. unfold update in Hup. simpl in Hup.
  apply obind_Returned in Hup as (played & _ & Hup).
  rewrite mixSounds_all_queued in Hup by assumption. simpl in Hup.
  rewrite reclaim_nothing_over in Hup.
  2:{ eapply Forall_impl; [exact Hall|]. simpl. intros x [_ Hl].
      unfold isOver. now rewrite Hl. }
  inversion Hup; subst. simpl. repeat split; auto.
  unfold clipWindow. rewrite map_map. apply List.Forall_forall. intros f Hin.
  apply in_map_iff in Hin as (m & <- & _). reflexivity.
Qed.

Lemma snapshotSpeed_idempotent (xs : list soundState) :
  map snapshotSpeed (map snapshotSpeed xs) = map snapshotSpeed xs.
Proof. rewrite map_map. apply map_ext. now intros []. Qed.

(** X17. As long as every sound in the mixer is a queued loop (the sounds they
    were chained to are gone, for instance stopped before they ended),
    every frame writes silence and the sounds stay where they are,
    queued: nothing ever starts them. *)
Theorem queued_sounds_wait_in_silence
    (fuel : nat) (writes : list Z) (s s' : soundSystem) :
  Forall (fun x => queued x = true /\ looping x = true) (playingSounds s) ->
  writes <> [] ->
  frames fuel writes s = Returned s' ->
  playingSounds s' = map snapshotSpeed (playingSounds s) /\
  queue s' = queue s /\
  Forall (fun f => f = SoundSample (0, 0)) (writeAheadBuffer s').
Proof.
  revert s. induction writes as [|write rest IH]; intros s Hall Hne Hrun; [contradiction|].
  simpl in Hrun. apply obind_Returned in Hrun as ([e s1] & Hup & Hrun). simpl in Hrun.
  destruct (silent_frame _ _ _ _ _ Hall Hup) as (-> & Hp & Hq & Hsilent).
  destruct rest as [|write' rest'].
  - simpl in Hrun. inversion Hrun; subst. auto.
  - assert (Hall1 : Forall (fun x => queued x = true /\ looping x = true) (playingSounds s1)).
    { rewrite Hp. apply List.Forall_forall. intros y Hy.
      apply in_map_iff in Hy as (x & <- & Hx). rewrite List.Forall_forall in Hall.
      exact (Hall x Hx). }
    destruct (IH s1 Hall1 ltac:(discriminate) Hrun) as (Hp' & Hq' & Hsilent').
    rewrite Hp', Hp, snapshotSpeed_idempotent, Hq', Hq. auto.
Qed.

Lemma queued_sounds_wait_in_silence_witness :
  playingSounds afterOrphanFrames = map snapshotSpeed (playingSounds orphanSystem) /\
  queue afterOrphanFrames = queue orphanSystem /\
  Forall (fun f => f = SoundSample (0, 0)) (writeAheadBuffer afterOrphanFrames).
Proof.
  exact (queued_sounds_wait_in_silence 0 [12; 24] orphanSystem afterOrphanFrames
           ltac:(vm_compute; repeat constructor)
           ltac:(discriminate)
           ltac:(vm_compute; reflexivity)).
Defined.

(** ** Invariants of a run *)

Lemma update_handles (fuel : nat) (ds : dsAnswers) (s s' : soundSystem) (e : option error) :
  update fuel ds s = Returned (e, s') ->
  (forall h, In h (map handle (playingSounds s')) -> In h (map handle (playingSounds s))) /\
  (List.NoDup (map handle (playingSounds s)) -> List.NoDup (map handle (playingSounds s'))).
Proof.
  intros Hup.
  destruct (lockAnswer ds) as [err|] eqn:Hlock.
  { unfold update in Hup. rewrite Hlock in Hup. inversion Hup; subst. simpl. auto. }
  destruct (positionAnswer ds) as [err|write] eqn:Hpos.
  { unfold update in Hup. rewrite Hlock, Hpos in Hup. inversion Hup; subst. simpl. auto. }
  destruct (update_after_cursor _ _ _ _ _ _ Hlock Hpos Hup)
    as (played & advanced & mix' & _ & Hmix & _ & _ & Hrest).
  apply mixSounds_advance_render in Hmix as (Hadv & _).
  apply advancedBy_handles in Hadv.
  destruct (unlockAnswer ds).
  { destruct Hrest as (-> & _). rewrite Hadv. auto. }
  destruct Hrest as (-> & _).
  pose proof (reclaim_keeps_notOver advanced (queue s)) as Hkept.
  assert (Hh : map handle (map snapshotSpeed (reclaim advanced (queue s)).1)
               = map handle (List.filter notOver advanced)).
  { rewrite map_map. simpl. now apply unqueued_handles. }
  rewrite Hh, <- Hadv.
  split; [intros h; apply In_map_filter | apply NoDup_map_filter].
Qed.

Lemma update_windows (fuel : nat) (ds : dsAnswers) (s s' : soundSystem) (e : option error) :
  update fuel ds s = Returned (e, s') ->
  len (writeAheadBuffer s) = soundWriteAheadSamples ->
  len (writeAheadMixBuffer s) = soundWriteAheadSamples ->
  Forall writesWholeWindow (mixBuffer s) ->
  len (writeAheadBuffer s') = soundWriteAheadSamples /\
  len (writeAheadMixBuffer s') = soundWriteAheadSamples /\
  Forall writesWholeWindow (mixBuffer s').
Proof.
  unfold len. intros Hup Hout Hacc Hlog. unfold update in Hup.
  destruct (lockAnswer ds).
  { inversion Hup; subst. simpl. rewrite length_map.
    repeat split; auto. apply Forall_app. split; [exact Hlog | repeat constructor]. }
  destruct (positionAnswer ds).
  { inversion Hup; subst. simpl. rewrite length_map.
    repeat split; auto. rewrite <- app_assoc.
    apply Forall_app. split; [exact Hlog | repeat constructor]. }
  apply obind_Returned in Hup as (played & _ & Hup).
  apply obind_Returned in Hup as ([advanced mix'] & Hmix & Hup).
  apply mixSounds_advance_render in Hmix as (_ & Hlen & _).
  simpl in Hlen. rewrite length_map in Hlen.
  assert (Hlog' : forall ok,
            Forall writesWholeWindow
              ((((mixBuffer s ++ [CallLock 0 soundWriteAheadSize true])
                   ++ [CallGetCurrentPosition true])
                  ++ [CallWriteRaw 0 (clipWindow mix')
                        (int (Z.of_nat (length (clipWindow mix')) * 4))])
                 ++ [CallUnlock ok])).
  { intros ok. rewrite !Forall_app. repeat split; auto; repeat constructor.
    - unfold len, clipWindow. rewrite length_map. lia.
    - unfold clipWindow. rewrite length_map, Hlen, Hacc. reflexivity. }
  destruct (unlockAnswer ds); inversion Hup; subst; simpl;
    unfold clipWindow; rewrite length_map; repeat split; try lia; apply Hlog'.
Qed.

Lemma Forall_handles_weaken (bound bound' : Z) (hs : list soundHandle) :
  bound <= bound' ->
  Forall (fun h => 1 <= h < bound) hs -> Forall (fun h => 1 <= h < bound') hs.
Proof.
  intros Hb H. eapply Forall_impl; [exact H|]. simpl. intros h Hh. lia.
Qed.

Section RunFacts.

Variable assetFiles_ReadFile : string -> error + list byte.
Variable oggvorbis_ReadAll : list byte -> error + (list F32.t * oggFormat).
Variable mp3_NewDecoder : list byte -> error + mp3Decoder.

Lemma playLoopingAndQueued_inv (s s' : soundSystem) (path : string)
    (looping queued : bool) (h : soundHandle) (e : option error) :
  playLoopingAndQueued assetFiles_ReadFile oggvorbis_ReadAll mp3_NewDecoder
    s path looping queued = Returned ((h, e), s') ->
  nextHandle s < maxInt ->
  mixerInv s ->
  mixerInv s' /\ nextHandle s <= nextHandle s' <= nextHandle s + 1 /\
  mixBuffer s' = mixBuffer s.
Proof.
  unfold playLoopingAndQueued, maxInt.
  destruct (loadRawSamples _ _ _ s path) as [[err|raw] s1] eqn:Hload.
  - apply (f_equal fst) in Hload as Hfst. simpl in Hfst.
    apply loadRawSamples_failure in Hfst. rewrite Hload in Hfst.
    inversion Hfst; subst s1. intros H; inversion H; subst.
    intros; split; [assumption | split; [lia | reflexivity]].
  - apply loadRawSamples_success in Hload as (_ & _ & Hs1).
    assert (Hf : playingSounds s1 = playingSounds s /\ nextHandle s1 = nextHandle s /\
                 mixBuffer s1 = mixBuffer s /\ writeAheadBuffer s1 = writeAheadBuffer s /\
                 writeAheadMixBuffer s1 = writeAheadMixBuffer s)
      by (rewrite Hs1; simpl; auto 10).
    clear Hs1. destruct Hf as (E1 & E2 & E3 & E4 & E5).
    destruct raw as [|b raw]; [discriminate|].
    intros H Hroom (Hpos & Hnd & Hbound & Hout & Hacc & Hlog).
    inversion H; clear H; subst. unfold mixerInv. simpl. rewrite E1, E2, E3, E4, E5.
    rewrite int_id by (unfold inInt, minInt, maxInt; lia).
    rewrite map_app. simpl. repeat split; auto; try lia.
    + apply List.NoDup_app; [exact Hnd | repeat constructor; intros [] |].
      intros x Hx [<-|[]]. rewrite List.Forall_forall in Hbound.
      specialize (Hbound _ Hx). lia.
    + apply Forall_app. split.
      * eapply Forall_handles_weaken; [|exact Hbound]. lia.
      * repeat constructor; lia.
Qed.

Lemma apiStep_inv (s s' : soundSystem) (c : apiCall) (hs : list soundHandle) :
  apiStep assetFiles_ReadFile oggvorbis_ReadAll mp3_NewDecoder s c = Returned (hs, s') ->
  nextHandle s < maxInt ->
  mixerInv s ->
  mixerInv s' /\ nextHandle s' <= nextHandle s + 1.
Proof.
  intros Hstep Hroom Hinv.
  destruct c as [path|path|atEndOf path|h|h v|path|fuel ds]; simpl in Hstep.
  - apply obind_Returned in Hstep as ([[h e] s1] & Hplay & Hstep).
    inversion Hstep; subst.
    destruct (playLoopingAndQueued_inv _ _ _ _ _ _ _ Hplay Hroom Hinv) as (H1 & H2 & _).
    split; [exact H1 | lia].
  - apply obind_Returned in Hstep as ([[h e] s1] & Hplay & Hstep).
    inversion Hstep; subst.
    destruct (playLoopingAndQueued_inv _ _ _ _ _ _ _ Hplay Hroom Hinv) as (H1 & H2 & _).
    split; [exact H1 | lia].
  - apply obind_Returned in Hstep as ([[h e] s1] & Hq & Hstep).
    inversion Hstep; subst. unfold queueLoopAfter in Hq.
    apply obind_Returned in Hq as ([[h0 e0] s0] & Hplay & Hq).
    destruct (playLoopingAndQueued_inv _ _ _ _ _ _ _ Hplay Hroom Hinv) as (H1 & H2 & _).
    destruct e0; inversion Hq; subst; simpl; split; try lia; exact H1.
  - inversion Hstep; subst.
    destruct Hinv as (Hpos & Hnd & Hbound & Hout & Hacc & Hlog).
    unfold stop. destruct (removeFirst h (playingSounds s)) as [sounds'|] eqn:E; simpl.
    2:{ split; [repeat split; auto | lia]. }
    apply removeFirst_Some in E as (before & x & after & E & _ & _ & ->).
    rewrite E in Hnd, Hbound. rewrite map_app in Hnd, Hbound. simpl in Hnd, Hbound.
    apply List.NoDup_remove_1 in Hnd.
    apply Forall_app in Hbound as [Hb1 Hb2]. apply Forall_cons_iff in Hb2 as [_ Hb2].
    split; [|lia]. unfold mixerInv. simpl. rewrite map_app.
    repeat split; auto. apply Forall_app. now split.
  - inversion Hstep; subst.
    destruct Hinv as (Hpos & Hnd & Hbound & Hout & Hacc & Hlog).
    unfold setSpeed. destruct (setSpeedFirst h v (playingSounds s)) as [sounds'|] eqn:E; simpl.
    2:{ split; [repeat split; auto | lia]. }
    apply setSpeedFirst_Some in E as (before & x & after & E & _ & _ & ->).
    rewrite E in Hnd, Hbound. rewrite map_app in Hnd, Hbound. simpl in Hnd, Hbound.
    split; [|lia]. unfold mixerInv. simpl. rewrite map_app. simpl.
    repeat split; auto.
  - inversion Hstep; subst. unfold preload.
    destruct (loadRawSamples _ _ _ s path) as [[err|raw] s1] eqn:Hload; simpl.
    + apply (f_equal fst) in Hload as Hfst. simpl in Hfst.
      apply loadRawSamples_failure in Hfst. rewrite Hload in Hfst.
      inversion Hfst; subst s1. split; [assumption | lia].
    + apply loadRawSamples_success in Hload as (_ & _ & ->). split; [exact Hinv | simpl; lia].
  - apply obind_Returned in Hstep as ([e s1] & Hup & Hstep). inversion Hstep; subst. simpl.
    destruct Hinv as (Hpos & Hnd & Hbound & Hout & Hacc & Hlog).
    destruct (update_handles _ _ _ _ _ Hup) as (Hsub & Hnd').
    destruct (update_windows _ _ _ _ _ Hup Hout Hacc Hlog) as (Hout' & Hacc' & Hlog').
    pose proof (update_nextHandle _ _ _ _ _ Hup) as Hnext.
    split; [|lia]. unfold mixerInv. rewrite Hnext.
    repeat split; auto.
    apply List.Forall_forall. intros h Hh. rewrite List.Forall_forall in Hbound.
    apply Hbound, Hsub, Hh.
Qed.

Lemma runCalls_inv (calls : list apiCall) :
  forall s s' : soundSystem,
    runCalls assetFiles_ReadFile oggvorbis_ReadAll mp3_NewDecoder s calls = Returned s' ->
    nextHandle s + len calls <= maxInt ->
    mixerInv s ->
    mixerInv s'.
Proof.
  unfold len. induction calls as [|c rest IH]; intros s s' Hrun Hroom Hinv; simpl in Hrun.
  - now inversion Hrun; subst.
  - apply obind_Returned in Hrun as ([hs s1] & Hstep & Hrun). simpl in Hrun.
    simpl length in Hroom.
    destruct (apiStep_inv _ _ _ _ Hstep ltac:(lia) Hinv) as [Hinv1 Hnext].
    apply (IH s1 s' Hrun); [lia | exact Hinv1].
Qed.

Lemma initSoundSystem_inv (a : dsInitAnswers) (s0 : soundSystem) :
  initSoundSystem a = inr s0 -> mixerInv s0 /\ nextHandle s0 = 1.
Proof.
  unfold initSoundSystem. intros Hinit.
  repeat match type of Hinit with
         | match ?x with _ => _ end = _ => destruct x; try discriminate
         end.
  inversion Hinit; subst. split; [|reflexivity].
  unfold mixerInv. simpl. repeat split; try lia; try constructor; try reflexivity.
  repeat constructor.
Qed.

(** X18. From a started mixer on, along any run of fewer than [maxInt] calls,
    the handles of the sounds that are playing are pairwise distinct, and
    each is an issued handle: at least 1 and below [nextHandle]. So [stop]
    and [setSpeed] never have two sounds to choose from. *)
Theorem playing_handles_stay_distinct
    (a : dsInitAnswers) (s0 s : soundSystem) (calls : list apiCall) :
  initSoundSystem a = inr s0 ->
  len calls < maxInt ->
  runCalls assetFiles_ReadFile oggvorbis_ReadAll mp3_NewDecoder s0 calls = Returned s ->
  List.NoDup (map handle (playingSounds s)) /\
  Forall (fun h => 1 <= h < nextHandle s) (map handle (playingSounds s)).
Proof.
  intros Hinit Hlen Hrun. apply initSoundSystem_inv in Hinit as [Hinv Hnext].
  apply (runCalls_inv calls s0 s Hrun) in Hinv; [|lia].
  destruct Hinv as (_ & Hnd & Hbound & _). auto.
Qed.

(** X19. From a started mixer on, every [WriteRaw] that [update] makes starts
    at offset 0 of the locked region and writes the 4096 frames of the
    write-ahead window, which are exactly the 16384 bytes that it locked:
    [update] never writes past the region it was granted. *)
Theorem window_write_fits_locked_region
    (a : dsInitAnswers) (s0 s : soundSystem) (calls : list apiCall) :
  initSoundSystem a = inr s0 ->
  len calls < maxInt ->
  runCalls assetFiles_ReadFile oggvorbis_ReadAll mp3_NewDecoder s0 calls = Returned s ->
  Forall writesWholeWindow (mixBuffer s) /\
  len (writeAheadBuffer s) = soundWriteAheadSamples.
Proof.
  intros Hinit Hlen Hrun. apply initSoundSystem_inv in Hinit as [Hinv Hnext].
  apply (runCalls_inv calls s0 s Hrun) in Hinv; [|lia].
  destruct Hinv as (_ & _ & _ & Hout & _ & Hlog). auto.
Qed.

End RunFacts.

Lemma playing_handles_stay_distinct_witness :
  List.NoDup (map handle (playingSounds afterExampleCalls)) /\
  Forall (fun h => 1 <= h < nextHandle afterExampleCalls)
    (map handle (playingSounds afterExampleCalls)).
Proof.
  exact (playing_handles_stay_distinct someAssets noOgg noMp3 dsInitOk startedSystem
           afterExampleCalls exampleCalls
           ltac:(vm_compute; reflexivity)
           ltac:(vm_compute; reflexivity)
           ltac:(vm_compute; reflexivity)).
Defined.

Lemma window_write_fits_locked_region_witness :
  Forall writesWholeWindow (mixBuffer afterExampleCalls) /\
  len (writeAheadBuffer afterExampleCalls) = soundWriteAheadSamples.
Proof.
  exact (window_write_fits_locked_region someAssets noOgg noMp3 dsInitOk startedSystem
           afterExampleCalls exampleCalls
           ltac:(vm_compute; reflexivity)
           ltac:(vm_compute; reflexivity)
           ltac:(vm_compute; reflexivity)).
Defined.

(** ** Bytes and frames *)

Lemma Z_of_byte_of_Z (z : Z) : Z_of_byte (byte_of_Z z) = z mod 256.
Proof.
  unfold Z_of_byte, byte_of_Z.
  pose proof (Z.mod_pos_bound z 256 ltac:(lia)) as Hr.
  destruct (Byte.of_N (Z.to_N (z mod 256))) as [b|] eqn:E.
  - apply Byte.to_of_N in E. rewrite E. lia.
  - apply Byte.of_N_None_iff in E. lia.
Qed.

Lemma wrap_mod (w z : Z) : 0 < w -> wrap w (z mod 2 ^ w) = wrap w z.
Proof.
  intros Hw. unfold wrap. f_equal.
  assert (0 < 2 ^ w) by (apply Z.pow_pos_nonneg; lia).
  rewrite Z.add_mod_idemp_l by lia. reflexivity.
Qed.

Lemma int16OfBytes_bytesOfInt16 (z : Z) :
  int16OfBytes (byte_of_Z z) (byte_of_Z (Z.shiftr (z mod 65536) 8)) = int16 z.
Proof.
  unfold int16OfBytes. rewrite !Z_of_byte_of_Z, Z.shiftr_div_pow2 by lia.
  change (2 ^ 8) with 256.
  pose proof (Z.mod_pos_bound z 65536 ltac:(lia)) as Hr.
  assert (E : z mod 256 + 256 * ((z mod 65536 / 256) mod 256) = z mod 65536).
  { rewrite (Z.mod_small (z mod 65536 / 256)).
    2:{ split; [apply Z.div_pos; lia | apply Z.div_lt_upper_bound; lia]. }
    replace (z mod 256) with ((z mod 65536) mod 256).
    2:{ change 65536 with (256 * 256). rewrite Z.rem_mul_r by lia.
        rewrite Z.mul_comm, Z.mod_add by lia. apply Z.mod_mod. lia. }
    pose proof (Z.div_mod (z mod 65536) 256 ltac:(lia)). lia. }
  rewrite E. unfold int16. change 65536 with (2 ^ 16). apply wrap_mod. lia.
Qed.

(** X20. The two bytes that the ogg branch of [loadRawSamples] stores for a
    sample are read back by [play] as that sample: whatever values are
    stored, channel after channel, the clip has the frames made of these
    values (narrowed to [int16], which changes nothing for a value that
    is one), left before right, dropping a last lone channel value. *)
Theorem stored_samples_read_back (zs : list Z) :
  samplesOfBytes (flat_map bytesOfInt16 zs) = framesOf (map int16 zs).
Proof.
  assert (H : forall n zs, (length zs < n)%nat ->
              samplesOfBytes (flat_map bytesOfInt16 zs) = framesOf (map int16 zs)).
  { clear zs. induction n as [|n IH]; intros zs Hn; [lia|].
    destruct zs as [|l [|r rest]]; try reflexivity.
    simpl in Hn. cbn [flat_map bytesOfInt16 app map framesOf samplesOfBytes].
    rewrite !int16OfBytes_bytesOfInt16. f_equal. apply IH. lia. }
  apply (H (Datatypes.S (length zs))). lia.
Qed.

(** ** The distance on the ring *)

(** X21. When the two cursors are inside the ring buffer, the distance that
    [writeSampleDist] returns is a number of whole frames that is smaller
    than the ring, and stepping that many frames forward from [a], around
    the end of the ring, arrives at [b]. Equal cursors are distance 0: a
    full lap of the card between two frames is not seen. *)
Theorem writeSampleDist_leads_to_cursor (s : soundSystem) (a b d : Z) :
  mixBufferSize s <= maxInt ->
  0 <= a < mixBufferSize s ->
  0 <= b < mixBufferSize s ->
  writeSampleDist s a b = Returned d ->
  0 <= 4 * d < mixBufferSize s /\
  (a + 4 * d) mod mixBufferSize s = b /\
  (d = 0 <-> a = b).
Proof.
  intros Hsize Ha Hb H. rewrite writeSampleDist_circular in H by assumption.
  destruct (Z.eqb_spec ((b - a) mod mixBufferSize s mod 4) 0) as [E|E];
    simpl in H; [|discriminate].
  inversion H; subst d. clear H.
  pose proof (Z.mod_pos_bound (b - a) (mixBufferSize s) ltac:(lia)) as Hr.
  pose proof (Z.div_mod ((b - a) mod mixBufferSize s) 4 ltac:(lia)) as Hd.
  rewrite E in Hd.
  assert (E4 : 4 * ((b - a) mod mixBufferSize s / 4) = (b - a) mod mixBufferSize s) by lia.
  rewrite E4. split; [lia|]. split.
  - rewrite Z.add_mod_idemp_r by lia. replace (a + (b - a)) with b by lia.
    apply Z.mod_small. lia.
  - split.
    + intros H0. rewrite H0 in E4.
      destruct (Z.lt_trichotomy a b) as [Hlt|[Heq|Hgt]]; [|exact Heq|].
      * rewrite Z.mod_small in E4 by lia. lia.
      * replace (b - a) with (b - a + mixBufferSize s - 1 * mixBufferSize s) in E4 by lia.
        rewrite <- Z.add_opp_r, <- Z.mul_opp_l, Z.mod_add in E4 by lia.
        rewrite Z.mod_small in E4 by lia. lia.
    + intros ->. rewrite Z.sub_diag. reflexivity.
Qed.

Lemma writeSampleDist_leads_to_cursor_witness :
  0 <= 4 * 88199 < mixBufferSize startedSystem /\
  (8 + 4 * 88199) mod mixBufferSize startedSystem = 4 /\
  (88199 = 0 <-> 8 = 4).
Proof.
  exact (writeSampleDist_leads_to_cursor startedSystem 8 4 88199
           ltac:(vm_compute; discriminate)
           ltac:(vm_compute; split; [discriminate | reflexivity])
           ltac:(vm_compute; split; [discriminate | reflexivity])
           ltac:(vm_compute; reflexivity)).
Defined.

(** ** The order of the sounds *)

Lemma addSample_comm (m : mixSample) (f g : soundSample) :
  addSample (addSample m f) g = addSample (addSample m g) f.
Proof.
  unfold addSample. simpl. f_equal.
  assert (H : forall a b c, int32 (int32 (a + b) + c) = int32 (int32 (a + c) + b)).
  { intros a b c. unfold int32, wrap. f_equal.
    replace (a + b + 2 ^ (32 - 1)) with (a + b + 2 ^ 31) by reflexivity.
    replace (a + c + 2 ^ (32 - 1)) with (a + c + 2 ^ 31) by reflexivity.
    change (2 ^ (32 - 1)) with (2 ^ 31).
    replace ((a + b + 2 ^ 31) mod 2 ^ 32 - 2 ^ 31 + c + 2 ^ 31)
      with ((a + b + 2 ^ 31) mod 2 ^ 32 + c) by lia.
    replace ((a + c + 2 ^ 31) mod 2 ^ 32 - 2 ^ 31 + b + 2 ^ 31)
      with ((a + c + 2 ^ 31) mod 2 ^ 32 + b) by lia.
    rewrite !Z.add_mod_idemp_l by lia. f_equal. lia. }
  f_equal; apply H.
Qed.

Lemma mixSlot_comm (x y : soundState) (p q : float) (m : mixSample) :
  mixSlot y q (mixSlot x p m) = mixSlot x p (mixSlot y q m).
Proof.
  unfold mixSlot.
  destruct ((0 <=? round p) && (round p <? len (samples x))); [|reflexivity].
  destruct (samples x !! Z.to_nat (round p)) as [f|]; [|reflexivity].
  destruct ((0 <=? round q) && (round q <? len (samples y))); [|reflexivity].
  destruct (samples y !! Z.to_nat (round q)) as [g|]; [|reflexivity].
  apply addSample_comm.
Qed.

Lemma renderWindow_comm (fuel : nat) (x y : soundState) (mix : list mixSample) :
  forall (i : Z) (m1 m2 : list mixSample),
    renderWindow fuel x i mix = Returned m1 ->
    renderWindow fuel y i m1 = Returned m2 ->
    exists m1', renderWindow fuel y i mix = Returned m1' /\
                renderWindow fuel x i m1' = Returned m2.
Proof.
  induction mix as [|m rest IH]; intros i m1 m2 H1 H2; simpl in H1.
  - inversion H1; subst. simpl in H2. inversion H2; subst. exists []. auto.
  - apply obind_Returned in H1 as (p & Hp & H1).
    apply obind_Returned in H1 as (r1 & Hr1 & H1). inversion H1; subst m1. clear H1.
    simpl in H2.
    apply obind_Returned in H2 as (q & Hq & H2).
    apply obind_Returned in H2 as (r2 & Hr2 & H2). inversion H2; subst m2. clear H2.
    destruct (IH _ _ _ Hr1 Hr2) as (r1' & Hy & Hx).
    exists (mixSlot y q m :: r1'). simpl.
    rewrite Hq, Hy. simpl. rewrite Hp, Hx. simpl.
    now rewrite mixSlot_comm.
Qed.

(** X22. The window that a frame mixes does not depend on the order of
    [playingSounds]: mixing the same sounds in another order returns the
    same accumulator, and the same sounds in that other order. The sums
    are taken in [int32] with wrap-around, which is still commutative. *)
Theorem mix_is_independent_of_order
    (fuel : nat) (played : Z) (sounds other : list soundState) :
  Permutation sounds other ->
  forall (mix mix' : list mixSample) (sounds' : list soundState),
    mixSounds fuel played sounds mix = Returned (sounds', mix') ->
    exists other',
      mixSounds fuel played other mix = Returned (other', mix') /\
      Permutation sounds' other'.
Proof.
  induction 1 as [|x xs ys Hperm IH|x y xs|xs ys zs H1 IH1 H2 IH2];
    intros mix mix' sounds' Hmix.
  - simpl in Hmix. inversion Hmix; subst. exists []. auto.
  - simpl in Hmix |- *. destruct (queued x).
    + apply obind_Returned in Hmix as ([r1 r2] & Hr & Hmix). inversion Hmix; subst.
      destruct (IH _ _ _ Hr) as (o' & Ho & Hp). rewrite Ho. simpl.
      exists (x :: o'). split; [reflexivity | now constructor].
    + apply obind_Returned in Hmix as (p & Hp & Hmix).
      apply obind_Returned in Hmix as (m1 & Hm1 & Hmix).
      apply obind_Returned in Hmix as ([r1 r2] & Hr & Hmix). inversion Hmix; subst.
      destruct (IH _ _ _ Hr) as (o' & Ho & Hperm').
      rewrite Hp. simpl. rewrite Hm1. simpl. rewrite Ho. simpl.
      eexists. split; [reflexivity | now constructor].
  - simpl in Hmix |- *.
    destruct (queued y) eqn:Hqy, (queued x) eqn:Hqx.
    + apply obind_Returned in Hmix as ([r1 r2] & Hr & Hmix). inversion Hmix; subst. clear Hmix.
      apply obind_Returned in Hr as ([t1 t2] & Ht & Hr). inversion Hr; subst. clear Hr.
      rewrite Ht. simpl. eexists. split; [reflexivity | constructor].
    + apply obind_Returned in Hmix as ([r1 r2] & Hr & Hmix). inversion Hmix; subst. clear Hmix.
      apply obind_Returned in Hr as (p & Hp & Hr).
      apply obind_Returned in Hr as (m1 & Hm1 & Hr).
      apply obind_Returned in Hr as ([t1 t2] & Ht & Hr). inversion Hr; subst. clear Hr.
      rewrite Hp. simpl. rewrite Hm1. simpl. rewrite Ht. simpl.
      eexists. split; [reflexivity | constructor].
    + apply obind_Returned in Hmix as (p & Hp & Hmix).
      apply obind_Returned in Hmix as (m1 & Hm1 & Hmix).
      apply obind_Returned in Hmix as ([r1 r2] & Hr & Hmix). inversion Hmix; subst. clear Hmix.
      apply obind_Returned in Hr as ([t1 t2] & Ht & Hr). inversion Hr; subst. clear Hr.
      rewrite Hp. simpl. rewrite Hm1. simpl. rewrite Ht. simpl.
      eexists. split; [reflexivity | constructor].
    + apply obind_Returned in Hmix as (p & Hp & Hmix).
      apply obind_Returned in Hmix as (m1 & Hm1 & Hmix).
      apply obind_Returned in Hmix as ([r1 r2] & Hr & Hmix). inversion Hmix; subst. clear Hmix.
      apply obind_Returned in Hr as (q & Hq & Hr).
      apply obind_Returned in Hr as (m2 & Hm2 & Hr).
      apply obind_Returned in Hr as ([t1 t2] & Ht & Hr). inversion Hr; subst. clear Hr.
      destruct (renderWindow_comm _ _ _ _ _ _ _ Hm1 Hm2) as (m1' & Hx & Hy).
      rewrite Hq. simpl. rewrite Hx. simpl. rewrite Hp. simpl. rewrite Hy. simpl.
      rewrite Ht. simpl. eexists. split; [reflexivity | constructor].
  - destruct (IH1 _ _ _ Hmix) as (ys' & Hys & Hp1).
    destruct (IH2 _ _ _ Hys) as (zs' & Hzs & Hp2).
    exists zs'. split; [exact Hzs | now transitivity ys'].
Qed.

Lemma mix_is_independent_of_order_witness :
  exists other',
    mixSounds 0 3 (rev (playingSounds speedySystem)) [zeroMixSample; zeroMixSample]
      = Returned (other', snd mixedSpeedy) /\
    Permutation (fst mixedSpeedy) other'.
Proof.
  exact (mix_is_independent_of_order 0 3 (playingSounds speedySystem)
           (rev (playingSounds speedySystem))
           ltac:(vm_compute; apply perm_swap)
           [zeroMixSample; zeroMixSample] (snd mixedSpeedy) (fst mixedSpeedy)
           ltac:(vm_compute; reflexivity)).
Defined.

(** ** Starting the mixer *)

(** X23. [initSoundSystem] succeeds exactly when DirectSound grants all six
    calls, and then always builds the same mixer: a ring buffer of 352800
    bytes (two seconds; a whole number of four-byte frames, so that the
    alignment loop has nothing to add), nothing loaded, nothing playing,
    nothing chained, the first handle 1, and the region it locked to
    silence the buffer unlocked again. *)
Theorem initSoundSystem_builds_idle_mixer (a : dsInitAnswers) (s : soundSystem) :
  initSoundSystem a = inr s <->
  (a = dsInitOk /\
   mixBufferSize s = 352800 /\
   mixBufferSize s mod 4 = 0 /\
   lastWritePos s = 0 /\
   loadedSounds s = ∅ /\
   playingSounds s = [] /\
   queue s = [] /\
   nextHandle s = 1 /\
   lockHeld s = false /\
   s = newSoundSystem 352800).
Proof.
  split.
  - unfold initSoundSystem. destruct a as [a1 a2 a3 a4 a5 a6]. simpl.
    destruct a1, a2, a3, a4, a5, a6; try discriminate.
    intros H. inversion H; subst. repeat split.
  - intros (-> & _ & _ & _ & _ & _ & _ & _ & _ & ->). reflexivity.
Qed.

(** X24. The alignment loop of [initSoundSystem] leaves a size that is a
    multiple of four, at most three bytes above the size it was given,
    and leaves a multiple of four alone. *)
Theorem alignBufferSize_is_aligned (bufferSize : Z) :
  0 <= bufferSize < 2 ^ 32 - 3 ->
  alignBufferSize bufferSize mod 4 = 0 /\
  bufferSize <= alignBufferSize bufferSize < bufferSize + 4 /\
  (bufferSize mod 4 = 0 -> alignBufferSize bufferSize = bufferSize).
Proof.
  intros Hb. unfold alignBufferSize. simpl Nat.iter.
  pose proof (Z.mod_pos_bound bufferSize 4 ltac:(lia)) as Hr.
  pose proof (Z.div_mod bufferSize 4 ltac:(lia)) as Hd.
  assert (Hcases : bufferSize mod 4 = 0 \/ bufferSize mod 4 = 1 \/
                   bufferSize mod 4 = 2 \/ bufferSize mod 4 = 3) by lia.
  assert (Hstep : forall b k, 0 <= b < 2 ^ 32 - 1 -> b mod 4 = k -> 0 < k < 4 ->
            (if negb (b mod 4 =? 0) then (b + 1) mod 2 ^ 32 else b) = b + 1 /\
            (b + 1) mod 4 = (k + 1) mod 4).
  { intros b k Hb' Hk Hk'. rewrite Hk.
    destruct (Z.eqb_spec k 0); [lia|]. simpl.
    rewrite (Z.mod_small (b + 1)) by lia. split; [reflexivity|].
    rewrite <- Z.add_mod_idemp_l, Hk by lia. reflexivity. }
  assert (Hstay : forall b, b mod 4 = 0 ->
            (if negb (b mod 4 =? 0) then (b + 1) mod 2 ^ 32 else b) = b).
  { intros b ->. reflexivity. }
  destruct Hcases as [H0|[H1|[H2|H3]]].
  - rewrite !(Hstay bufferSize H0). repeat split; auto; lia.
  - destruct (Hstep bufferSize 1 ltac:(lia) H1 ltac:(lia)) as [-> E1].
    destruct (Hstep (bufferSize + 1) 2 ltac:(lia) E1 ltac:(lia)) as [-> E2].
    destruct (Hstep (bufferSize + 1 + 1) 3 ltac:(lia) E2 ltac:(lia)) as [-> E3].
    repeat split; first [lia | exact E3].
  - destruct (Hstep bufferSize 2 ltac:(lia) H2 ltac:(lia)) as [-> E1].
    destruct (Hstep (bufferSize + 1) 3 ltac:(lia) E1 ltac:(lia)) as [-> E2].
    change ((3 + 1) mod 4) with 0 in E2. rewrite (Hstay _ E2).
    repeat split; first [lia | exact E2].
  - destruct (Hstep bufferSize 3 ltac:(lia) H3 ltac:(lia)) as [-> E1].
    change ((3 + 1) mod 4) with 0 in E1. rewrite !(Hstay _ E1).
    repeat split; first [lia | exact E1].
Qed.

Lemma alignBufferSize_is_aligned_witness :
  alignBufferSize 176401 mod 4 = 0 /\
  176401 <= alignBufferSize 176401 < 176401 + 4 /\
  (176401 mod 4 = 0 -> alignBufferSize 176401 = 176401).
Proof.
  exact (alignBufferSize_is_aligned 176401
           ltac:(vm_compute; split; [discriminate | reflexivity])).
Defined.

(** ** The direction pad and the sticks *)

(** X25. [dpadTo100Degrees] reports the idle value [0xFFFF] exactly when no
    direction is pressed or two opposite directions are; otherwise it
    reports a direction in hundredths of a degree, a multiple of 4500
    below 36000, and turning the pressed directions a quarter clockwise
    (up to right, right to down, down to left, left to up) adds 9000,
    modulo the full circle. *)
Theorem dpadTo100Degrees_directions (up right down left : bool) :
  (dpadTo100Degrees up right down left = 0xFFFF <->
   (up || right || down || left = false) \/ (up && down = true) \/ (left && right = true)) /\
  (dpadTo100Degrees up right down left <> 0xFFFF ->
   0 <= dpadTo100Degrees up right down left < 36000 /\
   dpadTo100Degrees up right down left mod 4500 = 0 /\
   dpadTo100Degrees left up right down
     = (dpadTo100Degrees up right down left + 9000) mod 36000).
Proof.
  destruct up, right, down, left; vm_compute; split;
    try (split; intros; intuition discriminate);
    intros H; try (exfalso; apply H; reflexivity);
    repeat split; intros; discriminate.
Qed.

(** X26. [clampAxis] returns 0, 1, -1 or its argument; what it returns it
    returns again when applied to it; and it never returns a value inside
    the dead zone [-0.35, 0.35] other than 0. A NaN passes through. *)
Theorem clampAxis_snaps (rel : F32.t) :
  (clampAxis rel = S754_zero false \/ clampAxis rel = F32.of_Z 1 \/
   clampAxis rel = SFopp (F32.of_Z 1) \/ clampAxis rel = rel) /\
  clampAxis (clampAxis rel) = clampAxis rel /\
  (SFleb (SFopp axisMin) (clampAxis rel) && SFleb (clampAxis rel) axisMin = true ->
   clampAxis rel = S754_zero false) /\
  clampAxis S754_nan = S754_nan.
Proof.
  assert (H0 : clampAxis (S754_zero false) = S754_zero false) by (vm_compute; reflexivity).
  assert (H1 : clampAxis (F32.of_Z 1) = F32.of_Z 1) by (vm_compute; reflexivity).
  assert (H2 : clampAxis (SFopp (F32.of_Z 1)) = SFopp (F32.of_Z 1))
    by (vm_compute; reflexivity).
  assert (D1 : SFleb (SFopp axisMin) (F32.of_Z 1) && SFleb (F32.of_Z 1) axisMin = false)
    by (vm_compute; reflexivity).
  assert (D2 : SFleb (SFopp axisMin) (SFopp (F32.of_Z 1))
               && SFleb (SFopp (F32.of_Z 1)) axisMin = false)
    by (vm_compute; reflexivity).
  split; [|split; [|split]]; [| | |vm_compute; reflexivity].
  - unfold clampAxis.
    destruct (SFleb (SFopp axisMin) rel && SFleb rel axisMin); [auto|].
    destruct (SFltb axisMax rel); [auto|].
    destruct (SFltb rel (SFopp axisMax)); auto.
  - unfold clampAxis at 2 3.
    destruct (SFleb (SFopp axisMin) rel && SFleb rel axisMin) eqn:E1; [exact H0|].
    destruct (SFltb axisMax rel) eqn:E2; [exact H1|].
    destruct (SFltb rel (SFopp axisMax)) eqn:E3; [exact H2|].
    unfold clampAxis. now rewrite E1, E2, E3.
  - unfold clampAxis at 1 2 3.
    destruct (SFleb (SFopp axisMin) rel && SFleb rel axisMin) eqn:E1; [reflexivity|].
    destruct (SFltb axisMax rel) eqn:E2; [rewrite D1; discriminate|].
    destruct (SFltb rel (SFopp axisMax)) eqn:E3; [rewrite D2; discriminate|].
    rewrite E1. discriminate.
Qed.


(** ** The speed the game asks for *)

Lemma binary_round_aux_opp (p em : Z) (s : bool) (m e : Z) (l : location) :
  binary_round_aux p em (negb s) m e l = SFopp (binary_round_aux p em s m e l).
Proof.
  unfold binary_round_aux.
  destruct (shr_fexp p em m e l) as [mrs' e'].
  destruct (shr_fexp p em _ e' loc_Exact) as [mrs'' e''].
  destruct (shr_m mrs''); simpl; try reflexivity.
  destruct (e'' <=? em - p); reflexivity.
Qed.

Lemma SFmul_opp_l (p em : Z) (x y : spec_float) :
  SFmul p em (SFopp x) y = SFopp (SFmul p em x y).
Proof.
  destruct x as [sx|sx| |sx mx ex], y as [sy|sy| |sy my ey]; simpl; try reflexivity;
    try (now destruct sx, sy).
  rewrite <- binary_round_aux_opp. now destruct sx, sy.
Qed.

Lemma SFmul_opp_r (p em : Z) (x y : spec_float) :
  SFmul p em x (SFopp y) = SFopp (SFmul p em x y).
Proof.
  destruct x as [sx|sx| |sx mx ex], y as [sy|sy| |sy my ey]; simpl; try reflexivity;
    try (now destruct sx, sy).
  rewrite <- binary_round_aux_opp. now destruct sx, sy.
Qed.

Lemma mul_opp_l (x y : float) : (- x * y = - (x * y))%float.
Proof.
  apply Prim2SF_inj.
  rewrite FloatAxioms.mul_spec, !FloatAxioms.opp_spec, FloatAxioms.mul_spec.
  apply SFmul_opp_l.
Qed.

Lemma mul_opp_r (x y : float) : (x * - y = - (x * y))%float.
Proof.
  apply Prim2SF_inj.
  rewrite FloatAxioms.mul_spec, !FloatAxioms.opp_spec, FloatAxioms.mul_spec.
  apply SFmul_opp_r.
Qed.

Lemma opp_involutive (x : float) : (- - x = x)%float.
Proof.
  apply Prim2SF_inj. rewrite !FloatAxioms.opp_spec.
  destruct (Prim2SF x) as [s|s| |s m e]; simpl; try reflexivity; now rewrite negb_involutive.
Qed.

(** X27. [makeSoundSpeed] is odd, to the last bit: pushing the stick as far to
    the left as to the right asks for the same speed with the opposite
    sign, so the clip is played backwards exactly as fast as forwards. *)
Theorem makeSoundSpeed_is_odd (x : float) :
  makeSoundSpeed (- x) = (- makeSoundSpeed x)%float.
Proof.
  unfold makeSoundSpeed.
  rewrite (mul_opp_l x).
  set (x' := (x * 0x1.ccccccccccccdp-1)%float).
  rewrite (mul_opp_r 9 x'), (mul_opp_l (9 * x') (- x')), (mul_opp_r (9 * x') x').
  rewrite opp_involutive. apply mul_opp_r.
Qed.


(** ** What the removal loop does to the chain *)

Lemma soundFromHandle_ext (xs ys : list soundState) (h : soundHandle) :
  map handle xs = map handle ys -> soundFromHandle xs h = soundFromHandle ys h.
Proof.
  revert ys. induction xs as [|x xs IH]; intros [|y ys] H; simpl in *;
    try discriminate; [reflexivity|].
  inversion H as [[Hh Ht]]. rewrite Hh. destruct (h =? handle y); [reflexivity|].
  now rewrite (IH ys).
Qed.

Lemma lookup_same_handle (xs ys : list soundState) (i : nat) (x : soundState) :
  map handle xs = map handle ys -> xs !! i = Some x ->
  exists y, ys !! i = Some y /\ handle y = handle x.
Proof.
  intros H Hx.
  assert (Hh : map handle xs !! i = Some (handle x)) by (now rewrite list_lookup_fmap, Hx).
  rewrite H, list_lookup_fmap in Hh.
  destruct (ys !! i) as [y|]; simpl in Hh; [|discriminate].
  inversion Hh. eauto.
Qed.

Lemma soundFromHandle_Some (xs : list soundState) (h : soundHandle) (j : nat) :
  soundFromHandle xs h = Some j <->
  (exists x, xs !! j = Some x /\ handle x = h) /\
  (forall k y, (k < j)%nat -> xs !! k = Some y -> handle y <> h).
Proof.
  revert j. induction xs as [|x xs IH]; intros j; simpl.
  { split; [discriminate | intros [(y & Hy & _) _]; discriminate]. }
  destruct (Z.eqb_spec h (handle x)) as [->|Hne].
  - split.
    + intros H. inversion H; subst. split; [eauto|]. intros k y Hk. lia.
    + intros [_ Hfirst]. destruct j as [|j]; [reflexivity|].
      exfalso. apply (Hfirst O x); [lia | reflexivity | reflexivity].
  - destruct (soundFromHandle xs h) as [j'|] eqn:E; simpl.
    + split.
      * intros H. inversion H; subst. destruct (proj1 (IH j') eq_refl) as [Hfound Hfirst].
        split; [exact Hfound|]. intros [|k] y Hk Hy; simpl in Hy.
        -- inversion Hy; subst. congruence.
        -- apply (Hfirst k y); [lia | exact Hy].
      * intros [(y & Hy & Hh) Hfirst]. destruct j as [|j]; simpl in Hy.
        { inversion Hy; subst. congruence. }
        f_equal. assert (Hj : Some j' = Some j); [|now inversion Hj].
        apply IH. split; [eauto|]. intros k z Hk Hz. apply (Hfirst (Datatypes.S k) z); [lia|exact Hz].
    + split; [discriminate|]. intros [(y & Hy & Hh) Hfirst]. destruct j as [|j]; simpl in Hy.
      { inversion Hy; subst. congruence. }
      assert (Hj : None = Some j); [|discriminate].
      apply IH. split; [eauto|]. intros k z Hk Hz. apply (Hfirst (Datatypes.S k) z); [lia|exact Hz].
Qed.

Lemma set_queued_idempotent (x : soundState) :
  set_queued false (set_queued false x) = set_queued false x.
Proof. reflexivity. Qed.

Lemma filter_take_succ {A : Type} (keep : A -> bool) (xs : list A) (k : nat) (x : A) :
  xs !! k = Some x ->
  List.filter keep (take (Datatypes.S k) xs) =
    List.filter keep (take k xs) ++ (if keep x then [x] else []).
Proof.
  intros Hx. rewrite (take_S_r _ _ _ Hx), List.filter_app. reflexivity.
Qed.

Lemma scanFlag_take_succ (sounds : list soundState) (links : list consecutiveSounds)
    (a : soundHandle) (k j : nat) (q : consecutiveSounds) :
  links !! k = Some q ->
  scanFlag sounds (take (Datatypes.S k) links) a j =
    scanFlag sounds (take k links) a j
    || ((fst q =? a) && bool_decide (soundFromHandle sounds (snd q) = Some j)).
Proof.
  intros Hq. unfold scanFlag. rewrite (take_S_r _ _ _ Hq), existsb_app. simpl.
  now rewrite orb_false_r.
Qed.

Lemma chainStep_scanInv (sounds : list soundState) (links : list consecutiveSounds)
    (i k : nat) (x : soundState) (st : chainState) :
  sounds !! i = Some x ->
  (k < length links)%nat ->
  scanInv sounds links (handle x) k st ->
  scanInv sounds links (handle x) (Datatypes.S k) (chainStep i k st).
Proof.
  intros Hx Hk. destruct st as [[Sk Lk] qn]. intros Hinv.
  destruct Hinv as (Hh & Hqn & HL & HS). simpl in Hh, Hqn, HL, HS.
  destruct (lookup_lt_is_Some_2 links k Hk) as [q Hq].
  assert (Hqn_le : (qn <= k)%nat).
  { rewrite Hqn. etransitivity; [apply List.filter_length_le|]. rewrite length_take. lia. }
  assert (HLk : Lk !! k = Some q).
  { rewrite HL. rewrite lookup_app_r by (rewrite <- Hqn; exact Hqn_le).
    rewrite <- Hqn, lookup_drop. replace (qn + (k - qn))%nat with k by lia. exact Hq. }
  destruct (lookup_same_handle sounds Sk i x (eq_sym Hh) Hx) as (over & Hover & Ha).
  assert (Estep : chainStep i k (Sk, Lk, qn) =
            if fst q =? handle x then
              match soundFromHandle sounds (snd q) with
              | Some j => (alter (set_queued false) j Sk, Lk, qn)
              | None => (Sk, Lk, qn)
              end
            else (Sk, <[qn := q]> Lk, Datatypes.S qn)).
  { unfold chainStep. cbv beta iota zeta.
    unfold consecutiveSounds, soundHandle in *. rewrite HLk, Hover, Ha.
    now rewrite (soundFromHandle_ext Sk sounds (snd q) Hh). }
  rewrite Estep. clear Estep. unfold scanInv.
  rewrite (filter_take_succ _ _ _ _ Hq).
  change (unchained (handle x) q) with (negb (fst q =? handle x)).
  destruct (Z.eqb_spec (fst q) (handle x)) as [Eq|Ne]; simpl.
  - (* the link fires *)
    destruct (soundFromHandle sounds (snd q)) as [j0|] eqn:Efollow; simpl.
    + rewrite app_nil_r. repeat split; auto.
      * rewrite <- Hh. clear. revert j0. induction Sk as [|y Sk IH]; intros [|j0]; simpl; auto.
        f_equal. apply IH.
      * intros j. rewrite (scanFlag_take_succ _ _ _ _ _ _ Hq), Eq, Z.eqb_refl, Efollow. simpl.
        destruct (decide (j = j0)) as [->|Hj].
        -- rewrite list_lookup_alter_eq, HS.
           rewrite bool_decide_eq_true_2 by reflexivity. rewrite orb_true_r.
           destruct (sounds !! j0) as [y|]; simpl; [|reflexivity].
           now destruct (scanFlag sounds (take k links) (handle x) j0).
        -- rewrite list_lookup_alter_ne by congruence. rewrite HS.
           rewrite bool_decide_eq_false_2 by congruence. now rewrite orb_false_r.
    + rewrite app_nil_r. repeat split; auto.
      intros j. rewrite (scanFlag_take_succ _ _ _ _ _ _ Hq), Eq, Z.eqb_refl, Efollow. simpl.
      rewrite ?bool_decide_eq_false_2 by discriminate. rewrite ?orb_false_r. apply HS.
  - (* the link is copied forward *)
    repeat split; auto.
    + rewrite List.length_app. simpl. lia.
    + rewrite HL.
      rewrite insert_app_r_alt by (rewrite <- Hqn; lia).
      rewrite <- Hqn, Nat.sub_diag, <- app_assoc. f_equal.
      replace (qn + 1)%nat with (Datatypes.S qn) by lia.
      assert (Hlt : (qn < length links)%nat) by lia.
      destruct (lookup_lt_is_Some_2 links qn Hlt) as [q' Hq'].
      rewrite (drop_S _ _ _ Hq'). reflexivity.
    + intros j. rewrite (scanFlag_take_succ _ _ _ _ _ _ Hq).
      apply Z.eqb_neq in Ne. rewrite Ne. simpl. rewrite orb_false_r. apply HS.
Qed.

Lemma chainScan_spec (sounds : list soundState) (links : list consecutiveSounds)
    (i : nat) (x : soundState) :
  sounds !! i = Some x ->
  scanInv sounds links (handle x) (length links)
    (forRange (length links) 0 (chainStep i) (sounds, links, O)).
Proof.
  intros Hx.
  apply (forRange_ind (scanInv sounds links (handle x)) (chainStep i)
           (length links) O (sounds, links, O)).
  - intros j t Hj. apply chainStep_scanInv; [exact Hx | lia].
  - unfold scanInv. simpl. rewrite drop_0. repeat split.
    intros j. destruct (sounds !! j); reflexivity.
Qed.

Lemma NoDup_handles_index (xs : list soundState) :
  List.NoDup (map handle xs) ->
  forall j k y z, xs !! j = Some y -> xs !! k = Some z -> handle y = handle z -> j = k.
Proof.
  induction xs as [|a xs IH]; intros Hnd j k y z Hj Hk Hh; [discriminate|].
  simpl in Hnd. apply List.NoDup_cons_iff in Hnd as [Hna Hnd].
  destruct j as [|j], k as [|k]; simpl in Hj, Hk.
  - reflexivity.
  - inversion Hj; subst a. exfalso. apply Hna. rewrite Hh. apply in_map.
    apply list_elem_of_In. eapply list_elem_of_lookup_2; eauto.
  - inversion Hk; subst a. exfalso. apply Hna. rewrite <- Hh. apply in_map.
    apply list_elem_of_In. eapply list_elem_of_lookup_2; eauto.
  - f_equal. eapply IH; eauto.
Qed.

Lemma startIfChained_handle (sounds : list soundState) (links : list consecutiveSounds)
    (x : soundState) :
  handle (startIfChained sounds links x) = handle x /\
  isOver (startIfChained sounds links x) = isOver x.
Proof. unfold startIfChained. destruct (startedBy _ _ _); auto. Qed.

Lemma startedBy_snoc (xs : list soundState) (x : soundState)
    (links : list consecutiveSounds) (h : soundHandle) :
  startedBy (xs ++ [x]) links h =
    startedBy xs links h
    || (isOver x && existsb (fun q => (snd q =? h) && (fst q =? handle x)) links).
Proof.
  unfold startedBy. induction links as [|q links IH]; simpl.
  - now rewrite andb_false_r.
  - rewrite IH, existsb_app. simpl.
    repeat match goal with
           | |- context [existsb ?f ?l] =>
               let b := fresh "b" in set (b := existsb f l); clearbody b
           end.
    repeat match goal with
           | |- context [Z.eqb ?u ?v] =>
               let b := fresh "b" in set (b := Z.eqb u v); clearbody b
           end.
    destruct (isOver x);
      repeat match goal with b : bool |- _ => destruct b end; reflexivity.
Qed.

Lemma reclaimed_snoc_notOver (xs : list soundState) (x : soundState)
    (links : list consecutiveSounds) :
  isOver x = false ->
  reclaimed (xs ++ [x]) links = reclaimed xs links ++ [startIfChained xs links x] /\
  forall y, startIfChained (xs ++ [x]) links y = startIfChained xs links y.
Proof.
  intros Hx.
  assert (Hs : forall y, startIfChained (xs ++ [x]) links y = startIfChained xs links y).
  { intros y. unfold startIfChained. rewrite startedBy_snoc, Hx. simpl.
    now rewrite orb_false_r. }
  split; [|exact Hs].
  unfold reclaimed. rewrite List.filter_app. simpl. unfold notOver at 2. rewrite Hx. simpl.
  rewrite map_app. simpl. rewrite Hs. f_equal. apply map_ext. intros y. apply Hs.
Qed.

Lemma existsb_eq_iff {A : Type} (f g : A -> bool) (xs ys : list A) :
  ((exists x, In x xs /\ f x = true) <-> (exists y, In y ys /\ g y = true)) ->
  existsb f xs = existsb g ys.
Proof.
  intros H. apply eq_true_iff_eq. rewrite !existsb_exists. exact H.
Qed.

(** Where the scan for the finished sound at index [i] clears [queued]:
    at an index in the compacted part or behind [i], exactly when a link
    of the original list chains that sound to the finished one. *)
Lemma scanFlag_live (sounds0 : list soundState) (links0 : list consecutiveSounds)
    (i : nat) (st : chainState) (x0 : soundState) (j : nat) (y : soundState) :
  List.NoDup (map handle sounds0) ->
  reclaimSpecInv sounds0 links0 i st ->
  sounds0 !! i = Some x0 ->
  st.1.1 !! j = Some y ->
  (j < st.2)%nat \/ (i < j)%nat ->
  scanFlag st.1.1 st.1.2 (handle x0) j =
    existsb (fun q => (snd q =? handle y) && (fst q =? handle x0)) links0.
Proof.
  destruct st as [[S L] n]. simpl.
  intros Hnd (H1 & H2 & H3 & H4 & H5 & H6 & H7 & H8) Hx0 Hy Hj. simpl in *.
  assert (Hi : (i < length sounds0)%nat) by (eapply lookup_lt_Some; eauto).
  (* the handles of the compacted part are handles of sounds before [i] *)
  assert (Hlow : forall k z, (k < n)%nat -> S !! k = Some z ->
            exists k' z', (k' < i)%nat /\ sounds0 !! k' = Some z' /\ handle z' = handle z).
  { intros k z Hk Hz.
    assert (Hz' : take n S !! k = Some z) by (rewrite lookup_take_lt; auto).
    rewrite H3 in Hz'. unfold reclaimed in Hz'. rewrite list_lookup_fmap in Hz'.
    destruct (List.filter notOver (take i sounds0) !! k) as [z0|] eqn:Ez0;
      simpl in Hz'; [|discriminate].
    inversion Hz'; subst z. clear Hz'.
    apply list_elem_of_lookup_2, list_elem_of_In, filter_In in Ez0 as [Hin _].
    apply list_elem_of_In, list_elem_of_lookup in Hin as [k' Hk'].
    rewrite lookup_take in Hk'. destruct (decide (k' < i)%nat); [|discriminate].
    exists k', z0. repeat split; auto.
    symmetry. apply startIfChained_handle. }
  (* the handles from [n] on are the original ones *)
  assert (Hhigh : forall k z, (n <= k)%nat -> S !! k = Some z ->
            exists z', sounds0 !! k = Some z' /\ handle z' = handle z).
  { intros k z Hk Hz.
    assert (Hz' : map handle (drop n S) !! (k - n)%nat = Some (handle z)).
    { rewrite list_lookup_fmap, lookup_drop.
      replace (n + (k - n))%nat with k by lia. now rewrite Hz. }
    rewrite H5, list_lookup_fmap, lookup_drop in Hz'.
    replace (n + (k - n))%nat with k in Hz' by lia.
    destruct (sounds0 !! k) as [z'|]; simpl in Hz'; [|discriminate].
    inversion Hz'. eauto. }
  (* the handles of the compacted part are pairwise distinct *)
  assert (Hnd_low : List.NoDup (map handle (take n S))).
  { rewrite H3. unfold reclaimed. rewrite map_map.
    rewrite (map_ext _ handle) by (intros z; apply startIfChained_handle).
    apply NoDup_map_filter.
    rewrite <- (take_drop i sounds0), map_app in Hnd.
    now apply List.NoDup_app_remove_r in Hnd. }
  (* index [j] is the first one with its handle *)
  assert (Hfirst : soundFromHandle S (handle y) = Some j).
  { apply soundFromHandle_Some. split; [eauto|].
    intros k z Hk Hz Heq.
    destruct Hj as [Hj|Hj].
    - assert (k = j); [|lia].
      apply (NoDup_handles_index (take n S) Hnd_low k j z y); auto;
        rewrite lookup_take_lt; auto; lia.
    - destruct (Hhigh j y ltac:(lia) Hy) as (y' & Hy' & Hhy).
      destruct (le_lt_dec n k) as [Hnk|Hkn].
      + destruct (Hhigh k z Hnk Hz) as (z' & Hz' & Hhz).
        assert (k = j); [|lia].
        apply (NoDup_handles_index sounds0 Hnd k j z' y'); auto. congruence.
      + destruct (Hlow k z Hkn Hz) as (k' & z' & Hk' & Hz' & Hhz).
        assert (k' = j); [|lia].
        apply (NoDup_handles_index sounds0 Hnd k' j z' y'); auto. congruence. }
  unfold scanFlag. apply existsb_eq_iff. split.
  - intros (q & Hq & Hb). apply andb_true_iff in Hb as [Ha Hb].
    apply Z.eqb_eq in Ha. apply bool_decide_eq_true in Hb.
    exists q. split; [now apply H7|].
    apply soundFromHandle_Some in Hb as [(y1 & Hy1 & Hh1) _].
    rewrite Hy in Hy1. inversion Hy1; subst y1.
    apply andb_true_iff. split; apply Z.eqb_eq; auto.
  - intros (q & Hq & Hb). apply andb_true_iff in Hb as [Hb Ha].
    apply Z.eqb_eq in Ha, Hb.
    exists q. split.
    + apply H8; [exact Hq|]. intros o Ho _ Heq.
      apply list_elem_of_In, list_elem_of_lookup in Ho as [k Hk].
      rewrite lookup_take in Hk. destruct (decide (k < i)%nat); [|discriminate].
      assert (k = i); [|lia].
      apply (NoDup_handles_index sounds0 Hnd k i o x0); auto.
      etransitivity; [symmetry; exact Heq | exact Ha].
    + apply andb_true_iff. split; [now apply Z.eqb_eq|].
      apply bool_decide_eq_true. etransitivity; [|exact Hfirst]. f_equal. exact Hb.
Qed.

Lemma startIfChained_snoc_over (xs : list soundState) (x0 : soundState)
    (links : list consecutiveSounds) (y0 : soundState) :
  isOver x0 = true ->
  startIfChained (xs ++ [x0]) links y0 =
    (if existsb (fun q => (snd q =? handle y0) && (fst q =? handle x0)) links
     then set_queued false (startIfChained xs links y0)
     else startIfChained xs links y0).
Proof.
  intros Hx. unfold startIfChained. rewrite startedBy_snoc, Hx. simpl.
  destruct (startedBy xs links (handle y0));
    match goal with |- context [existsb ?f links] => destruct (existsb f links) end;
    reflexivity.
Qed.

Lemma reclaimStep_specInv (sounds0 : list soundState) (links0 : list consecutiveSounds)
    (i : nat) (st : chainState) :
  List.NoDup (map handle sounds0) ->
  (i < length sounds0)%nat ->
  reclaimSpecInv sounds0 links0 i st ->
  reclaimSpecInv sounds0 links0 (Datatypes.S i) (reclaimStep i st).
Proof.
  intros Hnd Hi Hinv.
  destruct (lookup_lt_is_Some_2 sounds0 i Hi) as [x0 Hx0].
  pose proof (fun j y => scanFlag_live sounds0 links0 i st x0 j y Hnd Hinv Hx0) as Hflag.
  destruct st as [[S L] n].
  destruct Hinv as (H1 & H2 & H3 & H4 & H5 & H6 & H7 & H8). simpl in *.
  set (xs := take i sounds0) in *.
  assert (Etake : take (Datatypes.S i) sounds0 = xs ++ [x0]) by (now apply take_S_r).
  assert (HSi : S !! i = Some (startIfChained xs links0 x0)).
  { assert (E : drop i S !! O = Some (startIfChained xs links0 x0)).
    { rewrite H4, list_lookup_fmap, lookup_drop, Nat.add_0_r, Hx0. reflexivity. }
    rewrite lookup_drop, Nat.add_0_r in E. exact E. }
  destruct (startIfChained_handle xs links0 x0) as [Hhx Hox].
  assert (Hn : (n < length S)%nat) by lia.
  unfold reclaimStep. rewrite HSi, Hox.
  destruct (isOver x0) eqn:Hover.
  - (* the sound at [i] is over: the chain list is scanned *)
    pose proof (chainScan_spec S L i _ HSi) as Hscan. rewrite Hhx in Hscan.
    destruct (forRange (length L) 0 (chainStep i) (S, L, O)) as [[S' L'] qn].
    destruct Hscan as (Hh & Hqn & HL & HS). simpl in Hh, Hqn, HL, HS.
    rewrite firstn_all in Hqn, HL, HS.
    assert (Hlen : length S' = length S).
    { rewrite <- (length_map handle S'), Hh. apply length_map. }
    assert (Hqn_le : (qn <= length L)%nat).
    { rewrite Hqn. apply List.filter_length_le. }
    unfold reclaimSpecInv. simpl. rewrite Etake.
    split; [lia|]. split; [lia|]. split; [|split; [|split; [|split; [|split]]]].
    + (* the compacted part *)
      unfold reclaimed. rewrite List.filter_app. simpl. unfold notOver at 2.
      rewrite Hover. simpl. rewrite app_nil_r.
      apply list_eq. intros j. rewrite list_lookup_fmap.
      destruct (decide (j < n)%nat) as [Hj|Hj].
      * rewrite lookup_take_lt by exact Hj. rewrite HS.
        assert (E : S !! j = startIfChained xs links0 <$> List.filter notOver xs !! j).
        { rewrite <- (lookup_take_lt S n j Hj), H3. unfold reclaimed.
          apply list_lookup_fmap. }
        destruct (List.filter notOver xs !! j) as [y0|] eqn:Ey0; rewrite E; simpl;
          [|reflexivity].
        f_equal. rewrite (Hflag j _ E (or_introl Hj)).
        rewrite (proj1 (startIfChained_handle xs links0 y0)).
        now rewrite startIfChained_snoc_over.
      * rewrite lookup_take_ge by lia.
        assert (E : length (List.filter notOver xs) = n).
        { rewrite <- (length_map (startIfChained xs links0)).
          change (map (startIfChained xs links0) (List.filter notOver xs))
            with (reclaimed xs links0).
          rewrite <- H3, length_take. lia. }
        rewrite (proj2 (lookup_ge_None _ _)) by lia. reflexivity.
    + (* the sounds behind [i] *)
      apply list_eq. intros j. rewrite list_lookup_fmap, !lookup_drop, HS.
      assert (E : S !! (Datatypes.S i + j)%nat
                  = startIfChained xs links0 <$> sounds0 !! (Datatypes.S i + j)%nat).
      { replace (Datatypes.S i + j)%nat with (i + Datatypes.S j)%nat by lia.
        rewrite <- (lookup_drop S), H4, list_lookup_fmap, lookup_drop. reflexivity. }
      assert (Hij : (i < Datatypes.S i + j)%nat) by lia.
      destruct (sounds0 !! (Datatypes.S i + j)%nat) as [y0|] eqn:Ey0; rewrite E;
        [|reflexivity].
      rewrite (Hflag (Datatypes.S i + j)%nat _ E (or_intror Hij)).
      rewrite (proj1 (startIfChained_handle xs links0 y0)).
      simpl. f_equal. now rewrite startIfChained_snoc_over.
    + (* the handles from [n] on *)
      rewrite <- H5. change (map handle (drop n S')) with (handle <$> drop n S').
      change (map handle (drop n S)) with (handle <$> drop n S).
      rewrite !fmap_drop. f_equal. exact Hh.
    + rewrite HL, List.length_app, length_drop, <- Hqn. lia.
    + intros q Hq. apply H7. rewrite HL in Hq. apply in_app_or in Hq as [Hq|Hq].
      * now apply filter_In in Hq.
      * rewrite <- (take_drop qn L). apply in_or_app. now right.
    + intros q Hq Hlive. rewrite HL. apply in_or_app. left. apply filter_In. split.
      * apply H8; [exact Hq|]. intros o Ho. apply Hlive. apply in_or_app. now left.
      * unfold unchained. apply negb_true_iff, Z.eqb_neq.
        apply Hlive; [apply in_or_app; right; now left | exact Hover].
  - (* the sound at [i] stays: it is copied to index [n] *)
    destruct (reclaimed_snoc_notOver xs x0 links0 Hover) as [Hrec Hsame].
    unfold reclaimSpecInv. simpl. rewrite Etake.
    split; [lia|]. split; [now rewrite length_insert|].
    split; [|split; [|split; [|split; [|split]]]].
    + rewrite Hrec, <- H3.
      rewrite (take_S_r (<[n:=startIfChained xs links0 x0]> S) n (startIfChained xs links0 x0))
        by (now apply list_lookup_insert_eq).
      now rewrite take_insert_ge by lia.
    + rewrite drop_insert_lt by lia.
      rewrite (map_ext _ _ Hsame).
      replace (Datatypes.S i) with (i + 1)%nat by lia.
      rewrite <- !drop_drop, H4.
      change (map (startIfChained xs links0) (drop i sounds0))
        with (startIfChained xs links0 <$> drop i sounds0).
      change (map (startIfChained xs links0) (drop 1 (drop i sounds0)))
        with (startIfChained xs links0 <$> drop 1 (drop i sounds0)).
      rewrite !fmap_drop. reflexivity.
    + rewrite drop_insert_lt by lia.
      replace (Datatypes.S n) with (n + 1)%nat by lia.
      rewrite <- !drop_drop.
      change (map handle (drop 1 (drop n S))) with (handle <$> drop 1 (drop n S)).
      change (map handle (drop 1 (drop n sounds0))) with (handle <$> drop 1 (drop n sounds0)).
      rewrite !fmap_drop. f_equal. rewrite <- !fmap_drop. exact H5.
    + exact H6.
    + exact H7.
    + intros q Hq Hlive. apply H8; [exact Hq|].
      intros o Ho. apply Hlive. apply in_or_app. now left.
Qed.

Lemma startedBy_nil (links : list consecutiveSounds) (h : soundHandle) :
  startedBy [] links h = false.
Proof.
  unfold startedBy. induction links as [|q links IH]; simpl; [reflexivity|].
  now rewrite andb_false_r.
Qed.

(** On sounds with distinct handles, the removal loop of [update] leaves
    the sounds that are not over, in their order, and each of them that a
    link chains to a sound that is over has [queued] cleared. *)
Lemma reclaim_spec (sounds : list soundState) (links : list consecutiveSounds) :
  List.NoDup (map handle sounds) ->
  (reclaim sounds links).1 = reclaimed sounds links /\
  length (reclaim sounds links).2 = length links /\
  (forall q, In q (reclaim sounds links).2 -> In q links) /\
  (forall q, In q links ->
     (forall o, In o sounds -> isOver o = true -> fst q <> handle o) ->
     In q (reclaim sounds links).2).
Proof.
  intros Hnd. unfold reclaim.
  pose proof (forRange_ind (reclaimSpecInv sounds links) reclaimStep (length sounds) O
                (sounds, links, O)) as Hloop.
  simpl in Hloop.
  destruct (forRange (length sounds) 0 reclaimStep (sounds, links, O))
    as [[sounds' links'] n].
  destruct Hloop as (H1 & H2 & H3 & H4 & H5 & H6 & H7 & H8).
  - intros j t Hj. apply reclaimStep_specInv; [exact Hnd | lia].
  - unfold reclaimSpecInv. simpl. rewrite !drop_0.
    repeat split; auto.
    rewrite <- (map_id sounds) at 1. apply map_ext. intros y.
    unfold startIfChained. change (take 0 sounds) with (@nil soundState).
    now rewrite startedBy_nil.
  - simpl in *. rewrite firstn_all in H3, H8. repeat split; auto.
Qed.

Lemma advancedBy_queued (fuel : nat) (played : Z) (x y : soundState) :
  advancedBy fuel played x y -> queued y = queued x.
Proof.
  unfold advancedBy. destruct (queued x) eqn:E; [now intros ->|].
  intros (p' & _ & ->). exact E.
Qed.

Lemma startedBy_true (sounds : list soundState) (links : list consecutiveSounds)
    (h : soundHandle) :
  startedBy sounds links h = true <->
  exists a o, In (a, h) links /\ In o sounds /\ isOver o = true /\ handle o = a.
Proof.
  unfold startedBy. rewrite existsb_exists. split.
  - intros ([a b] & Hq & Hb). apply andb_true_iff in Hb as [Hb Ho]. simpl in Hb, Ho.
    apply Z.eqb_eq in Hb. subst b.
    apply existsb_exists in Ho as (o & Ho & Hb). apply andb_true_iff in Hb as [Hover Ha].
    apply Z.eqb_eq in Ha. exists a, o. auto.
  - intros (a & o & Hq & Ho & Hover & Ha). exists (a, h). split; [exact Hq|]. simpl.
    rewrite Z.eqb_refl. simpl. apply existsb_exists. exists o. split; [exact Ho|].
    rewrite Hover. simpl. apply Z.eqb_eq. now rewrite Ha.
Qed.

Lemma reclaimed_handles (sounds : list soundState) (links : list consecutiveSounds) :
  map handle (map snapshotSpeed (reclaimed sounds links))
    = map handle (List.filter notOver sounds).
Proof.
  unfold reclaimed. rewrite !map_map. apply map_ext. intros x. simpl.
  apply startIfChained_handle.
Qed.

(** A sound ended in a frame when its handle was playing before the
    removal and is not afterwards: with distinct handles, that is when
    the sound with that handle is over. *)
Lemma ended_in_frame (sounds : list soundState) (links : list consecutiveSounds)
    (a : soundHandle) :
  List.NoDup (map handle sounds) ->
  (exists o, In o sounds /\ isOver o = true /\ handle o = a) <->
  (In a (map handle sounds) /\
   ~ In a (map handle (map snapshotSpeed (reclaimed sounds links)))).
Proof.
  intros Hnd. rewrite reclaimed_handles. split.
  - intros (o & Ho & Hover & Ha). split; [rewrite <- Ha; now apply in_map|].
    intros Hin. apply in_map_iff in Hin as (o' & Ha' & Hin').
    apply filter_In in Hin' as [Hin' Hnot].
    apply list_elem_of_In, list_elem_of_lookup in Ho as [k Hk].
    assert (o' = o) by (apply (NoDup_handle_lookup sounds k o o' Hnd Hk Hin'); congruence).
    subst o'. unfold notOver in Hnot. rewrite Hover in Hnot. discriminate.
  - intros [Hin Hnot]. apply in_map_iff in Hin as (o & Ha & Ho).
    exists o. split; [exact Ho|]. split; [|exact Ha].
    destruct (isOver o) eqn:Hover; [reflexivity|]. exfalso. apply Hnot.
    rewrite <- Ha. apply in_map. apply filter_In. split; [exact Ho|].
    unfold notOver. now rewrite Hover.
Qed.

Lemma completed_frame_reclaimed (fuel : nat) (ds : dsAnswers) (s s' : soundSystem) :
  update fuel ds s = Returned (None, s') ->
  List.NoDup (map handle (playingSounds s)) ->
  exists played advanced,
    Forall2 (advancedBy fuel played) (playingSounds s) advanced /\
    map handle advanced = map handle (playingSounds s) /\
    playingSounds s' = map snapshotSpeed (reclaimed advanced (queue s)) /\
    queue s' = (reclaim advanced (queue s)).2.
Proof.
  intros Hup Hnd.
  destruct (lockAnswer ds) as [err|] eqn:Hlock.
  { unfold update in Hup. rewrite Hlock in Hup. discriminate. }
  destruct (positionAnswer ds) as [err|write] eqn:Hpos.
  { unfold update in Hup. rewrite Hlock, Hpos in Hup. discriminate. }
  destruct (update_after_cursor _ _ _ _ _ _ Hlock Hpos Hup)
    as (played & advanced & mix' & _ & Hmix & _ & He & Hrest).
  destruct (unlockAnswer ds); [discriminate|]. destruct Hrest as (Hp & Hq & _).
  apply mixSounds_advance_render in Hmix as (Hadv & _).
  pose proof (advancedBy_handles _ _ _ _ Hadv) as Hh.
  exists played, advanced. repeat split; auto.
  rewrite Hp. f_equal. apply reclaim_spec. now rewrite Hh.
Qed.

(** X28. A completed frame clears [queued] exactly on the sounds that a link
    chains to a sound that ended in this frame (its handle was playing
    before the frame and is not after it). For every sound left after the
    frame: it is not queued if and only if it was not queued before, or
    the chain list has a link from a sound that ended in the frame to
    it. Handles are assumed distinct, as they are in every run. *)
Theorem chained_sound_starts_when_its_leader_ends
    (fuel : nat) (ds : dsAnswers) (s s' : soundSystem) (y' : soundState) :
  update fuel ds s = Returned (None, s') ->
  List.NoDup (map handle (playingSounds s)) ->
  In y' (playingSounds s') ->
  exists y,
    In y (playingSounds s) /\ handle y = handle y' /\
    (queued y' = false <->
     queued y = false \/
     exists a, In (a, handle y) (queue s) /\
               In a (map handle (playingSounds s)) /\
               ~ In a (map handle (playingSounds s'))).
Proof.
  intros Hup Hnd Hin.
  destruct (completed_frame_reclaimed _ _ _ _ Hup Hnd)
    as (played & advanced & Hadv & Hh & Hp & _).
  assert (Hnd' : List.NoDup (map handle advanced)) by now rewrite Hh.
  rewrite Hp in Hin. apply in_map_iff in Hin as (z' & <- & Hin).
  unfold reclaimed in Hin. apply in_map_iff in Hin as (z & <- & Hin).
  apply filter_In in Hin as [Hz _].
  destruct (Forall2_In_r _ _ _ _ Hadv Hz) as (y & Hy & Hyz).
  pose proof (advancedBy_handle _ _ _ _ Hyz) as Hhz.
  pose proof (advancedBy_queued _ _ _ _ Hyz) as Hqz.
  exists y. split; [exact Hy|].
  split; [simpl; rewrite (proj1 (startIfChained_handle _ _ _)); now symmetry|].
  assert (Hstart : startedBy advanced (queue s) (handle z) = true <->
            exists a, In (a, handle y) (queue s) /\
                      In a (map handle (playingSounds s)) /\
                      ~ In a (map handle (playingSounds s'))).
  { rewrite startedBy_true, Hhz, Hp, <- Hh. split.
    - intros (a & o & Hq & Ho & Hover & Ha). exists a. split; [exact Hq|].
      apply (ended_in_frame advanced (queue s) a Hnd'). eauto.
    - intros (a & Hq & Hended).
      apply (ended_in_frame advanced (queue s) a Hnd') in Hended as (o & Ho & Hover & Ha).
      eauto 10. }
  rewrite <- Hstart, <- Hqz. unfold startIfChained. simpl.
  destruct (startedBy advanced (queue s) (handle z)); simpl.
  - split; auto.
  - split; [auto | intros [H|H]; [exact H | discriminate]].
Qed.

(** X29. A completed frame takes no link out of the chain list unless the
    sound it waits for ended in this frame, and it invents none: the list
    keeps its length, every link of it was there before, and a link whose
    first handle did not end in the frame is still there. *)
Theorem live_links_survive_the_frame
    (fuel : nat) (ds : dsAnswers) (s s' : soundSystem) :
  update fuel ds s = Returned (None, s') ->
  List.NoDup (map handle (playingSounds s)) ->
  length (queue s') = length (queue s) /\
  (forall q, In q (queue s') -> In q (queue s)) /\
  (forall a b,
     In (a, b) (queue s) ->
     (In a (map handle (playingSounds s)) -> In a (map handle (playingSounds s'))) ->
     In (a, b) (queue s')).
Proof.
  intros Hup Hnd.
  destruct (completed_frame_reclaimed _ _ _ _ Hup Hnd)
    as (played & advanced & Hadv & Hh & Hp & Hq).
  assert (Hnd' : List.NoDup (map handle advanced)) by now rewrite Hh.
  destruct (reclaim_spec advanced (queue s) Hnd') as (_ & Hlen & Hsub & Hkeep).
  rewrite Hq. split; [exact Hlen|]. split; [exact Hsub|].
  intros a b Hin Hlive. apply Hkeep; [exact Hin|].
  intros o Ho Hover Ha. simpl in Ha.
  assert (Hended : In a (map handle advanced) /\
                   ~ In a (map handle (map snapshotSpeed (reclaimed advanced (queue s))))).
  { apply ended_in_frame; [exact Hnd'|]. exists o. auto. }
  destruct Hended as [Hwas Hgone]. apply Hgone. rewrite <- Hp. apply Hlive.
  now rewrite <- Hh.
Qed.

Lemma chained_sound_starts_when_its_leader_ends_witness :
  exists y,
    In y (playingSounds chainReady) /\ handle y = handle startedFollower /\
    (queued startedFollower = false <->
     queued y = false \/
     exists a, In (a, handle y) (queue chainReady) /\
               In a (map handle (playingSounds chainReady)) /\
               ~ In a (map handle (playingSounds chainFired))).
Proof.
  exact (chained_sound_starts_when_its_leader_ends 0 (dsGrants 4) chainReady chainFired
           startedFollower
           ltac:(vm_compute; reflexivity)
           ltac:(vm_compute; repeat constructor; simpl; intuition discriminate)
           ltac:(vm_compute; left; reflexivity)).
Defined.

Lemma live_links_survive_the_frame_witness :
  length (queue chainFired) = length (queue chainReady) /\
  (forall q, In q (queue chainFired) -> In q (queue chainReady)) /\
  (forall a b,
     In (a, b) (queue chainReady) ->
     (In a (map handle (playingSounds chainReady)) ->
      In a (map handle (playingSounds chainFired))) ->
     In (a, b) (queue chainFired)).
Proof.
  exact (live_links_survive_the_frame 0 (dsGrants 4) chainReady chainFired
           ltac:(vm_compute; reflexivity)
           ltac:(vm_compute; repeat constructor; simpl; intuition discriminate)).
Defined.

(** *** Exact rounding *)

Lemma shr_1_double (q : Z) :
  0 <= q ->
  shr_1 (Build_shr_record (2 * q) false false) = Build_shr_record q false false.
Proof. destruct q as [|p|p]; intros Hq; try lia; reflexivity. Qed.

Lemma iter_shr_1_exact (k : positive) :
  forall q : Z,
    0 <= q ->
    SpecFloat.iter_pos shr_1 k (Build_shr_record (2 ^ Zpos k * q) false false)
      = Build_shr_record q false false.
Proof.
  assert (Hpow : forall j : positive, 0 < 2 ^ Zpos j)
    by (intros; apply Z.pow_pos_nonneg; lia).
  induction k as [k IH|k IH|]; intros q Hq; cbn [SpecFloat.iter_pos].
  - rewrite pow2_xI.
    replace (2 * 2 ^ Zpos k * 2 ^ Zpos k * q) with (2 * (2 ^ Zpos k * (2 ^ Zpos k * q)))
      by ring.
    pose proof (Hpow k).
    rewrite shr_1_double by nia. rewrite IH by nia. now rewrite IH.
  - rewrite pow2_xO.
    replace (2 ^ Zpos k * 2 ^ Zpos k * q) with (2 ^ Zpos k * (2 ^ Zpos k * q)) by ring.
    pose proof (Hpow k).
    rewrite IH by nia. now rewrite IH.
  - change (2 ^ 1) with 2. now apply shr_1_double.
Qed.

Lemma Zdigits2_mul_pow (p : positive) (j : Z) :
  0 <= j -> Zdigits2 (Zpos p * 2 ^ j) = Zdigits2 (Zpos p) + j.
Proof.
  intros Hj.
  pose proof (Zdigits2_bounds (Zpos p) ltac:(lia)) as [Hlo Hhi].
  pose proof (Zdigits2_nonneg (Zpos p)) as Hd.
  assert (Hd1 : 1 <= Zdigits2 (Zpos p)).
  { destruct (Z.eq_dec (Zdigits2 (Zpos p)) 0) as [E|E]; [|lia].
    rewrite E in Hhi. simpl in Hhi. lia. }
  assert (H2j : 0 < 2 ^ j) by (apply Z.pow_pos_nonneg; lia).
  apply Z.le_antisymm.
  - apply Zdigits2_le_pow; [lia|]. split; [nia|].
    rewrite Z.pow_add_r by lia. nia.
  - assert (H : Zdigits2 (Zpos p) + j - 1 < Zdigits2 (Zpos p * 2 ^ j)); [|lia].
    apply Zdigits2_ge_pow; [lia|].
    replace (Zdigits2 (Zpos p) + j - 1) with (Zdigits2 (Zpos p) - 1 + j) by lia.
    rewrite Z.pow_add_r by lia. nia.
Qed.

(** A mantissa that fits the format at its canonical exponent is not
    changed by rounding. *)
Lemma binary_round_aux_canonical (s : bool) (p : positive) (c : Z) :
  fexp prec emax (Zdigits2 (Zpos p) + c) = c ->
  c <= 971 ->
  binary_round_aux prec emax s (Zpos p) c loc_Exact = S754_finite s p c.
Proof.
  intros Hc Hmax. unfold binary_round_aux, shr_fexp.
  rewrite Hc, Z.sub_diag. cbn [shr shr_record_of_loc shr_m loc_of_shr_record
                               round_nearest_even].
  rewrite Hc, Z.sub_diag. cbn [shr shr_record_of_loc shr_m].
  rewrite prec_value, emax_value.
  destruct (Z.leb_spec c (1024 - 53)); [reflexivity | lia].
Qed.

(** [binary_round] is exact on a value that the format holds: when the
    canonical exponent [c] of [p * 2^e] is above [e], [p] has to be a
    multiple of [2^(c - e)]. *)
Lemma binary_round_exact_shr (s : bool) (q : positive) (e c : Z) :
  e < c ->
  fexp prec emax (Zdigits2 (Zpos q) + c) = c ->
  c <= 971 ->
  binary_round prec emax s (Z.to_pos (2 ^ (c - e) * Zpos q)) e = S754_finite s q c.
Proof.
  intros Hec Hc Hmax.
  assert (Hpow : 0 < 2 ^ (c - e)) by (apply Z.pow_pos_nonneg; lia).
  set (p := Z.to_pos (2 ^ (c - e) * Zpos q)).
  assert (Hp : Zpos p = Zpos q * 2 ^ (c - e)) by (unfold p; rewrite Z2Pos.id; nia).
  assert (Hd : Zdigits2 (Zpos p) + e = Zdigits2 (Zpos q) + c).
  { rewrite Hp, Zdigits2_mul_pow by lia. lia. }
  unfold binary_round.
  change (Zpos (digits2_pos p)) with (Zdigits2 (Zpos p)).
  rewrite Hd, Hc, shl_align_ge by lia.
  unfold binary_round_aux, shr_fexp. rewrite Hd, Hc.
  destruct (c - e) as [|k|k] eqn:Hk; try lia.
  cbn [shr shr_record_of_loc].
  replace (Zpos p) with (2 ^ Zpos k * Zpos q) by (rewrite Hp; ring).
  rewrite iter_shr_1_exact by lia.
  cbn [shr_m loc_of_shr_record round_nearest_even].
  replace (e + Zpos k) with c by lia.
  rewrite Hc, Z.sub_diag. cbn [shr shr_record_of_loc shr_m].
  rewrite prec_value, emax_value.
  destruct (Z.leb_spec c (1024 - 53)); [reflexivity | lia].
Qed.

Lemma binary_round_exact_shl (s : bool) (p : positive) (e c : Z) :
  c <= e ->
  fexp prec emax (Zdigits2 (Zpos p) + e) = c ->
  c <= 971 ->
  binary_round prec emax s p e = S754_finite s (Z.to_pos (Zpos p * 2 ^ (e - c))) c.
Proof.
  intros Hec Hc Hmax.
  assert (Hpow : 0 < 2 ^ (e - c)) by (apply Z.pow_pos_nonneg; lia).
  unfold binary_round.
  change (Zpos (digits2_pos p)) with (Zdigits2 (Zpos p)).
  rewrite Hc.
  pose proof (shl_align_value p e c Hec) as Hv.
  pose proof (shl_align_exponent p e c) as He.
  destruct (shl_align p e c) as [mz ez]. cbn [fst snd] in Hv, He.
  rewrite Z.min_r in He by lia. subst ez.
  rewrite binary_round_aux_canonical.
  - f_equal. rewrite <- Hv. now rewrite Pos2Z.id.
  - rewrite Hv, Zdigits2_mul_pow by lia.
    replace (Zdigits2 (Zpos p) + (e - c) + c) with (Zdigits2 (Zpos p) + e) by lia.
    exact Hc.
  - exact Hmax.
Qed.

Lemma pow2_le (a b : Z) : 0 <= a <= b -> 2 ^ a <= 2 ^ b.
Proof. intros H. apply Z.pow_le_mono_r; lia. Qed.

Lemma pow2_pos (a : Z) : 0 <= a -> 0 < 2 ^ a.
Proof. intros H. apply Z.pow_pos_nonneg; lia. Qed.

Lemma pow2_sub (a b : Z) : 0 <= b <= a -> 2 ^ a = 2 ^ (a - b) * 2 ^ b.
Proof. intros H. rewrite <- Z.pow_add_r by lia. f_equal. lia. Qed.

(** The difference of two canonical magnitudes, the smaller one taken
    from the larger, is held by the format when the larger one is below
    [2^53] and the smaller one is a multiple of the unit in the last place
    of the larger: rounding returns it as it is. *)
Lemma binary_round_difference (s : bool) (mx mn : positive) (ex en : Z) :
  bounded prec emax mx ex = true ->
  bounded prec emax mn en = true ->
  en < ex \/ (en = ex /\ (mn < mx)%positive) ->
  (en < ex -> exists k, Zpos mn = k * 2 ^ (ex - en)) ->
  let ez := Z.min ex en in
  exists (q : positive) (c : Z),
    binary_round prec emax s
      (Z.to_pos (Zpos (fst (shl_align mx ex ez)) - Zpos (fst (shl_align mn en ez)))) ez
      = S754_finite s q c /\
    -1074 <= c <= ex /\
    Zpos q * 2 ^ (c + 1074) = Zpos mx * 2 ^ (ex + 1074) - Zpos mn * 2 ^ (en + 1074).
Proof.
  intros Hx Hn Hlt Halign ez.
  destruct (bounded_canonical mx ex Hx) as (Hex & Hdx & _).
  destruct (bounded_canonical mn en Hn) as (Hen & Hdn & _).
  assert (Hcx : fexp prec emax (Zdigits2 (Zpos mx) + ex) = ex).
  { unfold bounded, canonical_mantissa in Hx. apply andb_true_iff in Hx as [Hc _].
    now apply Z.eqb_eq in Hc. }
  assert (Hez : ez = en) by (unfold ez; lia).
  rewrite (shl_align_value mx ex ez) by lia.
  rewrite (shl_align_value mn en ez) by lia.
  rewrite Hez, Z.sub_diag, Z.pow_0_r, Z.mul_1_r.
  set (A := Zpos mx * 2 ^ (ex - en)).
  assert (Hpow : 0 < 2 ^ (ex - en)) by (apply pow2_pos; lia).
  assert (HBA : Zpos mn < A).
  { pose proof (aligned_lt mn mx en ex Hn Hx Hlt) as H.
    rewrite Z.min_l in H by lia. rewrite Z.sub_diag, Z.pow_0_r in H. unfold A. lia. }
  set (D := A - Zpos mn). assert (HD : 0 < D) by (unfold D; lia).
  (* the digits of the difference *)
  assert (HdA : Zdigits2 A = Zdigits2 (Zpos mx) + (ex - en))
    by (unfold A; apply Zdigits2_mul_pow; lia).
  assert (HdD : Zdigits2 D <= Zdigits2 A) by (apply Zdigits2_mono; lia).
  set (c := fexp prec emax (Zdigits2 D + en)).
  assert (Hc_le : c <= ex).
  { unfold c. rewrite <- Hcx. apply fexp_mono. lia. }
  assert (Hc_ge : -1074 <= c) by (unfold c; rewrite fexp_value; lia).
  (* the difference is a multiple of [2^(ex - en)] *)
  assert (Hdiv : exists k, D = k * 2 ^ (ex - en)).
  { destruct (Z.eq_dec en ex) as [E|E].
    - exists D. rewrite E, Z.sub_diag, Z.pow_0_r. lia.
    - destruct (Halign ltac:(lia)) as [k Hk].
      exists (Zpos mx - k). unfold D, A. rewrite Hk. ring. }
  destruct Hdiv as [k Hk].
  assert (Hscale : forall v, v * 2 ^ (ex + 1074) = v * 2 ^ (ex - en) * 2 ^ (en + 1074)).
  { intros v. rewrite <- Z.mul_assoc, <- Z.pow_add_r by lia. do 2 f_equal. lia. }
  assert (Hvalue : D * 2 ^ (en + 1074)
                   = Zpos mx * 2 ^ (ex + 1074) - Zpos mn * 2 ^ (en + 1074)).
  { unfold D, A. rewrite (Hscale (Zpos mx)). ring. }
  destruct (Z.lt_ge_cases en c) as [Hshift|Hshift].
  - (* the canonical exponent is above [en]: the low bits are zero *)
    assert (Hk' : D = 2 ^ (c - en) * (k * 2 ^ (ex - c))).
    { rewrite Hk, (pow2_sub (ex - en) (c - en)) by lia.
      replace (ex - en - (c - en)) with (ex - c) by lia. ring. }
    assert (Hq : 0 < k * 2 ^ (ex - c)).
    { pose proof (pow2_pos (c - en) ltac:(lia)). nia. }
    set (q := Z.to_pos (k * 2 ^ (ex - c))).
    assert (Eq : Zpos q = k * 2 ^ (ex - c)) by (unfold q; rewrite Z2Pos.id; lia).
    exists q, c. split; [|split; [lia|]].
    + rewrite Hk', <- Eq. apply binary_round_exact_shr; [exact Hshift| |lia].
      replace (Zdigits2 (Zpos q) + c) with (Zdigits2 D + en); [reflexivity|].
      rewrite Hk', <- Eq, Z.mul_comm, Zdigits2_mul_pow by lia. lia.
    + rewrite <- Hvalue, Hk', <- Eq.
      rewrite (pow2_sub (c + 1074) (en + 1074)) by lia.
      replace (c + 1074 - (en + 1074)) with (c - en) by lia. ring.
  - (* the canonical exponent is not above [en]: the mantissa is shifted left *)
    exists (Z.to_pos (D * 2 ^ (en - c))), c. split; [|split; [lia|]].
    + replace D with (Zpos (Z.to_pos D)) at 2 by (rewrite Z2Pos.id; lia).
      apply binary_round_exact_shl; [lia| |lia].
      rewrite Z2Pos.id by lia. reflexivity.
    + pose proof (pow2_pos (en - c) ltac:(lia)).
      rewrite Z2Pos.id by nia. rewrite <- Hvalue.
      rewrite (pow2_sub (en + 1074) (c + 1074)) by lia.
      replace (en + 1074 - (c + 1074)) with (en - c) by lia. ring.
Qed.

(** *** Exact subtraction and addition *)

Lemma Prim2SF_bounded (p : float) (s : bool) (m : positive) (e : Z) :
  Prim2SF p = S754_finite s m e -> bounded prec emax m e = true.
Proof.
  intros H. pose proof (FloatAxioms.Prim2SF_valid p) as Hv. now rewrite H in Hv.
Qed.

Lemma magnitude_trichotomy (m1 m2 : positive) (e1 e2 : Z) :
  (e1 < e2 \/ (e1 = e2 /\ (m1 < m2)%positive)) \/
  (e1 = e2 /\ m1 = m2) \/
  (e2 < e1 \/ (e2 = e1 /\ (m2 < m1)%positive)).
Proof.
  destruct (Z.lt_trichotomy e1 e2) as [H|[H|H]]; [auto| |auto].
  destruct (Pos.lt_total m1 m2) as [H'|[H'|H']]; auto.
Qed.

(** An integer in units of [2^-1074] that is a whole number is, for a
    canonical number with an exponent of at most 0 beside it, a multiple
    of that number's unit in the last place. *)
Lemma whole_aligned (mn : positive) (en ex k : Z) :
  -1074 <= en -> en < ex -> ex <= 0 ->
  Zpos mn * 2 ^ (en + 1074) = k * 2 ^ 1074 ->
  exists k', Zpos mn = k' * 2 ^ (ex - en).
Proof.
  intros Hen Hlt Hex Hk.
  exists (k * 2 ^ (- ex)).
  rewrite <- Z.mul_assoc, <- Z.pow_add_r by lia.
  replace (- ex + (ex - en)) with (- en) by lia.
  apply (Z.mul_cancel_r _ _ (2 ^ (en + 1074))).
  { pose proof (pow2_pos (en + 1074) ltac:(lia)). lia. }
  rewrite Hk, <- Z.mul_assoc, <- Z.pow_add_r by lia.
  do 2 f_equal. lia.
Qed.

Lemma SFsub_exact (mx mn : positive) (ex en : Z) :
  bounded prec emax mx ex = true ->
  bounded prec emax mn en = true ->
  en < ex \/ (en = ex /\ (mn < mx)%positive) ->
  (en < ex -> exists k, Zpos mn = k * 2 ^ (ex - en)) ->
  exists (q : positive) (c : Z),
    SF64sub (S754_finite false mx ex) (S754_finite false mn en) = S754_finite false q c /\
    -1074 <= c <= ex /\
    Zpos q * 2 ^ (c + 1074) = Zpos mx * 2 ^ (ex + 1074) - Zpos mn * 2 ^ (en + 1074).
Proof.
  intros Hx Hn Hlt Halign.
  destruct (binary_round_difference false mx mn ex en Hx Hn Hlt Halign)
    as (q & c & Hround & Hc & Hv).
  exists q, c. split; [|auto].
  unfold SF64sub, SFsub. cbn [cond_Zopp].
  change (IntDef.Z.min ex en) with (Z.min ex en).
  rewrite <- Hround.
  assert (Hpos : 0 < Zpos (fst (shl_align mx ex (Z.min ex en)))
                     - Zpos (fst (shl_align mn en (Z.min ex en)))).
  { pose proof (aligned_lt mn mx en ex Hn Hx Hlt) as H.
    rewrite !shl_align_value by lia. rewrite (Z.min_comm en ex) in H. lia. }
  destruct (Zpos (fst (shl_align mx ex (Z.min ex en)))
            - Zpos (fst (shl_align mn en (Z.min ex en)))) as [|d|d]; try lia.
  reflexivity.
Qed.

(** The same for a negative number to which a smaller magnitude is
    added. *)
Lemma SFadd_neg_exact (mp mn : positive) (ep en : Z) :
  bounded prec emax mp ep = true ->
  bounded prec emax mn en = true ->
  en < ep \/ (en = ep /\ (mn < mp)%positive) ->
  (en < ep -> exists k, Zpos mn = k * 2 ^ (ep - en)) ->
  exists (q : positive) (c : Z),
    SF64add (S754_finite true mp ep) (S754_finite false mn en) = S754_finite true q c /\
    -1074 <= c <= ep /\
    Zpos q * 2 ^ (c + 1074) = Zpos mp * 2 ^ (ep + 1074) - Zpos mn * 2 ^ (en + 1074).
Proof.
  intros Hx Hn Hlt Halign.
  destruct (binary_round_difference true mp mn ep en Hx Hn Hlt Halign)
    as (q & c & Hround & Hc & Hv).
  exists q, c. split; [|auto].
  unfold SF64add, SFadd. cbn [cond_Zopp].
  change (IntDef.Z.min ep en) with (Z.min ep en).
  rewrite <- Hround.
  assert (Hpos : 0 < Zpos (fst (shl_align mp ep (Z.min ep en)))
                     - Zpos (fst (shl_align mn en (Z.min ep en)))).
  { pose proof (aligned_lt mn mp en ep Hn Hx Hlt) as H.
    rewrite !shl_align_value by lia. rewrite (Z.min_comm en ep) in H. lia. }
  set (A := Zpos (fst (shl_align mp ep (Z.min ep en)))) in *.
  set (B := Zpos (fst (shl_align mn en (Z.min ep en)))) in *.
  replace (- A + B) with (- (A - B)) by lia.
  destruct (A - B) as [|d|d]; try lia.
  reflexivity.
Qed.

(** Rounding a positive value below [2^52] gives zero or a positive
    number with an exponent of at most 0. *)
Lemma binary_round_small (d : positive) (e : Z) :
  -1074 <= e <= 0 ->
  Zdigits2 (Zpos d) + e <= 52 ->
  smallNonneg (binary_round prec emax false d e).
Proof.
  intros He Hd. unfold binary_round.
  change (Zpos (digits2_pos d)) with (Zdigits2 (Zpos d)).
  set (dd := Zdigits2 (Zpos d) + e) in *.
  set (f := fexp prec emax dd).
  assert (Hf : f = Z.max (dd - 53) (-1074)) by apply fexp_value.
  pose proof (Zdigits2_bounds (Zpos d) ltac:(lia)) as [Hdlo Hdhi].
  assert (Hd1 : 1 <= Zdigits2 (Zpos d)).
  { destruct (Z.le_gt_cases 1 (Zdigits2 (Zpos d))) as [H|H]; [exact H|].
    pose proof (Zdigits2_nonneg (Zpos d)).
    replace (Zdigits2 (Zpos d)) with 0 in Hdhi by lia. simpl in Hdhi. lia. }
  assert (Hshl : exists mz ez, shl_align d e f = (mz, ez) /\ ez = Z.min e f /\
                               Zdigits2 (Zpos mz) + ez = dd).
  { destruct (Z.le_gt_cases e f) as [H|H].
    - exists d, e. rewrite shl_align_ge by exact H. split; [reflexivity|]. split; [lia|].
      reflexivity.
    - pose proof (shl_align_value d e f ltac:(lia)) as Hv.
      pose proof (shl_align_exponent d e f) as Hx.
      destruct (shl_align d e f) as [mz ez]. cbn [fst snd] in Hv, Hx.
      exists mz, ez. split; [reflexivity|]. split; [exact Hx|].
      rewrite Hv, Zdigits2_mul_pow by lia. unfold dd. lia. }
  destruct Hshl as (mz & ez & -> & Hez & Hdz).
  destruct (binary_round_aux_cases false (Zpos mz) ez loc_Exact ltac:(lia))
    as (m2 & Hm2 & ->).
  rewrite Hdz in *. fold f in Hm2 |- *.
  set (e1 := Z.max ez f) in *.
  assert (He1 : e1 = f) by (unfold e1; lia).
  set (e3 := Z.max e1 (fexp prec emax (Zdigits2 m2 + e1))).
  pose proof (Zdigits2_bounds (Zpos mz) ltac:(lia)) as [_ Hmz].
  assert (Hk : 0 <= e1 - ez) by lia.
  assert (Hdd : 0 <= dd - e1) by lia.
  assert (Hquot : 0 <= Zpos mz / 2 ^ (e1 - ez) < 2 ^ (dd - e1)).
  { pose proof (pow2_pos (e1 - ez) Hk). split; [apply Z.div_pos; lia|].
    apply Z.div_lt_upper_bound; [lia|].
    rewrite <- Z.pow_add_r by lia.
    replace (e1 - ez + (dd - e1)) with (Zdigits2 (Zpos mz)) by lia. exact Hmz. }
  assert (Hm2d : Zdigits2 m2 + e1 <= 53).
  { assert (Zdigits2 m2 <= dd - e1 + 1); [|lia].
    apply Zdigits2_le_pow; [lia|]. split; [lia|].
    rewrite Z.pow_add_r by lia. change (2 ^ 1) with 2. lia. }
  assert (He3 : e3 <= 0).
  { unfold e3. rewrite fexp_value. lia. }
  assert (Hq : 0 <= m2 / 2 ^ (e3 - e1)).
  { apply Z.div_pos; [lia|]. apply pow2_pos. unfold e3. lia. }
  destruct (m2 / 2 ^ (e3 - e1)) as [|q|q]; simpl; try lia; try exact I.
  rewrite prec_value, emax_value.
  destruct (Z.leb_spec e3 (1024 - 53)); [exact He3 | lia].
Qed.

Lemma SFadd_neg_small (mp mn : positive) (ep en : Z) :
  bounded prec emax mp ep = true ->
  bounded prec emax mn en = true ->
  ep <= 0 ->
  ep < en \/ (ep = en /\ (mp < mn)%positive) ->
  wholePeriod (S754_finite false mn en) ->
  smallNonneg (SF64add (S754_finite true mp ep) (S754_finite false mn en)).
Proof.
  intros Hp Hn Hep Hlt (k & Hk & Hwhole).
  destruct (bounded_canonical mp ep Hp) as (Hep' & _).
  destruct (bounded_canonical mn en Hn) as (Hen' & _).
  unfold SF64add, SFadd. cbn [cond_Zopp].
  change (IntDef.Z.min ep en) with (Z.min ep en).
  pose proof (aligned_lt mp mn ep en Hp Hn Hlt) as Hab.
  rewrite !shl_align_value by lia.
  set (ez := Z.min ep en) in *.
  set (A := Zpos mp * 2 ^ (ep - ez)) in *.
  set (B := Zpos mn * 2 ^ (en - ez)) in *.
  replace (- A + B) with (B - A) by lia.
  assert (HA : 0 < A).
  { unfold A. pose proof (pow2_pos (ep - ez) ltac:(lia)). nia. }
  destruct (B - A) as [|d|d] eqn:HD; try lia.
  cbn [binary_normalize].
  apply binary_round_small; [lia|].
  assert (HB : B * 2 ^ (ez + 1074) = k * 2 ^ 1074).
  { unfold B. rewrite <- Hwhole, <- Z.mul_assoc, <- Z.pow_add_r by lia.
    do 2 f_equal. lia. }
  assert (Hd : Zpos d < 2 ^ (52 - ez)).
  { apply (Z.mul_lt_mono_pos_r (2 ^ (ez + 1074))); [apply pow2_pos; lia|].
    rewrite <- Z.pow_add_r by lia. replace (52 - ez + (ez + 1074)) with (52 + 1074) by lia.
    rewrite (Z.pow_add_r 2 52 1074) by lia.
    apply Z.lt_trans with (B * 2 ^ (ez + 1074)).
    - apply Z.mul_lt_mono_pos_r; [apply pow2_pos; lia | lia].
    - rewrite HB. apply Z.mul_lt_mono_pos_r; [apply pow2_pos; lia | lia]. }
  assert (Zdigits2 (Zpos d) <= 52 - ez); [|lia].
  apply Zdigits2_le_pow; lia.
Qed.

(** *** The loops of [wrapSoundPos] end *)

Lemma raiseWhileNegative_fuel (n : float) (fuel : nat) :
  forall (fuel' : nat) (p q : float),
    raiseWhileNegative fuel n p = Returned q -> (fuel <= fuel')%nat ->
    raiseWhileNegative fuel' n p = Returned q.
Proof.
  induction fuel as [|fuel IH]; intros fuel' p q H Hle.
  - simpl in H. destruct (p <? 0)%float eqn:E; [discriminate|].
    destruct fuel'; simpl; now rewrite E.
  - destruct fuel' as [|fuel']; [lia|]. simpl in H |- *.
    destruct (p <? 0)%float; [|exact H]. apply IH; [exact H | lia].
Qed.

Lemma lowerWhileAbove_fuel (n : float) (fuel : nat) :
  forall (fuel' : nat) (p r : float),
    lowerWhileAbove fuel n p = Returned r -> (fuel <= fuel')%nat ->
    lowerWhileAbove fuel' n p = Returned r.
Proof.
  induction fuel as [|fuel IH]; intros fuel' p r H Hle.
  - simpl in H. destruct (n <? p)%float eqn:E; [discriminate|].
    destruct fuel'; simpl; now rewrite E.
  - destruct fuel' as [|fuel']; [lia|]. simpl in H |- *.
    destruct (n <? p)%float; [|exact H]. apply IH; [exact H | lia].
Qed.

Lemma scaled_pos (m : positive) (e : Z) : -1074 <= e -> 0 < Zpos m * 2 ^ (e + 1074).
Proof. intros He. pose proof (pow2_pos (e + 1074) ltac:(lia)). nia. Qed.

(** The second loop ends for a small position that is not negative. *)
Lemma lowerWhileAbove_terminates (n : float) :
  wholePeriod (Prim2SF n) ->
  forall (N : nat) (p : float),
    smallNonneg (Prim2SF p) ->
    Z.abs (scaled (Prim2SF p)) <= Z.of_nat N ->
    exists (fuel : nat) (r : float),
      lowerWhileAbove fuel n p = Returned r /\
      (n <? r)%float = false /\ smallNonneg (Prim2SF r).
Proof.
  intros Hn.
  destruct (Prim2SF n) as [| | |[|] mn en] eqn:En; try contradiction.
  destruct Hn as (k & Hk & Hwhole).
  pose proof (Prim2SF_bounded n _ _ _ En) as Bn.
  destruct (bounded_canonical mn en Bn) as (Hen & _).
  assert (Hmu_n : 1 <= Zpos mn * 2 ^ (en + 1074)).
  { pose proof (scaled_pos mn en ltac:(lia)). lia. }
  induction N as [|N IH]; intros p Hs Hmu;
    (destruct (n <? p)%float eqn:E; [|exists O, p; simpl; rewrite E; auto]).
  - (* no room to go down: the position is zero *)
    exfalso. rewrite FloatAxioms.ltb_spec, En in E.
    destruct (Prim2SF p) as [s| | |[|] mp ep] eqn:Ep; try contradiction;
      simpl in E; try discriminate.
    pose proof (Prim2SF_bounded p _ _ _ Ep) as Bp.
    destruct (bounded_canonical mp ep Bp) as (Hep & _).
    pose proof (scaled_pos mp ep ltac:(lia)). simpl in Hmu. lia.
  - rewrite FloatAxioms.ltb_spec, En in E.
    destruct (Prim2SF p) as [s| | |[|] mp ep] eqn:Ep; try contradiction;
      simpl in E; try discriminate.
    simpl in Hs.
    pose proof (Prim2SF_bounded p _ _ _ Ep) as Bp.
    destruct (bounded_canonical mp ep Bp) as (Hep & _).
    assert (Hlex : en < ep \/ (en = ep /\ (mn < mp)%positive)).
    { apply lex_lt_false. unfold SFltb, SFcompare in E.
      destruct (en ?= ep), (Pos.compare_cont Eq mn mp); simpl in *; congruence. }
    destruct (SFsub_exact mp mn ep en Bp Bn Hlex) as (q & c & Hsub & Hc & Hv).
    { intros Hlt. apply (whole_aligned mn en ep k); auto; lia. }
    assert (Ep' : Prim2SF (p - n) = S754_finite false q c).
    { now rewrite FloatAxioms.sub_spec, Ep, En. }
    destruct (IH (p - n)%float) as (fuel & r & Hr & Hrest).
    + rewrite Ep'. simpl. lia.
    + rewrite Ep'. simpl. simpl in Hmu.
      pose proof (scaled_pos q c ltac:(lia)). lia.
    + exists (Datatypes.S fuel), r. split; [|exact Hrest].
      simpl. rewrite FloatAxioms.ltb_spec, En, Ep.
      unfold SFltb in E |- *. destruct (SFcompare _ _) as [[]|]; try discriminate.
      exact Hr.
Qed.

Lemma smallNonneg_not_negative (p : float) :
  smallNonneg (Prim2SF p) -> (p <? 0)%float = false.
Proof.
  rewrite FloatAxioms.ltb_spec. change (Prim2SF 0) with (S754_zero false).
  destruct (Prim2SF p) as [s| | |[|] m e]; simpl; try contradiction; reflexivity.
Qed.

(** The first loop ends for a small position, and leaves a small position
    that is not negative. *)
Lemma raiseWhileNegative_terminates (n : float) :
  wholePeriod (Prim2SF n) ->
  forall (N : nat) (p : float),
    smallFinite (Prim2SF p) ->
    Z.abs (scaled (Prim2SF p)) <= Z.of_nat N ->
    exists (fuel : nat) (q : float),
      raiseWhileNegative fuel n p = Returned q /\ smallNonneg (Prim2SF q).
Proof.
  intros Hn. pose proof Hn as Hn'.
  destruct (Prim2SF n) as [| | |[|] mn en] eqn:En; try contradiction.
  destruct Hn as (k & Hk & Hwhole).
  pose proof (Prim2SF_bounded n _ _ _ En) as Bn.
  destruct (bounded_canonical mn en Bn) as (Hen & _).
  assert (Hmu_n : 1 <= Zpos mn * 2 ^ (en + 1074)).
  { pose proof (scaled_pos mn en ltac:(lia)). lia. }
  assert (Hexit : forall p, smallFinite (Prim2SF p) -> (p <? 0)%float = false ->
            exists (fuel : nat) (q : float),
              raiseWhileNegative fuel n p = Returned q /\ smallNonneg (Prim2SF q)).
  { intros p Hs E. exists O, p. simpl. rewrite E. split; [reflexivity|].
    rewrite FloatAxioms.ltb_spec in E. change (Prim2SF 0) with (S754_zero false) in E.
    destruct (Prim2SF p) as [s| | |[|] m e]; simpl in *; try contradiction;
      try discriminate; auto. }
  assert (Hone : forall p, (p <? 0)%float = true -> smallNonneg (Prim2SF (p + n)) ->
            exists (fuel : nat) (q : float),
              raiseWhileNegative fuel n p = Returned q /\ smallNonneg (Prim2SF q)).
  { intros p E Hs. exists 1%nat, (p + n)%float. simpl. rewrite E.
    now rewrite (smallNonneg_not_negative _ Hs). }
  induction N as [|N IH]; intros p Hs Hmu;
    (destruct (p <? 0)%float eqn:E; [|now apply Hexit]);
    pose proof E as E'; rewrite FloatAxioms.ltb_spec in E';
    change (Prim2SF 0) with (S754_zero false) in E';
    destruct (Prim2SF p) as [s| | |[|] mp ep] eqn:Ep; try contradiction;
    simpl in E'; try discriminate; simpl in Hs, Hmu;
    pose proof (Prim2SF_bounded p _ _ _ Ep) as Bp;
    destruct (bounded_canonical mp ep Bp) as (Hep & _);
    pose proof (scaled_pos mp ep ltac:(lia)) as Hmu_p.
  - lia.
  - destruct (magnitude_trichotomy mn mp en ep) as [Hlex|[[He Hm]|Hlex]].
    + (* the period is smaller than the distance to zero: an exact step *)
      destruct (SFadd_neg_exact mp mn ep en Bp Bn Hlex) as (q & c & Hadd & Hc & Hv).
      { intros Hlt. apply (whole_aligned mn en ep k); auto; lia. }
      assert (Ep' : Prim2SF (p + n) = S754_finite true q c).
      { now rewrite FloatAxioms.add_spec, Ep, En. }
      destruct (IH (p + n)%float) as (fuel & r & Hr & Hrest).
      * rewrite Ep'. simpl. lia.
      * rewrite Ep'. simpl. pose proof (scaled_pos q c ltac:(lia)). lia.
      * exists (Datatypes.S fuel), r. split; [|exact Hrest]. simpl. now rewrite E.
    + (* the period is the distance to zero *)
      apply (Hone p E). rewrite FloatAxioms.add_spec, Ep, En. subst en mn.
      unfold SF64add, SFadd. cbn [cond_Zopp]. rewrite Z.add_opp_diag_l. exact I.
    + (* the period is larger: the sum is rounded, and is not negative *)
      apply (Hone p E). rewrite FloatAxioms.add_spec, Ep, En.
      apply SFadd_neg_small; auto.
Qed.

(** The conversion of a whole number from 1 to [2^52] is exact. *)
Lemma of_int_exact (k : Z) :
  1 <= k <= 2 ^ 52 ->
  exists mx : positive,
    Prim2SF (F64.of_int k) = S754_finite false mx (Zdigits2 k - 53) /\
    1 <= Zdigits2 k <= 53 /\
    Zpos mx * 2 ^ (Zdigits2 k - 53 + 1074) = k * 2 ^ 1074.
Proof.
  intros Hk. unfold F64.of_int. destruct (Z.ltb_spec k 0) as [H|_]; [lia|].
  rewrite of_uint63_of_Z by lia.
  destruct k as [|pk|pk] eqn:Epk; try lia. cbn [binary_normalize].
  assert (Hd : 1 <= Zdigits2 (Zpos pk) <= 53).
  { split.
    - assert (0 < Zdigits2 (Zpos pk)); [|lia]. apply Zdigits2_ge_pow; lia.
    - apply Zdigits2_le_pow; lia. }
  set (ex := Zdigits2 (Zpos pk) - 53) in *.
  assert (Hf : fexp prec emax (Zdigits2 (Zpos pk) + 0) = ex).
  { rewrite fexp_value. unfold ex. lia. }
  rewrite (binary_round_exact_shl false pk 0 ex) by (unfold ex in *; lia || exact Hf).
  pose proof (pow2_pos (0 - ex) ltac:(unfold ex; lia)).
  exists (Z.to_pos (Zpos pk * 2 ^ (0 - ex))).
  split; [reflexivity|]. split; [exact Hd|].
  rewrite Z2Pos.id by nia.
  rewrite <- Z.mul_assoc, <- Z.pow_add_r by (unfold ex; lia).
  do 2 f_equal. lia.
Qed.

(** The period of a clip of 2 to [2^52] frames: the subtraction is exact. *)
Lemma period_exact (sampleCount : Z) :
  2 <= sampleCount <= 2 ^ 52 ->
  exists (q : positive) (c : Z),
    Prim2SF (F64.of_int sampleCount - 1) = S754_finite false q c /\
    Zpos q * 2 ^ (c + 1074) = (sampleCount - 1) * 2 ^ 1074.
Proof.
  intros Hc.
  destruct (of_int_exact sampleCount ltac:(lia)) as (mx & Ex & Hd & Hvx).
  assert (Hd2 : 2 <= Zdigits2 sampleCount).
  { assert (1 < Zdigits2 sampleCount); [|lia]. apply Zdigits2_ge_pow; lia. }
  set (ex := Zdigits2 sampleCount - 53) in *.
  assert (E1 : Prim2SF 1 = S754_finite false 4503599627370496 (-52)) by reflexivity.
  pose proof (Prim2SF_bounded _ _ _ _ Ex) as Bx.
  pose proof (Prim2SF_bounded _ _ _ _ E1) as B1.
  destruct (SFsub_exact mx 4503599627370496 ex (-52) Bx B1) as (q & c & Hsub & Hcq & Hv).
  { left. unfold ex. lia. }
  { intros _. exists (2 ^ (- ex)).
    rewrite <- Z.pow_add_r by (unfold ex; lia).
    replace (- ex + (ex - -52)) with 52 by lia.
    reflexivity. }
  exists q, c. split; [now rewrite FloatAxioms.sub_spec, Ex, E1|].
  rewrite Hv, Hvx.
  change (-52 + 1074) with 1022.
  replace (4503599627370496 * 2 ^ 1022) with (2 ^ 1074).
  - ring.
  - change 4503599627370496 with (2 ^ 52). rewrite <- Z.pow_add_r by lia. reflexivity.
Qed.

Lemma period_whole (sampleCount : Z) :
  2 <= sampleCount <= 2 ^ 52 ->
  wholePeriod (Prim2SF (F64.of_int sampleCount - 1)).
Proof.
  intros Hc. destruct (period_exact sampleCount Hc) as (q & c & -> & Hv).
  simpl. exists (sampleCount - 1). split; [lia | exact Hv].
Qed.

(** Two canonical positive numbers of the same value are the same. *)
Lemma canonical_unique (m1 m2 : positive) (e1 e2 : Z) :
  bounded prec emax m1 e1 = true ->
  bounded prec emax m2 e2 = true ->
  Zpos m1 * 2 ^ (e1 + 1074) = Zpos m2 * 2 ^ (e2 + 1074) ->
  m1 = m2 /\ e1 = e2.
Proof.
  intros B1 B2 Hv.
  destruct (bounded_canonical m1 e1 B1) as (He1 & _).
  destruct (bounded_canonical m2 e2 B2) as (He2 & _).
  assert (Hlt : forall ma mb ea eb,
            bounded prec emax ma ea = true -> bounded prec emax mb eb = true ->
            -1074 <= ea -> -1074 <= eb ->
            ea < eb \/ (ea = eb /\ (ma < mb)%positive) ->
            Zpos ma * 2 ^ (ea + 1074) < Zpos mb * 2 ^ (eb + 1074)).
  { intros ma mb ea eb Ba Bb Ha Hb Hlex.
    pose proof (aligned_lt ma mb ea eb Ba Bb Hlex) as H.
    set (ez := Z.min ea eb) in *.
    apply (Z.mul_lt_mono_pos_r (2 ^ (ez + 1074))) in H; [|apply pow2_pos; lia].
    rewrite <- !Z.mul_assoc, <- !Z.pow_add_r in H by lia.
    replace (ea - ez + (ez + 1074)) with (ea + 1074) in H by lia.
    replace (eb - ez + (ez + 1074)) with (eb + 1074) in H by lia.
    exact H. }
  destruct (magnitude_trichotomy m1 m2 e1 e2) as [H|[[H H']|H]]; [|auto|].
  - pose proof (Hlt m1 m2 e1 e2 B1 B2 ltac:(lia) ltac:(lia) H). lia.
  - pose proof (Hlt m2 m1 e2 e1 B2 B1 ltac:(lia) ltac:(lia) H). lia.
Qed.

(** The period is the whole number [len - 1], as [float64] holds it. *)
Lemma period_is_len_minus_1 (sampleCount : Z) :
  2 <= sampleCount <= 2 ^ 52 ->
  (F64.of_int sampleCount - 1)%float = F64.of_int (sampleCount - 1).
Proof.
  intros Hc. apply FloatAxioms.Prim2SF_inj.
  destruct (period_exact sampleCount Hc) as (q & c & Eq & Hv).
  destruct (of_int_exact (sampleCount - 1) ltac:(lia)) as (mx & Ex & Hd & Hvx).
  rewrite Eq, Ex.
  destruct (canonical_unique q mx c (Zdigits2 (sampleCount - 1) - 53)) as [-> ->].
  - eapply Prim2SF_bounded; eauto.
  - eapply Prim2SF_bounded; eauto.
  - now rewrite Hv, Hvx.
  - reflexivity.
Qed.

Lemma within_2p52_small (pos : float) :
  (- 0x1p+52 <? pos)%float = true ->
  (pos <? 0x1p+52)%float = true ->
  smallFinite (Prim2SF pos).
Proof.
  rewrite !FloatAxioms.ltb_spec.
  change (Prim2SF 0x1p+52) with (S754_finite false 4503599627370496 0).
  change (Prim2SF (- 0x1p+52)) with (S754_finite true 4503599627370496 0).
  destruct (Prim2SF pos) as [s|[|]| |[|] m e]; simpl; intros Hlo Hhi;
    try discriminate; auto.
  - assert (Hlex : e < 0 \/ (e = 0 /\ (m < 4503599627370496)%positive)).
    { apply lex_lt_true. unfold SFltb, SFcompare in Hlo.
      destruct (0 ?= e), (Pos.compare_cont Eq 4503599627370496 m); simpl in *;
        congruence. }
    destruct Hlex as [H|[H _]]; [now apply Z.lt_le_incl | rewrite H; reflexivity].
  - assert (Hlex : e < 0 \/ (e = 0 /\ (m < 4503599627370496)%positive)).
    { apply lex_lt_false. unfold SFltb, SFcompare in Hhi.
      destruct (e ?= 0), (Pos.compare_cont Eq m 4503599627370496); simpl in *;
        congruence. }
    destruct Hlex as [H|[H _]]; [now apply Z.lt_le_incl | rewrite H; reflexivity].
Qed.

Lemma smallNonneg_leb_zero (r : float) : smallNonneg (Prim2SF r) -> (0 <=? r)%float = true.
Proof.
  rewrite FloatAxioms.leb_spec. change (Prim2SF 0) with (S754_zero false).
  destruct (Prim2SF r) as [s| | |[|] m e]; simpl; try contradiction; reflexivity.
Qed.

(** C6 (amended). [wrapSoundPos] wraps with the period [len - 1], not
    [len]: for a clip of 2 to [2^52] frames the period it computes is the
    whole number [len - 1], and every position strictly between [-2^52]
    and [2^52] is wrapped. The call returns (with enough fuel, and then
    with any more); the value it returns lies in the closed interval
    [0, len - 1]; it is the position after some additions and then some
    subtractions of the period; and a position that is already in
    [0, len - 1] is returned as it is. *)
Theorem wrapSoundPos_wraps (pos : float) (sampleCount : Z) :
  2 <= sampleCount <= 2 ^ 52 ->
  (- 0x1p+52 <? pos)%float = true ->
  (pos <? 0x1p+52)%float = true ->
  let n := (F64.of_int sampleCount - 1)%float in
  n = F64.of_int (sampleCount - 1) /\
  exists (fuel : nat) (r : float),
    (forall fuel' : nat, (fuel <= fuel')%nat ->
       wrapSoundPos fuel' pos sampleCount = Returned r) /\
    (0 <=? r)%float = true /\
    (r <=? n)%float = true /\
    (exists up down : nat,
       r = Nat.iter down (fun v => (v - n)%float)
             (Nat.iter up (fun v => (v + n)%float) pos)) /\
    ((0 <=? pos)%float = true -> (pos <=? n)%float = true -> r = pos).
Proof.
  intros Hc Hlo Hhi n. split; [now apply period_is_len_minus_1|].
  pose proof (period_whole sampleCount Hc) as Hn. fold n in Hn.
  pose proof (within_2p52_small pos Hlo Hhi) as Hpos.
  destruct (raiseWhileNegative_terminates n Hn
              (Z.to_nat (Z.abs (scaled (Prim2SF pos)))) pos Hpos ltac:(lia))
    as (fuel1 & q & Hq & Hqs).
  destruct (lowerWhileAbove_terminates n Hn
              (Z.to_nat (Z.abs (scaled (Prim2SF q)))) q Hqs ltac:(lia))
    as (fuel2 & r & Hr & Hrn & Hrs).
  assert (Hwrap : forall fuel' : nat, (Nat.max fuel1 fuel2 <= fuel')%nat ->
            wrapSoundPos fuel' pos sampleCount = Returned r).
  { intros fuel' Hfuel. unfold wrapSoundPos. fold n.
    rewrite (raiseWhileNegative_fuel n fuel1 fuel' pos q Hq) by lia. simpl.
    apply (lowerWhileAbove_fuel n fuel2 fuel' q r Hr). lia. }
  exists (Nat.max fuel1 fuel2), r. split; [exact Hwrap|].
  pose proof (smallNonneg_leb_zero r Hrs) as H0.
  split; [exact H0|]. split; [|split].
  - assert (Hnn : is_nan n = false).
    { apply is_nan_notNaN. unfold notNaN.
      destruct (Prim2SF n); simpl in Hn; try contradiction; discriminate. }
    destruct (leb_or_ltb r n (leb_zero_notNaN r H0) Hnn) as [H|H]; [exact H | congruence].
  - destruct (raiseWhileNegative_returns fuel1 n pos q Hq) as (_ & up & Eq).
    destruct (lowerWhileAbove_returns fuel2 n q r Hr) as (_ & _ & down & Er).
    exists up, down. now rewrite Er, Eq.
  - intros Hp0 Hpn.
    assert (Hsame : wrapSoundPos (Nat.max fuel1 fuel2) pos sampleCount = Returned pos).
    { unfold wrapSoundPos. fold n. apply leb_not_ltb in Hp0, Hpn.
      destruct (Nat.max fuel1 fuel2); simpl; rewrite Hp0; simpl; rewrite Hpn; reflexivity. }
    rewrite (Hwrap _ (Nat.le_refl _)) in Hsame. now inversion Hsame.
Qed.

Lemma wrapSoundPos_wraps_witness :
  (F64.of_int 10 - 1)%float = F64.of_int (10 - 1) /\
  exists (fuel : nat) (r : float),
    (forall fuel' : nat, (fuel <= fuel')%nat ->
       wrapSoundPos fuel' (-3.5) 10 = Returned r) /\
    (0 <=? r)%float = true /\
    (r <=? F64.of_int 10 - 1)%float = true /\
    (exists up down : nat,
       r = Nat.iter down (fun v => (v - (F64.of_int 10 - 1))%float)
             (Nat.iter up (fun v => (v + (F64.of_int 10 - 1))%float) (-3.5)%float)) /\
    ((0 <=? -3.5)%float = true -> (-3.5 <=? F64.of_int 10 - 1)%float = true ->
     r = (-3.5)%float).
Proof.
  exact (wrapSoundPos_wraps (-3.5) 10
           ltac:(vm_compute; split; discriminate) eq_refl eq_refl).
Defined.

